(** * API-key gateway: authentication, hourly quota and key lifecycle

    A shallow embedding of the Express/Mongoose gateway:

    - [models/ApiKey.js], [models/RateLimit.js]: the two collections and
      their schemas (defaults, required paths, unique indexes);
    - [middleware/apiKeyAuth.js]: [generateApiKey], [authenticateApiKey]
      and [rateLimitByApiKey];
    - [controllers/adminController.js]: [createApiKey], [listApiKeys],
      [getApiKey], [updateApiKey], [deleteApiKey], [regenerateApiKey].

    Handlers are programs of a small state-and-exception monad over the
    two collections.  Every [await] on a model method is a bind; a
    rejected promise is an exception, which the enclosing [try]/[catch]
    of the handler turns into a response (or, in the quota middleware,
    into [next()]).  One handler runs at a time: the interleaving of
    concurrent requests is not modelled.  A model method that rejects
    has written nothing.  [console.log] and [console.error] are not
    modelled. *)

From Stdlib Require Import ZArith Lia Ascii String List.
From Stdlib.Strings Require Import Byte.
From stdpp Require Import base gmap strings list.

Local Open Scope string_scope.
Local Open Scope Z_scope.

(** ** JavaScript values *)

(** The values that travel through request bodies, model calls and JSON
    responses.  [undefined] is the absence of a value ([None] in an
    [option value], or a missing key of an object).  Numbers are the
    integers; a date is its epoch time in milliseconds, [VDate None]
    being the invalid date. *)
#[local] Unset Elimination Schemes.
Inductive value : Type :=
| VNull
| VBool (b : bool)
| VNum (n : Z)
| VStr (s : string)
| VDate (ms : option Z)
| VArr (items : list value)
| VObj (fields : list (string * value)).
#[local] Set Elimination Schemes.

(** ToBoolean, as applied by [!x], [x ? a : b], [x || y] and [x && y]. *)
Definition truthy (v : option value) : bool :=
  match v with
  | None => false
  | Some VNull => false
  | Some (VBool b) => b
  | Some (VNum n) => negb (n =? 0)
  | Some (VStr s) => negb (String.eqb s "")
  | Some (VDate _) => true
  | Some (VArr _) => true
  | Some (VObj _) => true
  end.

(** Truthiness of a string that may be [undefined] or [null]. *)
Definition truthy_str (s : option string) : bool :=
  match s with
  | Some s => negb (String.eqb s "")
  | None => false
  end.

(** [a || b] on strings that may be undefined. *)
Definition or_else (a b : option string) : option string :=
  if truthy_str a then a else b.

(** Object literal: a property whose value is [undefined] is dropped by
    [JSON.stringify], so it is not listed. *)
Definition prop (k : string) (v : option value) : list (string * value) :=
  match v with
  | Some v => [(k, v)]
  | None => []
  end.

(** A nullable field as a JSON value. *)
Definition nullable {A} (f : A → value) (x : option A) : value :=
  match x with
  | Some a => f a
  | None => VNull
  end.

Definition VDateOf (t : Z) : value := VDate (Some t).

(** [new Date(ms)]: a time value is at most 8.64e15 milliseconds away
    from the epoch; beyond that, as for [NaN], the date is invalid. *)
Definition maxTime : Z := 8640000000000000.

Definition new_Date (ms : option Z) : value :=
  VDate (match ms with
         | Some ms => if (- maxTime <=? ms) && (ms <=? maxTime)
                      then Some ms else None
         | None => None
         end).
Definition VStrs (l : list string) : value := VArr (VStr <$> l).

(** ** Strings *)

(** [s.replace(pat, rep)] with a string pattern: the first occurrence of
    [pat] in [s] is replaced, anywhere in the string. *)
Fixpoint replace (pat rep s : string) : string :=
  if String.prefix pat s then
    rep +:+ String.substring (String.length pat)
                             (String.length s - String.length pat)%nat s
  else
    match s with
    | EmptyString => EmptyString
    | String c s' => String c (replace pat rep s')
    end.

(** [s.slice(-n)]: the last [n] characters of [s]. *)
Definition slice_last (n : nat) (s : string) : string :=
  String.substring (String.length s - n)%nat n s.

Definition hex_digit (n : N) : ascii :=
  match n with
  | 0%N => "0" | 1%N => "1" | 2%N => "2" | 3%N => "3"
  | 4%N => "4" | 5%N => "5" | 6%N => "6" | 7%N => "7"
  | 8%N => "8" | 9%N => "9" | 10%N => "a" | 11%N => "b"
  | 12%N => "c" | 13%N => "d" | 14%N => "e" | _ => "f"
  end%char.

(** [buffer.toString('hex')] *)
Fixpoint to_hex (bs : list byte) : string :=
  match bs with
  | [] => EmptyString
  | b :: bs' =>
      String (hex_digit (N.div (Byte.to_N b) 16))
        (String (hex_digit (N.modulo (Byte.to_N b) 16)) (to_hex bs'))
  end.

(** ** What the platform provides

    Mongoose casts every value that reaches a schema path, and
    JavaScript coerces operands of arithmetic.  Both are library
    behaviour outside the repository; they are parameters, constrained
    only by what they do on values that already have the right type. *)

(** A cast either fails (CastError, [None]) or yields the value to
    store, [None] inside standing for [null]. *)
Definition Cast (A : Type) : Type := option (option A).

Class Platform : Type := {
  castString : value → Cast string;
  castNumber : value → Cast Z;
  castBoolean : value → Cast bool;
  castDate : value → Cast Z;
  castStringArray : value → Cast (list string);
  (** the [trim: true] setter of a String path *)
  trim : string → string;
  (** ToNumber, [None] being NaN *)
  toNumber : value → option Z;
  (** [{ $regex: pat, $options: 'i' }]; [None] when the server rejects
      the pattern *)
  regexI : string → option (string → bool);

  castString_str : ∀ s, castString (VStr s) = Some (Some s);
  castNumber_num : ∀ n, castNumber (VNum n) = Some (Some n);
  castBoolean_bool : ∀ b, castBoolean (VBool b) = Some (Some b);
  castDate_date : ∀ t, castDate (VDate (Some t)) = Some (Some t);
  castDate_null : castDate VNull = Some None;
  castStringArray_strs : ∀ l, castStringArray (VStrs l) = Some (Some l);
  toNumber_num : ∀ n, toNumber (VNum n) = Some n
}.

(** ** The collections *)

(** [apiKeySchema].  Every path may hold [null] in a stored document
    ([None]); paths with a schema default are never undefined on a
    loaded document, so [None] is [null] there.  The [metadata] map is
    never read or written by the gateway and is left out. *)
Module ApiKeySchema.

Record doc : Type := mkDoc {
  _id : N;
  key : option string;
  name : option string;
  clientId : option string;
  isActive : option bool;
  rateLimit : option Z;
  usageCount : option Z;
  lastUsed : option Z;
  createdAt : option Z;
  expiresAt : option Z;
  allowedIPs : option (list string);
  contactEmail : option string;
  notes : option string
}.

Definition set_key v d := mkDoc (_id d) v (name d) (clientId d) (isActive d) (rateLimit d) (usageCount d) (lastUsed d) (createdAt d) (expiresAt d) (allowedIPs d) (contactEmail d) (notes d).
Definition set_name v d := mkDoc (_id d) (key d) v (clientId d) (isActive d) (rateLimit d) (usageCount d) (lastUsed d) (createdAt d) (expiresAt d) (allowedIPs d) (contactEmail d) (notes d).
Definition set_clientId v d := mkDoc (_id d) (key d) (name d) v (isActive d) (rateLimit d) (usageCount d) (lastUsed d) (createdAt d) (expiresAt d) (allowedIPs d) (contactEmail d) (notes d).
Definition set_isActive v d := mkDoc (_id d) (key d) (name d) (clientId d) v (rateLimit d) (usageCount d) (lastUsed d) (createdAt d) (expiresAt d) (allowedIPs d) (contactEmail d) (notes d).
Definition set_rateLimit v d := mkDoc (_id d) (key d) (name d) (clientId d) (isActive d) v (usageCount d) (lastUsed d) (createdAt d) (expiresAt d) (allowedIPs d) (contactEmail d) (notes d).
Definition set_usageCount v d := mkDoc (_id d) (key d) (name d) (clientId d) (isActive d) (rateLimit d) v (lastUsed d) (createdAt d) (expiresAt d) (allowedIPs d) (contactEmail d) (notes d).
Definition set_lastUsed v d := mkDoc (_id d) (key d) (name d) (clientId d) (isActive d) (rateLimit d) (usageCount d) v (createdAt d) (expiresAt d) (allowedIPs d) (contactEmail d) (notes d).
Definition set_createdAt v d := mkDoc (_id d) (key d) (name d) (clientId d) (isActive d) (rateLimit d) (usageCount d) (lastUsed d) v (expiresAt d) (allowedIPs d) (contactEmail d) (notes d).
Definition set_expiresAt v d := mkDoc (_id d) (key d) (name d) (clientId d) (isActive d) (rateLimit d) (usageCount d) (lastUsed d) (createdAt d) v (allowedIPs d) (contactEmail d) (notes d).
Definition set_allowedIPs v d := mkDoc (_id d) (key d) (name d) (clientId d) (isActive d) (rateLimit d) (usageCount d) (lastUsed d) (createdAt d) (expiresAt d) v (contactEmail d) (notes d).
Definition set_contactEmail v d := mkDoc (_id d) (key d) (name d) (clientId d) (isActive d) (rateLimit d) (usageCount d) (lastUsed d) (createdAt d) (expiresAt d) (allowedIPs d) v (notes d).
Definition set_notes v d := mkDoc (_id d) (key d) (name d) (clientId d) (isActive d) (rateLimit d) (usageCount d) (lastUsed d) (createdAt d) (expiresAt d) (allowedIPs d) (contactEmail d) v.

(** The paths declared [required: true]; a String path fails the
    check on [null] and on the empty string. *)
Definition required_ok (s : option string) : bool := truthy_str s.

Definition validate (d : doc) : bool :=
  required_ok (key d) && required_ok (name d) && required_ok (clientId d).

End ApiKeySchema.

(** [rateLimitSchema]: one document per admitted request. *)
Module RateLimitSchema.

Record doc : Type := mkDoc {
  clientId : option string;
  endpoint : option string;
  timestamp : Z
}.

Definition validate (d : doc) : bool :=
  truthy_str (clientId d) && truthy_str (endpoint d).

(** [expires: 3600] on [timestamp] *)
Definition expires : Z := 3600.

End RateLimitSchema.

Record World : Type := mkWorld {
  apiKeys : list ApiKeySchema.doc;
  rateLimits : list RateLimitSchema.doc;
  (** the next ObjectId the driver hands out *)
  nextId : N
}.

(** ** Requests, responses and the handler monad *)

(** What [authenticateApiKey] attaches to the request. *)
Record ApiClient : Type := mkApiClient {
  client_clientId : option string;
  client_name : option string;
  client_rateLimit : option Z
}.

Record Request : Type := mkRequest {
  headers : gmap string string;
  ip : option string;
  (** [req.connection.remoteAddress] *)
  remoteAddress : option string;
  path : string;
  (** [req.params.clientId] of the routes [/keys/:clientId] *)
  params_clientId : string;
  query : gmap string string;
  body : gmap string value;
  apiClient : option ApiClient
}.

Definition set_apiClient (c : ApiClient) (req : Request) : Request :=
  mkRequest (headers req) (ip req) (remoteAddress req) (path req)
            (params_clientId req) (query req) (body req) (Some c).

(** [res.status(code).json(payload)] *)
Record Response : Type := mkResponse {
  status : Z;
  json : value
}.

(** How a middleware ends: it answers, or it calls [next()] with the
    request as it left it. *)
Inductive Flow : Type :=
| Send (res : Response)
| Next (req : Request).

Record Error : Type := mkError { message : string }.

Inductive Result (A : Type) : Type :=
| Ok (a : A)
| Throw (e : Error).
Arguments Ok {A} a.
Arguments Throw {A} e.

(** The model methods a handler awaits. *)
Inductive StoreOp : Type :=
| ApiKey_findOne
| ApiKey_find
| ApiKey_create
| ApiKey_save
| ApiKey_findOneAndUpdate
| ApiKey_findOneAndDelete
| RateLimit_countDocuments
| RateLimit_create.

#[export] Instance StoreOp_eq_dec : EqDecision StoreOp.
Proof. solve_decision. Defined.

(** What a handler reads from its surroundings while it serves one
    request: the clock, the random source and the health of the
    database connection. *)
Record Env : Type := mkEnv {
  (** [new Date()], [Date.now()]: the clock, which does not advance
      while one request is served *)
  now : Z;
  (** [crypto.randomBytes(n)] *)
  randomBytes : nat → list byte;
  (** the error with which a model method rejects, when the store
      cannot serve it *)
  fault : StoreOp → option Error
}.

Definition M (A : Type) : Type := Env → World → Result A * World.

Definition ret {A} (a : A) : M A := fun _ w => (Ok a, w).

Definition bind {A B} (m : M A) (k : A → M B) : M B :=
  fun env w =>
    match m env w with
    | (Ok a, w') => k a env w'
    | (Throw e, w') => (Throw e, w')
    end.

Definition throw {A} (e : Error) : M A := fun _ w => (Throw e, w).

(** [try { body } catch (error) { handler }] *)
Definition try_catch {A} (body : M A) (handler : Error → M A) : M A :=
  fun env w =>
    match body env w with
    | (Ok a, w') => (Ok a, w')
    | (Throw e, w') => handler e env w'
    end.

Definition ask : M Env := fun env w => (Ok env, w).
Definition get : M World := fun _ w => (Ok w, w).
Definition put (w : World) : M unit := fun _ _ => (Ok tt, w).

Notation "x <- m ;; k" := (bind m (fun x => k))
  (at level 100, m at next level, right associativity).
Notation "m ;;; k" := (bind m (fun _ => k))
  (at level 100, right associativity).

(** A model method first needs the store to answer; when it does not,
    the method rejects with the error of the environment and the
    collections stay as they were. *)
Definition reach (op : StoreOp) : M unit :=
  env <- ask ;;
  match fault env op with
  | Some e => throw e
  | None => ret tt
  end.

Definition Date_now : M Z := env <- ask ;; ret (now env).

Definition TypeError (msg : string) : Error := mkError msg.
Definition ValidationError (msg : string) : Error := mkError msg.
Definition CastError (msg : string) : Error := mkError msg.
Definition DuplicateKeyError : Error := mkError "E11000 duplicate key error".

Definition of_cast {A} (path : string) (c : Cast A) : M (option A) :=
  match c with
  | Some v => ret v
  | None => throw (CastError ("Cast failed for path " +:+ path))
  end.

(** ** The [ApiKey] model *)

Module ApiKey.
Import ApiKeySchema.

(** The unique indexes on [key] and [clientId]: would storing [d] clash
    with another document of the collection? *)
Definition clashes (d : doc) (docs : list doc) : bool :=
  existsb (fun d' => negb (_id d' =? _id d)%N &&
                     (bool_decide (key d' = key d) ||
                      bool_decide (clientId d' = clientId d))) docs.

(** Change in place the first document that the filter selects. *)
Fixpoint update_first (f : doc → bool) (change : doc → doc) (docs : list doc)
    : list doc :=
  match docs with
  | [] => []
  | d :: docs' =>
      if f d then change d :: docs' else d :: update_first f change docs'
  end.

(** [{ _id: d._id }] *)
Definition has_id_of (d : doc) (d' : doc) : bool := (_id d' =? _id d)%N.

Fixpoint remove_first (f : doc → bool) (docs : list doc) : list doc :=
  match docs with
  | [] => []
  | d :: docs' => if f d then docs' else d :: remove_first f docs'
  end.

Definition put_docs (docs : list doc) : M unit :=
  w <- get ;; put (mkWorld docs (rateLimits w) (nextId w)).

(** [.select('-key')]: the projected document has no [key]. *)
Definition select_minus_key (d : doc) : doc := set_key None d.

(** [.sort({ createdAt: -1 })]: newest first, [null] last. *)
Definition newer_or_equal (a b : doc) : bool :=
  match createdAt a, createdAt b with
  | Some x, Some y => y <=? x
  | Some _, None => true
  | None, Some _ => false
  | None, None => true
  end.

Fixpoint insert_sorted (d : doc) (docs : list doc) : list doc :=
  match docs with
  | [] => [d]
  | d' :: docs' =>
      if newer_or_equal d d' then d :: d' :: docs'
      else d' :: insert_sorted d docs'
  end.

Definition sort_createdAt_desc (docs : list doc) : list doc :=
  fold_right insert_sorted [] docs.

Definition findOne (filter : doc → bool) : M (option doc) :=
  reach ApiKey_findOne ;;;
  w <- get ;;
  ret (List.find filter (apiKeys w)).

Definition find (filter : doc → bool) : M (list doc) :=
  reach ApiKey_find ;;;
  w <- get ;;
  ret (List.filter filter (apiKeys w)).

(** [doc.save()] of a loaded document: validation, then the write,
    which the unique indexes may refuse. *)
Definition save (d : doc) : M unit :=
  if negb (validate d) then throw (ValidationError "ApiKey validation failed")
  else
    reach ApiKey_save ;;;
    w <- get ;;
    if clashes d (apiKeys w) then throw DuplicateKeyError
    else put_docs (update_first (has_id_of d) (fun _ => d) (apiKeys w)).

Definition findOneAndDelete (filter : doc → bool) : M (option doc) :=
  reach ApiKey_findOneAndDelete ;;;
  w <- get ;;
  put_docs (remove_first filter (apiKeys w)) ;;;
  ret (List.find filter (apiKeys w)).

Section Casting.
Context {platform : Platform}.

(** One schema path of a raw object: absent, the default stands;
    present, the value is cast and handed to the continuation. *)
Definition path_of {A} (p : string) (cast : value → Cast A)
    (default : option A) (raw : gmap string value) : M (option A) :=
  match raw !! p with
  | None => ret default
  | Some v => of_cast p (cast v)
  end.

(** [new ApiKey(raw)]: casts, setters and defaults of [apiKeySchema].
    Paths that the schema does not declare are dropped. *)
Definition build (id : N) (raw : gmap string value) : M doc :=
  t <- Date_now ;;
  key <- path_of "key" castString None raw ;;
  name <- path_of "name" castString None raw ;;
  clientId <- path_of "clientId" castString None raw ;;
  isActive <- path_of "isActive" castBoolean (Some true) raw ;;
  rateLimit <- path_of "rateLimit" castNumber (Some 100) raw ;;
  usageCount <- path_of "usageCount" castNumber (Some 0) raw ;;
  lastUsed <- path_of "lastUsed" castDate None raw ;;
  createdAt <- path_of "createdAt" castDate (Some t) raw ;;
  expiresAt <- path_of "expiresAt" castDate None raw ;;
  allowedIPs <- path_of "allowedIPs" castStringArray (Some []) raw ;;
  contactEmail <- path_of "contactEmail" castString None raw ;;
  notes <- path_of "notes" castString None raw ;;
  ret (mkDoc id key (trim <$> name) clientId isActive rateLimit usageCount
             lastUsed createdAt expiresAt allowedIPs contactEmail notes).

(** [ApiKey.create(raw)] *)
Definition create (raw : gmap string value) : M doc :=
  w <- get ;;
  d <- build (nextId w) raw ;;
  if negb (validate d) then throw (ValidationError "ApiKey validation failed")
  else
    reach ApiKey_create ;;;
    w <- get ;;
    if clashes d (apiKeys w) then throw DuplicateKeyError
    else
      put (mkWorld (apiKeys w ++ [d]) (rateLimits w) (N.succ (nextId w))) ;;;
      ret d.

(** One path of an update object: when present it is cast, checked by
    its update validator if validators run, and set on top of [k]. *)
Definition set_path {A} (p : string) (cast : value → Cast A)
    (check : option A → bool) (set : option A → doc → doc)
    (runValidators : bool) (update : gmap string value)
    (k : doc → doc) : M (doc → doc) :=
  match update !! p with
  | None => ret k
  | Some v =>
      x <- of_cast p (cast v) ;;
      if runValidators && negb (check x)
      then throw (ValidationError ("Validation failed for path " +:+ p))
      else ret (fun d => set x (k d))
  end.

Definition no_check {A} (x : option A) : bool := true.

Definition castName (v : value) : Cast string :=
  match castString v with
  | Some s => Some (trim <$> s)
  | None => None
  end.

(** The update object as a change of the document: an object without
    operators is a [$set] of the paths that the schema declares. *)
Definition cast_update (runValidators : bool) (update : gmap string value)
    : M (doc → doc) :=
  k <- ret (fun d : doc => d) ;;
  k <- set_path "key" castString required_ok set_key runValidators update k ;;
  k <- set_path "name" castName required_ok set_name runValidators update k ;;
  k <- set_path "clientId" castString required_ok set_clientId runValidators update k ;;
  k <- set_path "isActive" castBoolean no_check set_isActive runValidators update k ;;
  k <- set_path "rateLimit" castNumber no_check set_rateLimit runValidators update k ;;
  k <- set_path "usageCount" castNumber no_check set_usageCount runValidators update k ;;
  k <- set_path "lastUsed" castDate no_check set_lastUsed runValidators update k ;;
  k <- set_path "createdAt" castDate no_check set_createdAt runValidators update k ;;
  k <- set_path "expiresAt" castDate no_check set_expiresAt runValidators update k ;;
  k <- set_path "allowedIPs" castStringArray no_check set_allowedIPs runValidators update k ;;
  k <- set_path "contactEmail" castString no_check set_contactEmail runValidators update k ;;
  set_path "notes" castString no_check set_notes runValidators update k.

(** [ApiKey.findOneAndUpdate(filter, update, { new, runValidators })] *)
Definition findOneAndUpdate (filter : doc → bool) (update : gmap string value)
    (new runValidators : bool) : M (option doc) :=
  change <- cast_update runValidators update ;;
  reach ApiKey_findOneAndUpdate ;;;
  w <- get ;;
  match List.find filter (apiKeys w) with
  | None => ret None
  | Some d =>
      if clashes (change d) (apiKeys w) then throw DuplicateKeyError
      else
        put_docs (update_first filter change (apiKeys w)) ;;;
        ret (Some (if new then change d else d))
  end.

End Casting.
End ApiKey.

(** ** The [RateLimit] model *)

Module RateLimit.
Import RateLimitSchema.

Definition countDocuments (filter : doc → bool) : M Z :=
  reach RateLimit_countDocuments ;;;
  w <- get ;;
  ret (Z.of_nat (length (List.filter filter (rateLimits w)))).

Definition create (d : doc) : M doc :=
  if negb (validate d)
  then throw (ValidationError "RateLimit validation failed")
  else
    reach RateLimit_create ;;;
    w <- get ;;
    put (mkWorld (apiKeys w) (rateLimits w ++ [d]) (nextId w)) ;;;
    ret d.

(** The TTL index declared by [expires: 3600]: a background pass of the
    server that removes the documents whose [timestamp] lies more than
    an hour before [t]. *)
Definition ttl_pass (t : Z) (w : World) : World :=
  mkWorld (apiKeys w)
          (List.filter (fun d => t - expires * 1000 <=? timestamp d) (rateLimits w))
          (nextId w).

End RateLimit.

(** ** middleware/apiKeyAuth.js *)

Definition generateApiKey (prefix : string) : M string :=
  env <- ask ;;
  let randomBytes := to_hex (randomBytes env 32) in
  ret (prefix +:+ "_" +:+ randomBytes).

(** [x >= limit] where [limit] may be [null]: ToNumber(null) is 0. *)
Definition number_of (x : option Z) : Z := default 0 x.

Definition includes (l : list string) (x : option string) : bool :=
  match x with
  | Some x => existsb (String.eqb x) l
  | None => false
  end.

Definition authenticateApiKey (req : Request) : M Flow :=
  try_catch
    (let apiKey := or_else (headers req !! "x-api-key")
                           (replace "Bearer " "" <$> headers req !! "authorization") in
     if negb (truthy_str apiKey) then
       ret (Send (mkResponse 401 (VObj [
         ("success", VBool false);
         ("error", VStr "API key is required");
         ("code", VStr "MISSING_API_KEY")])))
     else
       keyDoc <- ApiKey.findOne (fun d => bool_decide (ApiKeySchema.key d = apiKey)) ;;
       match keyDoc with
       | None =>
           ret (Send (mkResponse 401 (VObj [
             ("success", VBool false);
             ("error", VStr "Invalid API key");
             ("code", VStr "INVALID_API_KEY")])))
       | Some keyDoc =>
           if negb (default false (ApiKeySchema.isActive keyDoc)) then
             ret (Send (mkResponse 403 (VObj [
               ("success", VBool false);
               ("error", VStr "API key is disabled");
               ("code", VStr "DISABLED_API_KEY")])))
           else
             t <- Date_now ;;
             if match ApiKeySchema.expiresAt keyDoc with
                | Some expiresAt => expiresAt <? t
                | None => false
                end
             then
               ret (Send (mkResponse 403 (VObj [
                 ("success", VBool false);
                 ("error", VStr "API key has expired");
                 ("code", VStr "EXPIRED_API_KEY")])))
             else
               if match ApiKeySchema.allowedIPs keyDoc with
                  | Some allowedIPs =>
                      (0 <? Z.of_nat (length allowedIPs)) &&
                      let clientIP := or_else (ip req) (remoteAddress req) in
                      negb (includes allowedIPs clientIP)
                  | None => false
                  end
               then
                 ret (Send (mkResponse 403 (VObj [
                   ("success", VBool false);
                   ("error", VStr "IP address not allowed");
                   ("code", VStr "IP_NOT_ALLOWED")])))
               else
                 let keyDoc :=
                   ApiKeySchema.set_usageCount
                     (Some (number_of (ApiKeySchema.usageCount keyDoc) + 1)) keyDoc in
                 t <- Date_now ;;
                 let keyDoc := ApiKeySchema.set_lastUsed (Some t) keyDoc in
                 ApiKey.save keyDoc ;;;
                 ret (Next (set_apiClient
                              (mkApiClient (ApiKeySchema.clientId keyDoc)
                                           (ApiKeySchema.name keyDoc)
                                           (ApiKeySchema.rateLimit keyDoc))
                              req))
       end)
    (fun error =>
       ret (Send (mkResponse 500 (VObj [
         ("success", VBool false);
         ("error", VStr "Authentication failed");
         ("code", VStr "AUTH_ERROR")])))).

Definition rateLimitByApiKey (req : Request) : M Flow :=
  try_catch
    (match apiClient req with
     | None =>
         throw (TypeError "Cannot read properties of undefined (reading 'clientId')")
     | Some client =>
         let clientId := client_clientId client in
         now <- Date_now ;;
         let oneHourAgo := now - 60 * 60 * 1000 in
         requestCount <- RateLimit.countDocuments (fun d =>
           bool_decide (RateLimitSchema.clientId d = clientId) &&
           (oneHourAgo <=? RateLimitSchema.timestamp d)) ;;
         if number_of (client_rateLimit client) <=? requestCount then
           ret (Send (mkResponse 429 (VObj [
             ("success", VBool false);
             ("error", VStr "Rate limit exceeded");
             ("code", VStr "RATE_LIMIT_EXCEEDED");
             ("limit", nullable VNum (client_rateLimit client));
             ("retryAfter", VNum 3600)])))
         else
           RateLimit.create
             (RateLimitSchema.mkDoc clientId (Some (path req)) now) ;;;
           ret (Next req)
     end)
    (fun error => ret (Next req)).

(** [router.use(authenticateApiKey); router.use(rateLimitByApiKey)] *)
Definition serviceGateway (req : Request) : M Flow :=
  flow <- authenticateApiKey req ;;
  match flow with
  | Send res => ret (Send res)
  | Next req => rateLimitByApiKey req
  end.

(** ** controllers/adminController.js *)

Module adminController.
Import ApiKeySchema.

Section Handlers.
Context {platform : Platform}.

(** [{ clientId }] as a query filter, for a value that is a string.
    Query operators in place of the value are not modelled: the value
    goes through the String cast of the path. *)
Definition clientId_is (v : option string) (d : doc) : bool :=
  bool_decide (clientId d = v).

Definition createApiKey (req : Request) : M Response :=
  try_catch
    (let name := body req !! "name" in
     let clientId := body req !! "clientId" in
     let rateLimit := default (VNum 100) (body req !! "rateLimit") in
     let expiresInDays := body req !! "expiresInDays" in
     let allowedIPs := default (VArr []) (body req !! "allowedIPs") in
     let contactEmail := body req !! "contactEmail" in
     let notes := body req !! "notes" in
     if negb (truthy name) || negb (truthy clientId) then
       ret (mkResponse 400 (VObj [
         ("success", VBool false);
         ("error", VStr "name and clientId are required")]))
     else
       wanted <- of_cast "clientId" (castString (default VNull clientId)) ;;
       existing <- ApiKey.findOne (clientId_is wanted) ;;
       match existing with
       | Some _ =>
           ret (mkResponse 400 (VObj [
             ("success", VBool false);
             ("error", VStr "Client ID already exists")]))
       | None =>
           key <- generateApiKey "sk" ;;
           t <- Date_now ;;
           let expiresAt :=
             if truthy expiresInDays
             then new_Date ((fun days => t + days * 24 * 60 * 60 * 1000)
                              <$> toNumber (default VNull expiresInDays))
             else VNull in
           apiKey <- ApiKey.create (list_to_map (
             [("key", VStr key)] ++
             prop "name" name ++
             prop "clientId" clientId ++
             [("rateLimit", rateLimit);
              ("expiresAt", expiresAt);
              ("allowedIPs", allowedIPs)] ++
             prop "contactEmail" contactEmail ++
             prop "notes" notes)) ;;
           ret (mkResponse 201 (VObj [
             ("success", VBool true);
             ("message", VStr "API key created successfully");
             ("data", VObj [
                ("apiKey", VStr key);
                ("clientId", nullable VStr (ApiKeySchema.clientId apiKey));
                ("name", nullable VStr (ApiKeySchema.name apiKey));
                ("rateLimit", nullable VNum (ApiKeySchema.rateLimit apiKey));
                ("expiresAt", nullable VDateOf (ApiKeySchema.expiresAt apiKey));
                ("createdAt", nullable VDateOf (ApiKeySchema.createdAt apiKey))]);
             ("warning", VStr "Save this API key securely. It will not be shown again.")]))
       end)
    (fun error =>
       ret (mkResponse 500 (VObj [
         ("success", VBool false);
         ("error", VStr "Failed to create API key");
         ("message", VStr (message error))]))).

(** [k.key.slice(-8)]: reading [slice] off a missing key is a
    TypeError. *)
Definition keyPreview (k : doc) : M value :=
  match key k with
  | Some key => ret (VStr ("••••••••" +:+ slice_last 8 key))
  | None => throw (TypeError "Cannot read properties of undefined (reading 'slice')")
  end.

(** [keys.map(f)] for a callback that may throw. *)
Fixpoint mapM {A B} (f : A → M B) (l : list A) : M (list B) :=
  match l with
  | [] => ret []
  | x :: l' => y <- f x ;; ys <- mapM f l' ;; ret (y :: ys)
  end.

Definition listApiKeys (req : Request) : M Response :=
  try_catch
    (let active := query req !! "active" in
     let search := query req !! "search" in
     let by_active : doc → bool :=
       match active with
       | Some active => fun d => bool_decide (isActive d = Some (String.eqb active "true"))
       | None => fun _ => true
       end in
     by_search <-
       (if truthy_str search then
          match regexI (default "" search) with
          | Some matches =>
              ret (fun d : doc =>
                     default false (matches <$> ApiKeySchema.name d) ||
                     default false (matches <$> ApiKeySchema.clientId d))
          | None => throw (mkError "Regular expression is invalid")
          end
        else ret (fun _ : doc => true)) ;;
     found <- ApiKey.find (fun d => by_active d && by_search d) ;;
     let keys := ApiKey.sort_createdAt_desc (ApiKey.select_minus_key <$> found) in
     data <- mapM (fun k =>
       preview <- keyPreview k ;;
       ret (VObj [
         ("id", VNum (Z.of_N (_id k)));
         ("name", nullable VStr (ApiKeySchema.name k));
         ("clientId", nullable VStr (ApiKeySchema.clientId k));
         ("isActive", nullable VBool (isActive k));
         ("rateLimit", nullable VNum (ApiKeySchema.rateLimit k));
         ("usageCount", nullable VNum (usageCount k));
         ("lastUsed", nullable VDateOf (lastUsed k));
         ("createdAt", nullable VDateOf (createdAt k));
         ("expiresAt", nullable VDateOf (ApiKeySchema.expiresAt k));
         ("contactEmail", nullable VStr (ApiKeySchema.contactEmail k));
         ("keyPreview", preview)])) keys ;;
     ret (mkResponse 200 (VObj [
       ("success", VBool true);
       ("count", VNum (Z.of_nat (length keys)));
       ("data", VArr data)])))
    (fun error =>
       ret (mkResponse 500 (VObj [
         ("success", VBool false);
         ("error", VStr "Failed to list API keys")]))).

Definition getApiKey (req : Request) : M Response :=
  try_catch
    (let clientId := params_clientId req in
     found <- ApiKey.findOne (clientId_is (Some clientId)) ;;
     match ApiKey.select_minus_key <$> found with
     | None =>
         ret (mkResponse 404 (VObj [
           ("success", VBool false);
           ("error", VStr "API key not found")]))
     | Some apiKey =>
         preview <- keyPreview apiKey ;;
         ret (mkResponse 200 (VObj [
           ("success", VBool true);
           ("data", VObj [
              ("id", VNum (Z.of_N (_id apiKey)));
              ("name", nullable VStr (ApiKeySchema.name apiKey));
              ("clientId", nullable VStr (ApiKeySchema.clientId apiKey));
              ("isActive", nullable VBool (isActive apiKey));
              ("rateLimit", nullable VNum (ApiKeySchema.rateLimit apiKey));
              ("usageCount", nullable VNum (usageCount apiKey));
              ("lastUsed", nullable VDateOf (lastUsed apiKey));
              ("createdAt", nullable VDateOf (createdAt apiKey));
              ("expiresAt", nullable VDateOf (ApiKeySchema.expiresAt apiKey));
              ("allowedIPs", nullable VStrs (ApiKeySchema.allowedIPs apiKey));
              ("contactEmail", nullable VStr (ApiKeySchema.contactEmail apiKey));
              ("notes", nullable VStr (ApiKeySchema.notes apiKey));
              ("keyPreview", preview)])]))
     end)
    (fun error =>
       ret (mkResponse 500 (VObj [
         ("success", VBool false);
         ("error", VStr "Failed to fetch API key")]))).

Definition allowedUpdates : list string :=
  ["name"; "isActive"; "rateLimit"; "expiresAt"; "allowedIPs"; "contactEmail"; "notes"].

(** The loop over [allowedUpdates] that fills [updates]. *)
Definition collect_updates (body : gmap string value) : gmap string value :=
  fold_left (fun updates field =>
               match body !! field with
               | Some v => <[field := v]> updates
               | None => updates
               end) allowedUpdates ∅.

(** A document as it is serialised into a response; a projected-out
    [key] is absent. *)
Definition toJSON (d : doc) : value :=
  VObj ([("_id", VNum (Z.of_N (_id d)))] ++
        prop "key" (VStr <$> key d) ++
        [("name", nullable VStr (ApiKeySchema.name d));
         ("clientId", nullable VStr (ApiKeySchema.clientId d));
         ("isActive", nullable VBool (isActive d));
         ("rateLimit", nullable VNum (ApiKeySchema.rateLimit d));
         ("usageCount", nullable VNum (usageCount d));
         ("lastUsed", nullable VDateOf (lastUsed d));
         ("createdAt", nullable VDateOf (createdAt d));
         ("expiresAt", nullable VDateOf (ApiKeySchema.expiresAt d));
         ("allowedIPs", nullable VStrs (ApiKeySchema.allowedIPs d));
         ("contactEmail", nullable VStr (ApiKeySchema.contactEmail d));
         ("notes", nullable VStr (ApiKeySchema.notes d))]).

Definition updateApiKey (req : Request) : M Response :=
  try_catch
    (let clientId := params_clientId req in
     let updates := collect_updates (body req) in
     updated <- ApiKey.findOneAndUpdate (clientId_is (Some clientId)) updates true true ;;
     match ApiKey.select_minus_key <$> updated with
     | None =>
         ret (mkResponse 404 (VObj [
           ("success", VBool false);
           ("error", VStr "API key not found")]))
     | Some apiKey =>
         ret (mkResponse 200 (VObj [
           ("success", VBool true);
           ("message", VStr "API key updated successfully");
           ("data", toJSON apiKey)]))
     end)
    (fun error =>
       ret (mkResponse 500 (VObj [
         ("success", VBool false);
         ("error", VStr "Failed to update API key")]))).

Definition deleteApiKey (req : Request) : M Response :=
  try_catch
    (let clientId := params_clientId req in
     let hardDelete := query req !! "hardDelete" in
     (if bool_decide (hardDelete = Some "true") then
        ApiKey.findOneAndDelete (clientId_is (Some clientId))
      else
        ApiKey.findOneAndUpdate (clientId_is (Some clientId))
          {[ "isActive" := VBool false ]} false false) ;;;
     ret (mkResponse 200 (VObj [
       ("success", VBool true);
       ("message", VStr (if bool_decide (hardDelete = Some "true")
                         then "API key deleted permanently"
                         else "API key deactivated"))])))
    (fun error =>
       ret (mkResponse 500 (VObj [
         ("success", VBool false);
         ("error", VStr "Failed to delete API key")]))).

End Handlers.

Definition regenerateApiKey (req : Request) : M Response :=
  try_catch
    (let clientId := params_clientId req in
     found <- ApiKey.findOne (fun d => bool_decide (ApiKeySchema.clientId d = Some clientId)) ;;
     match found with
     | None =>
         ret (mkResponse 404 (VObj [
           ("success", VBool false);
           ("error", VStr "API key not found")]))
     | Some apiKey =>
         newKey <- generateApiKey "sk" ;;
         let apiKey := set_key (Some newKey) apiKey in
         let apiKey := set_usageCount (Some 0) apiKey in
         let apiKey := set_lastUsed None apiKey in
         ApiKey.save apiKey ;;;
         ret (mkResponse 200 (VObj [
           ("success", VBool true);
           ("message", VStr "API key regenerated successfully");
           ("data", VObj [
              ("apiKey", VStr newKey);
              ("clientId", nullable VStr (ApiKeySchema.clientId apiKey));
              ("name", nullable VStr (ApiKeySchema.name apiKey))]);
           ("warning", VStr "Save this API key securely. The old key is now invalid.")]))
     end)
    (fun error =>
       ret (mkResponse 500 (VObj [
         ("success", VBool false);
         ("error", VStr "Failed to regenerate API key")]))).

End adminController.

(** ** A reference platform

    Casts that accept exactly the values of the path's own type (and
    [null]); used to run the handlers on concrete requests. *)

Definition strict_castString (v : value) : Cast string :=
  match v with
  | VStr s => Some (Some s)
  | VNull => Some None
  | _ => None
  end.

Definition strict_castNumber (v : value) : Cast Z :=
  match v with
  | VNum n => Some (Some n)
  | VNull => Some None
  | _ => None
  end.

Definition strict_castBoolean (v : value) : Cast bool :=
  match v with
  | VBool b => Some (Some b)
  | VNull => Some None
  | _ => None
  end.

Definition strict_castDate (v : value) : Cast Z :=
  match v with
  | VDate (Some t) => Some (Some t)
  | VNull => Some None
  | _ => None
  end.

Fixpoint strings_of (items : list value) : option (list string) :=
  match items with
  | [] => Some []
  | VStr s :: items' => cons s <$> strings_of items'
  | _ :: _ => None
  end.

Definition strict_castStringArray (v : value) : Cast (list string) :=
  match v with
  | VArr items => Some <$> strings_of items
  | VNull => Some None
  | _ => None
  end.

Definition strict_toNumber (v : value) : option Z :=
  match v with
  | VNum n => Some n
  | VBool b => Some (if b then 1 else 0)
  | VNull => Some 0
  | _ => None
  end.

Definition strict_platform : Platform.
Proof.
  refine {| castString := strict_castString;
            castNumber := strict_castNumber;
            castBoolean := strict_castBoolean;
            castDate := strict_castDate;
            castStringArray := strict_castStringArray;
            trim := fun s => s;
            toNumber := strict_toNumber;
            regexI := fun pat => Some (String.eqb pat) |}; try reflexivity.
  intros l. unfold strict_castStringArray, VStrs.
  assert (Hl : strings_of (VStr <$> l) = Some l).
  { induction l as [|s l IH]; [reflexivity|].
    change (cons s <$> strings_of (VStr <$> l) = Some (s :: l)).
    now rewrite IH. }
  now rewrite Hl.
Defined.

(** ** routes/serviceRoutes.js

    The router of the service API.  Its first two layers are the two
    middlewares, mounted with [router.use] and so in front of every
    route that follows, [GET /health] included.  The routes themselves,
    and the controller behind them, are [routes]. *)
Definition serviceRoutes (routes : Request → M Response) (req : Request)
    : M Response :=
  flow <- authenticateApiKey req ;;
  match flow with
  | Send res => ret res
  | Next req =>
      flow <- rateLimitByApiKey req ;;
      match flow with
      | Send res => ret res
      | Next req => routes req
      end
  end.

(** The health route of that router.  [new Date().toISOString()] is
    the rendering that JSON gives a date, so the timestamp is the date
    value. *)
Definition health (req : Request) : M Response :=
  t <- Date_now ;;
  ret (mkResponse 200 (VObj [
    ("success", VBool true);
    ("status", VStr "operational");
    ("timestamp", VDateOf t);
    ("version", VStr "1.0.0")])).

(** ** The TTL index of [rateLimitSchema]

    [expires: 3600] makes the server delete, in the background and
    with some delay, events whose [timestamp] is 3600 seconds old or
    older.  One pass at time [t] removes those of the expired events
    that it gets to, [reached] saying which. *)
Definition expired_event (t : Z) (d : RateLimitSchema.doc) : bool :=
  RateLimitSchema.timestamp d + RateLimitSchema.expires * 1000 <=? t.

Definition ttl_sweep (reached : RateLimitSchema.doc → bool) (t : Z) (w : World)
    : World :=
  mkWorld (apiKeys w)
          (List.filter (fun d => negb (reached d && expired_event t d))
                       (rateLimits w))
          (nextId w).

(** ** controllers/serviceController.js: merging lists of tags *)

(** [new Set(l)] spread into an array: the values of [l] in the order
    of their first occurrence.  The values are strings, which a [Set]
    compares by content. *)
Definition Set_add (acc : list string) (x : string) : list string :=
  if bool_decide (x ∈ acc) then acc else acc ++ [x].

Definition Set_of (l : list string) : list string := fold_left Set_add l [].

(** [arrays.flat()]: an argument that is an array contributes its
    elements, an argument that is [undefined] stays as one element. *)
Definition flat (arrays : list (option (list string))) : list (option string) :=
  concat ((fun a => match a with
                    | Some a => Some <$> a
                    | None => [None]
                    end) <$> arrays).

(** [mergeArrays(...arrays)] on arrays of strings. *)
Definition mergeArrays (arrays : list (option (list string))) : list string :=
  let merged := List.filter truthy_str (flat arrays) in
  Set_of (omap id merged).

(** ** controllers/adminController.js: [getStats] *)

(** What [getStats] awaits besides [ApiKey.find]: [countDocuments] on
    the [ApiKey] collection, which rejects with an error when the
    collection cannot serve it, and the two counts of the [User] model,
    whose collection is outside of this development, the second one
    for the profiles created since a date. *)
Record StatsSource : Type := mkStatsSource {
  ApiKey_countDocuments : option Error;
  User_countDocuments : Result Z;
  User_countDocuments_since : Z → Result Z
}.

Definition await {A} (r : Result A) : M A := fun _ w => (r, w).

Definition countApiKeys (src : StatsSource) (filter : ApiKeySchema.doc → bool)
    : M Z :=
  match ApiKey_countDocuments src with
  | Some e => throw e
  | None =>
      w <- get ;;
      ret (Z.of_nat (length (List.filter filter (apiKeys w))))
  end.

(** [.sort({ usageCount: -1 })]: most used first, [null] last. *)
Definition more_used (a b : ApiKeySchema.doc) : bool :=
  match ApiKeySchema.usageCount a, ApiKeySchema.usageCount b with
  | Some x, Some y => y <=? x
  | Some _, None => true
  | None, Some _ => false
  | None, None => true
  end.

Fixpoint insert_ranked (d : ApiKeySchema.doc) (docs : list ApiKeySchema.doc)
    : list ApiKeySchema.doc :=
  match docs with
  | [] => [d]
  | d' :: docs' =>
      if more_used d d' then d :: d' :: docs'
      else d' :: insert_ranked d docs'
  end.

Definition sort_usageCount_desc (docs : list ApiKeySchema.doc)
    : list ApiKeySchema.doc :=
  fold_right insert_ranked [] docs.

(** The four counts are awaited together: they only read, and the
    handler answers 500 whichever of them rejects, so that the order
    in which they settle plays no part. *)
Definition getStats (src : StatsSource) (req : Request) : M Response :=
  try_catch
    (t <- Date_now ;;
     totalKeys <- countApiKeys src (fun _ => true) ;;
     activeKeys <- countApiKeys src
       (fun d => bool_decide (ApiKeySchema.isActive d = Some true)) ;;
     totalProfiles <- await (User_countDocuments src) ;;
     profilesLast30Days <-
       await (User_countDocuments_since src (t - 30 * 24 * 60 * 60 * 1000)) ;;
     found <- ApiKey.find
       (fun d => bool_decide (ApiKeySchema.isActive d = Some true)) ;;
     let topClients :=
       ApiKey.select_minus_key <$> take 10 (sort_usageCount_desc found) in
     ret (mkResponse 200 (VObj [
       ("success", VBool true);
       ("data", VObj [
          ("apiKeys", VObj [
             ("total", VNum totalKeys);
             ("active", VNum activeKeys);
             ("inactive", VNum (totalKeys - activeKeys))]);
          ("profiles", VObj [
             ("total", VNum totalProfiles);
             ("last30Days", VNum profilesLast30Days)]);
          ("topClients", VArr ((fun c => VObj [
             ("name", nullable VStr (ApiKeySchema.name c));
             ("clientId", nullable VStr (ApiKeySchema.clientId c));
             ("usageCount", nullable VNum (ApiKeySchema.usageCount c));
             ("lastUsed", nullable VDateOf (ApiKeySchema.lastUsed c))])
            <$> topClients))])])))
    (fun error =>
       ret (mkResponse 500 (VObj [
         ("success", VBool false);
         ("error", VStr "Failed to fetch statistics")]))).

(** ** Vocabulary of the statements *)

(** The fixed shape of a failure body, [{success: false, error, code}]. *)
Definition failure (code : Z) (error tag : string) : Response :=
  mkResponse code (VObj [
    ("success", VBool false);
    ("error", VStr error);
    ("code", VStr tag)]).

(** One hour, in the milliseconds of a date. *)
Definition hour : Z := 3600 * 1000.

(** The usage events of client [c] in the hour that ends at [t]. *)
Definition in_window (c : option string) (t : Z) (d : RateLimitSchema.doc) : bool :=
  bool_decide (RateLimitSchema.clientId d = c) &&
  (t - hour <=? RateLimitSchema.timestamp d).

Definition window_count (c : option string) (t : Z)
    (events : list RateLimitSchema.doc) : Z :=
  Z.of_nat (length (List.filter (in_window c t) events)).

(** The usage event of a request admitted at [t]. *)
Definition usage_event (c : string) (endpoint : string) (t : Z)
    : RateLimitSchema.doc :=
  RateLimitSchema.mkDoc (Some c) (Some endpoint) t.

Definition log_event (ev : RateLimitSchema.doc) (w : World) : World :=
  mkWorld (apiKeys w) (rateLimits w ++ [ev]) (nextId w).

(** The answer of the quota step to a client over its limit. *)
Definition rate_limit_exceeded (limit : option Z) : Response :=
  mkResponse 429 (VObj [
    ("success", VBool false);
    ("error", VStr "Rate limit exceeded");
    ("code", VStr "RATE_LIMIT_EXCEEDED");
    ("limit", nullable VNum limit);
    ("retryAfter", VNum 3600)]).

(** The ledger serves both of its operations. *)
Definition ledger_up (env : Env) : Prop :=
  fault env RateLimit_countDocuments = None ∧
  fault env RateLimit_create = None.

(** The secret that a request presents, [X-API-Key] first. *)
Definition presented (req : Request) : option string :=
  or_else (headers req !! "x-api-key")
          (replace "Bearer " "" <$> headers req !! "authorization").

(** What [CredentialStore.lookup] finds for a secret. *)
Definition lookup_key (apiKey : option string) (w : World)
    : option ApiKeySchema.doc :=
  List.find (fun d => bool_decide (ApiKeySchema.key d = apiKey)) (apiKeys w).

Definition lookup_clientId (c : string) (w : World) : option ApiKeySchema.doc :=
  List.find (fun d => bool_decide (ApiKeySchema.clientId d = Some c)) (apiKeys w).

(** The failures of the authentication gate, and the standing checks in
    the order in which the specification lists them. *)
Inductive AuthFailure : Type :=
| MissingKey | InvalidKey | DisabledKey | ExpiredKey | IPNotAllowed.

Definition auth_response (f : AuthFailure) : Response :=
  match f with
  | MissingKey => failure 401 "API key is required" "MISSING_API_KEY"
  | InvalidKey => failure 401 "Invalid API key" "INVALID_API_KEY"
  | DisabledKey => failure 403 "API key is disabled" "DISABLED_API_KEY"
  | ExpiredKey => failure 403 "API key has expired" "EXPIRED_API_KEY"
  | IPNotAllowed => failure 403 "IP address not allowed" "IP_NOT_ALLOWED"
  end.

Definition is_disabled (d : ApiKeySchema.doc) : bool :=
  negb (bool_decide (ApiKeySchema.isActive d = Some true)).

Definition is_expired (t : Z) (d : ApiKeySchema.doc) : bool :=
  match ApiKeySchema.expiresAt d with
  | Some e => e <? t
  | None => false
  end.

Definition ip_refused (req : Request) (d : ApiKeySchema.doc) : bool :=
  match ApiKeySchema.allowedIPs d with
  | Some (a :: l) => negb (includes (a :: l) (or_else (ip req) (remoteAddress req)))
  | _ => false
  end.

Definition standing_checks (req : Request) (t : Z) (w : World)
    : list (bool * AuthFailure) :=
  let found := lookup_key (presented req) w in
  [ (negb (truthy_str (presented req)), MissingKey);
    (bool_decide (found = None), InvalidKey);
    (default false (is_disabled <$> found), DisabledKey);
    (default false (is_expired t <$> found), ExpiredKey);
    (default false (ip_refused req <$> found), IPNotAllowed) ].

(** The first check of the list that fails. *)
Definition first_failure (req : Request) (t : Z) (w : World) : option AuthFailure :=
  snd <$> List.find fst (standing_checks req t w).

(** The unique indexes of the [ApiKey] collection hold of a stored
    collection: no two documents share an [_id], a [key] or a
    [clientId]. *)
Definition indexes_hold (docs : list ApiKeySchema.doc) : bool :=
  bool_decide (NoDup (ApiKeySchema._id <$> docs)) &&
  forallb (fun d => negb (ApiKey.clashes d docs)) docs.

(** The record as the gate writes it back. *)
Definition touched (t : Z) (d : ApiKeySchema.doc) : ApiKeySchema.doc :=
  ApiKeySchema.set_lastUsed (Some t)
    (ApiKeySchema.set_usageCount
       (Some (number_of (ApiKeySchema.usageCount d) + 1)) d).

Definition identity_of (d : ApiKeySchema.doc) : ApiClient :=
  mkApiClient (ApiKeySchema.clientId d) (ApiKeySchema.name d)
              (ApiKeySchema.rateLimit d).

(** Can [save] persist [d] into the store? *)
Definition persists (env : Env) (w : World) (d : ApiKeySchema.doc) : bool :=
  ApiKeySchema.validate d && bool_decide (fault env ApiKey_save = None) &&
  negb (ApiKey.clashes d (apiKeys w)).

Definition stored (d : ApiKeySchema.doc) (w : World) : World :=
  mkWorld (ApiKey.update_first (ApiKey.has_id_of d) (fun _ => d) (apiKeys w))
          (rateLimits w) (nextId w).

(** The unique indexes, document by document: every document differs
    from all later ones in [_id], [key] and [clientId]. *)
Fixpoint distinct (docs : list ApiKeySchema.doc) : Prop :=
  match docs with
  | [] => True
  | d :: rest =>
      Forall (fun d' => ApiKeySchema._id d' ≠ ApiKeySchema._id d ∧
                        ApiKeySchema.key d' ≠ ApiKeySchema.key d ∧
                        ApiKeySchema.clientId d' ≠ ApiKeySchema.clientId d) rest
      ∧ distinct rest
  end.

(** The answers of [deleteApiKey]. *)
Definition revoked (hard : bool) : Response :=
  mkResponse 200 (VObj [
    ("success", VBool true);
    ("message", VStr (if hard then "API key deleted permanently"
                      else "API key deactivated"))]).

(** The two answers that [listApiKeys] can give. *)
Definition listing_failed : Response :=
  mkResponse 500 (VObj [
    ("success", VBool false);
    ("error", VStr "Failed to list API keys")]).

Definition empty_listing : Response :=
  mkResponse 200 (VObj [
    ("success", VBool true);
    ("count", VNum 0);
    ("data", VArr [])]).

(** The secret that [generateApiKey] draws in an environment. *)
Definition generated (prefix : string) (env : Env) : string :=
  prefix +:+ "_" +:+ to_hex (randomBytes env 32).

(** The record as [regenerateApiKey] rewrites it. *)
Definition rotated (newKey : string) (d : ApiKeySchema.doc) : ApiKeySchema.doc :=
  ApiKeySchema.set_lastUsed None
    (ApiKeySchema.set_usageCount (Some 0)
       (ApiKeySchema.set_key (Some newKey) d)).

(** What an update may not touch: the identity of a record, its secret
    and its bookkeeping. *)
Definition same_protected_fields (d d' : ApiKeySchema.doc) : Prop :=
  ApiKeySchema._id d' = ApiKeySchema._id d ∧
  ApiKeySchema.key d' = ApiKeySchema.key d ∧
  ApiKeySchema.clientId d' = ApiKeySchema.clientId d ∧
  ApiKeySchema.usageCount d' = ApiKeySchema.usageCount d ∧
  ApiKeySchema.lastUsed d' = ApiKeySchema.lastUsed d ∧
  ApiKeySchema.createdAt d' = ApiKeySchema.createdAt d.

(** The request [req] with another body. *)
Definition with_body (b : gmap string value) (req : Request) : Request :=
  mkRequest (headers req) (ip req) (remoteAddress req) (path req)
            (params_clientId req) (query req) b (apiClient req).

(** What one path of a raw object yields, the store playing no part. *)
Definition path_value {A} (p : string) (cast : value → Cast A)
    (default : option A) (raw : gmap string value) : Result (option A) :=
  match raw !! p with
  | None => Ok default
  | Some v =>
      match cast v with
      | Some x => Ok x
      | None => Throw (CastError ("Cast failed for path " +:+ p))
      end
  end.

(** What one path of an update object contributes, the store playing
    no part in it. *)
Definition path_change {A} (p : string) (cast : value → Cast A)
    (check : option A → bool)
    (set : option A → ApiKeySchema.doc → ApiKeySchema.doc)
    (runValidators : bool) (update : gmap string value)
    (k : ApiKeySchema.doc → ApiKeySchema.doc)
    : Result (ApiKeySchema.doc → ApiKeySchema.doc) :=
  match update !! p with
  | None => Ok k
  | Some v =>
      match cast v with
      | None => Throw (CastError ("Cast failed for path " +:+ p))
      | Some x =>
          if runValidators && negb (check x)
          then Throw (ValidationError ("Validation failed for path " +:+ p))
          else Ok (fun d => set x (k d))
      end
  end.

(** The invariant of the store: the unique indexes hold, and every
    stored [_id] has been handed out already. *)
Definition well_formed (w : World) : Prop :=
  distinct (apiKeys w) ∧
  Forall (fun d => (ApiKeySchema._id d < nextId w)%N) (apiKeys w).

(** [d'] shares no indexed value with [d]. *)
Definition differs (d d' : ApiKeySchema.doc) : Prop :=
  ApiKeySchema._id d' ≠ ApiKeySchema._id d ∧
  ApiKeySchema.key d' ≠ ApiKeySchema.key d ∧
  ApiKeySchema.clientId d' ≠ ApiKeySchema.clientId d.

(** Reading a hex rendering back, to say that it loses nothing. *)
Definition hex_value (c : ascii) : option N :=
  let n := N_of_ascii c in
  if (48 <=? n)%N && (n <=? 57)%N then Some (n - 48)%N
  else if (97 <=? n)%N && (n <=? 102)%N then Some (n - 87)%N
  else None.

Definition byte_of_hex (hi lo : ascii) : option byte :=
  match hex_value hi, hex_value lo with
  | Some h, Some l => Byte.of_N (16 * h + l)
  | _, _ => None
  end.

Fixpoint from_hex (s : string) : option (list byte) :=
  match s with
  | EmptyString => Some []
  | String hi (String lo s') =>
      match byte_of_hex hi lo, from_hex s' with
      | Some b, Some bs => Some (b :: bs)
      | _, _ => None
      end
  | String _ EmptyString => None
  end.

(** What a middleware decided, leaving aside the request that it hands
    on: its answer, or the identity that it attached. *)
Definition verdict (r : Result Flow) : Result (Response + option ApiClient) :=
  match r with
  | Ok (Send res) => Ok (inl res)
  | Ok (Next req) => Ok (inr (apiClient req))
  | Throw e => Throw e
  end.

(** The address that the gate compares with [allowedIPs]. *)
Definition address (req : Request) : option string :=
  or_else (ip req) (remoteAddress req).

(** The quota step run over a sequence of requests, each with the
    environment in which it is served. *)
Fixpoint serve (trace : list (Request * Env)) (w : World) : World :=
  match trace with
  | [] => w
  | (req, env) :: trace' => serve trace' (snd (rateLimitByApiKey req env w))
  end.

(** The clocks of a trace never run backwards, starting from [t]. *)
Fixpoint clock_advances (t : Z) (trace : list (Request * Env)) : Prop :=
  match trace with
  | [] => True
  | (_, env) :: trace' => t ≤ now env ∧ clock_advances (now env) trace'
  end.

(** The clock at the end of a trace that starts at [t]. *)
Fixpoint last_clock (t : Z) (trace : list (Request * Env)) : Z :=
  match trace with
  | [] => t
  | (_, env) :: trace' => last_clock (now env) trace'
  end.

(** The events of one client. *)
Definition events_of (c : option string) (events : list RateLimitSchema.doc)
    : list RateLimitSchema.doc :=
  List.filter (fun d => bool_decide (RateLimitSchema.clientId d = c)) events.

(** The record that [createApiKey] stores for a body that gives [name]
    and [clientId], and possibly [rateLimit] and [expiresInDays] as
    numbers: the defaults of the schema fill the rest. *)
Definition issued {platform : Platform} (id : N) (k n c : string)
    (limit days : option Z) (t : Z) : ApiKeySchema.doc :=
  ApiKeySchema.mkDoc id (Some k) (Some (trim n)) (Some c) (Some true)
    (Some (default 100 limit)) (Some 0) None (Some t)
    (match days with
     | Some n => if n =? 0 then None else Some (t + n * 24 * 60 * 60 * 1000)
     | None => None
     end)
    (Some []) None None.

(** The answer to the creation of [d] with the secret [k]. *)
Definition created (k : string) (d : ApiKeySchema.doc) : Response :=
  mkResponse 201 (VObj [
    ("success", VBool true);
    ("message", VStr "API key created successfully");
    ("data", VObj [
       ("apiKey", VStr k);
       ("clientId", nullable VStr (ApiKeySchema.clientId d));
       ("name", nullable VStr (ApiKeySchema.name d));
       ("rateLimit", nullable VNum (ApiKeySchema.rateLimit d));
       ("expiresAt", nullable VDateOf (ApiKeySchema.expiresAt d));
       ("createdAt", nullable VDateOf (ApiKeySchema.createdAt d))]);
    ("warning", VStr "Save this API key securely. It will not be shown again.")]).

Definition appended (d : ApiKeySchema.doc) (w : World) : World :=
  mkWorld (apiKeys w ++ [d]) (rateLimits w) (N.succ (nextId w)).

(** What every stored record is expected to look like: a secret of the
    issued form, the required paths filled, and a usage counter that is
    a number and not negative. *)
Definition sound_record (d : ApiKeySchema.doc) : Prop :=
  (∃ bs, ApiKeySchema.key d = Some ("sk_" +:+ to_hex bs)) ∧
  ApiKeySchema.validate d = true ∧
  (∃ n, ApiKeySchema.usageCount d = Some n ∧ 0 ≤ n).

Definition sound (w : World) : Prop :=
  well_formed w ∧ Forall sound_record (apiKeys w).

(** The entry points that write to the store, and the store that one
    call leaves behind. *)
Inductive Endpoint : Type :=
| Service | CreateKey | ListKeys | GetKey | UpdateKey | DeleteKey | RegenerateKey.

Definition after {platform : Platform} (e : Endpoint) (req : Request)
    (env : Env) (w : World) : World :=
  match e with
  | Service => snd (serviceGateway req env w)
  | CreateKey => snd (adminController.createApiKey req env w)
  | ListKeys => snd (adminController.listApiKeys req env w)
  | GetKey => snd (adminController.getApiKey req env w)
  | UpdateKey => snd (adminController.updateApiKey req env w)
  | DeleteKey => snd (adminController.deleteApiKey req env w)
  | RegenerateKey => snd (adminController.regenerateApiKey req env w)
  end.

(** The store after a sequence of calls, served one at a time. *)
Fixpoint history {platform : Platform}
    (calls : list (Endpoint * Request * Env)) (w : World) : World :=
  match calls with
  | [] => w
  | (e, req, env) :: calls' => history calls' (after e req env w)
  end.

(** The active records and the rest, as [getStats] counts them. *)
Definition active (d : ApiKeySchema.doc) : bool :=
  bool_decide (ApiKeySchema.isActive d = Some true).

(** The active records by falling usage, and the entry of one of them
    in the statistics. *)
Definition ranking (w : World) : list ApiKeySchema.doc :=
  sort_usageCount_desc (List.filter active (apiKeys w)).

Definition client_entry (c : ApiKeySchema.doc) : value :=
  VObj [("name", nullable VStr (ApiKeySchema.name c));
        ("clientId", nullable VStr (ApiKeySchema.clientId c));
        ("usageCount", nullable VNum (ApiKeySchema.usageCount c));
        ("lastUsed", nullable VDateOf (ApiKeySchema.lastUsed c))].

Definition statistics (total active inactive profiles recent : Z)
    (top : list value) : Response :=
  mkResponse 200 (VObj [
    ("success", VBool true);
    ("data", VObj [
       ("apiKeys", VObj [("total", VNum total); ("active", VNum active);
                         ("inactive", VNum inactive)]);
       ("profiles", VObj [("total", VNum profiles);
                          ("last30Days", VNum recent)]);
       ("topClients", VArr top)])]).

(** Every document stands before all that it precedes. *)
Fixpoint ranked (docs : list ApiKeySchema.doc) : Prop :=
  match docs with
  | [] => True
  | d :: rest => Forall (fun d' => more_used d d' = true) rest ∧ ranked rest
  end.

(** What the gate decides for a request that presents the secret of the
    stored record [d]. *)
Definition standing (req : Request) (env : Env) (d : ApiKeySchema.doc)
    : Result (Response + option ApiClient) :=
  if is_disabled d then Ok (inl (auth_response DisabledKey))
  else if is_expired (now env) d then Ok (inl (auth_response ExpiredKey))
  else if ip_refused req d then Ok (inl (auth_response IPNotAllowed))
  else if ApiKeySchema.validate d && bool_decide (fault env ApiKey_save = None)
       then Ok (inr (Some (identity_of d)))
  else Ok (inl (failure 500 "Authentication failed" "AUTH_ERROR")).

(** The answer of [updateApiKey] with the record as it is after the
    update. *)
Definition updated (d : ApiKeySchema.doc) : Response :=
  mkResponse 200 (VObj [
    ("success", VBool true);
    ("message", VStr "API key updated successfully");
    ("data", adminController.toJSON (ApiKey.select_minus_key d))]).

(** The identity [id] with another hourly limit. *)
Definition with_limit (r : option Z) (id : ApiClient) : ApiClient :=
  mkApiClient (client_clientId id) (client_name id) r.

(** The answer for a client that the store does not know. *)
Definition not_found : Response :=
  mkResponse 404 (VObj [
    ("success", VBool false);
    ("error", VStr "API key not found")]).

(** ** Sample data *)

Definition quiet : StoreOp → option Error := fun _ => None.

(** A healthy environment whose clock reads [t]. *)
Definition at_time (t : Z) : Env := mkEnv t (fun n => repeat x2a n) quiet.

Definition no_records : World := mkWorld [] [] 0.

Definition acme : ApiClient := mkApiClient (Some "acme_1") (Some "Acme") (Some 2).

Definition profiles_request : Request :=
  mkRequest ∅ None None "/profiles" "" ∅ ∅ (Some acme).

Definition acme_key : string :=
  "sk_2a2a2a2a2a2a2a2a2a2a2a2a2a2a2a2a2a2a2a2a2a2a2a2a2a2a2a2a2a2a2a2a".

(** The record of [acme_1], created at time 0. *)
Definition acme_record : ApiKeySchema.doc :=
  ApiKeySchema.mkDoc 0 (Some acme_key) (Some "Acme") (Some "acme_1")
    (Some true) (Some 2) (Some 0) None (Some 0) None (Some []) None None.

Definition one_record : World := mkWorld [acme_record] [] 1.

(** The same record disabled, expired at time 5 and restricted to one
    address. *)
Definition lapsed_record : ApiKeySchema.doc :=
  ApiKeySchema.mkDoc 0 (Some acme_key) (Some "Acme") (Some "acme_1")
    (Some false) (Some 2) (Some 0) None (Some 0) (Some 5)
    (Some ["1.2.3.4"]) None None.

Definition lapsed_world : World := mkWorld [lapsed_record] [] 1.

(** A request from 9.9.9.9 that presents [k] in [X-API-Key]. *)
Definition keyed_request (k : string) : Request :=
  mkRequest {[ "x-api-key" := k ]} (Some "9.9.9.9") None "/profiles" "" ∅ ∅ None.

(** An environment in which only [op] fails. *)
Definition failing (op : StoreOp) (t : Z) : Env :=
  mkEnv t (fun n => repeat x2a n)
        (fun op' => if bool_decide (op' = op)
                    then Some (mkError "connection lost") else None).

(** [DELETE /api/admin/keys/:clientId], with or without
    [?hardDelete=true]. *)
Definition revoke_request (c : string) (hard : bool) : Request :=
  mkRequest ∅ None None ("/keys/" +:+ c) c
            (if hard then {[ "hardDelete" := "true" ]} else ∅) ∅ None.

(** [GET /api/admin/keys] *)
Definition list_request : Request :=
  mkRequest ∅ None None "/keys" "" ∅ ∅ None.

(** A healthy environment whose random source differs from the one that
    produced [acme_key]. *)
Definition rolling (t : Z) : Env := mkEnv t (fun n => repeat x2b n) quiet.

(** [POST /api/admin/keys/:clientId/regenerate] *)
Definition regenerate_request (c : string) : Request :=
  mkRequest ∅ None None ("/keys/" +:+ c +:+ "/regenerate") c ∅ ∅ None.

(** [POST /api/admin/keys] for client [acme_1] with an hourly limit. *)
Definition create_request (limit : Z) : Request :=
  mkRequest ∅ None None "/keys" "" ∅
            {[ "name" := VStr "Acme"; "clientId" := VStr "acme_1";
               "rateLimit" := VNum limit ]} None.

(** The answer to the creation of [acme_record]. *)
Definition acme_created : Response :=
  mkResponse 201 (VObj [
    ("success", VBool true);
    ("message", VStr "API key created successfully");
    ("data", VObj [
       ("apiKey", VStr acme_key);
       ("clientId", VStr "acme_1");
       ("name", VStr "Acme");
       ("rateLimit", VNum 2);
       ("expiresAt", VNull);
       ("createdAt", VDate (Some 0))]);
    ("warning", VStr "Save this API key securely. It will not be shown again.")]).

(** [PUT /api/admin/keys/:clientId] *)
Definition update_request (c : string) (b : gmap string value) : Request :=
  mkRequest ∅ None None ("/keys/" +:+ c) c ∅ b None.

(** The record of [acme_1] with an hourly limit of zero. *)
Definition muted_record : ApiKeySchema.doc :=
  ApiKeySchema.set_rateLimit (Some 0) acme_record.

Definition muted_world : World := mkWorld [muted_record] [] 1.

(** A request from 9.9.9.9 that presents [k] as a bearer token. *)
Definition bearer_request (k : string) : Request :=
  mkRequest {[ "authorization" := "Bearer " +:+ k ]} (Some "9.9.9.9") None
            "/matches" "" ∅ ∅ None.

(** Another client, and a ledger that holds two of its events. *)
Definition globex_event (t : Z) : RateLimitSchema.doc :=
  RateLimitSchema.mkDoc (Some "globex_7") (Some "/matches") t.

Definition busy_elsewhere : World :=
  mkWorld [] [globex_event 5; globex_event 6] 0.

(** Three requests of [acme_1], a second apart. *)
Definition acme_trace : list (Request * Env) :=
  [(profiles_request, at_time 0); (profiles_request, at_time 1000);
   (profiles_request, at_time 2000)].

(** [GET /api/admin/keys/:clientId] *)
Definition fetch_request (c : string) : Request :=
  mkRequest ∅ None None ("/keys/" +:+ c) c ∅ ∅ None.

(** [PUT /api/admin/keys/:clientId] that switches the record on again. *)
Definition reactivate_request (c : string) : Request :=
  update_request c {[ "isActive" := VBool true ]}.

(** The surroundings of [getStats] when every count is served. *)
Definition counting (profiles recent : Z) : StatsSource :=
  mkStatsSource None (Ok profiles) (fun _ => Ok recent).

(** [PUT /api/admin/keys/:clientId] that sets the hourly limit, and
    tries to set the secret with it. *)
Definition limit_request (c : string) (r : Z) : Request :=
  update_request c {[ "rateLimit" := VNum r; "key" := VStr "sk_chosen" ]}.

(** [POST /api/admin/keys] that asks for an expiry two hundred million
    days ahead, beyond the last date. *)
Definition far_expiry_request : Request :=
  mkRequest ∅ None None "/keys" "" ∅
            {[ "name" := VStr "Acme"; "clientId" := VStr "acme_1";
               "expiresInDays" := VNum 200000000 ]} None.

(** * Properties *)

(** ** Running the handlers *)

Lemma world_eta (w : World) : mkWorld (apiKeys w) (rateLimits w) (nextId w) = w.
Proof. now destruct w. Qed.

(** ** The quota step *)

Section Quota.

Lemma window_count_nonneg c t events : 0 ≤ window_count c t events.
Proof. unfold window_count. lia. Qed.

Lemma window_count_app c t l1 l2 :
  window_count c t (l1 ++ l2) = window_count c t l1 + window_count c t l2.
Proof.
  unfold window_count. rewrite List.filter_app, length_app. lia.
Qed.

(** An event seen in the hour before a later instant is seen in the
    hour before an earlier one that does not precede it. *)
Lemma in_window_earlier c t1 t2 d :
  t1 ≤ t2 → in_window c t2 d = true → in_window c t1 d = true.
Proof.
  unfold in_window. intros Ht [Hc Hd]%andb_prop.
  rewrite Hc. simpl. apply Z.leb_le. apply Z.leb_le in Hd. lia.
Qed.

Lemma window_count_mono c t1 t2 events :
  t1 ≤ t2 → window_count c t2 events ≤ window_count c t1 events.
Proof.
  intros Ht. unfold window_count.
  induction events as [|d events IH]; simpl; [lia|].
  destruct (in_window c t2 d) eqn:E2.
  - rewrite (in_window_earlier c t1 t2 d Ht E2). simpl length. lia.
  - destruct (in_window c t1 d); simpl length; lia.
Qed.

Lemma window_count_event c endpoint t t' :
  window_count (Some c) t' [usage_event c endpoint t] =
    if t' - hour <=? t then 1 else 0.
Proof.
  unfold window_count, usage_event; simpl. unfold in_window; simpl.
  rewrite bool_decide_eq_true_2 by reflexivity. simpl.
  now destruct (t' - hour <=? t).
Qed.

(** The quota step as one equation: what it answers and what it leaves
    in the ledger, for a request that carries an identity, once the
    count has been served. *)
Lemma rateLimitByApiKey_counted req client env w :
  apiClient req = Some client →
  fault env RateLimit_countDocuments = None →
  rateLimitByApiKey req env w =
    let ev := RateLimitSchema.mkDoc (client_clientId client) (Some (path req)) (now env) in
    if number_of (client_rateLimit client)
         <=? window_count (client_clientId client) (now env) (rateLimits w)
    then (Ok (Send (rate_limit_exceeded (client_rateLimit client))), w)
    else if RateLimitSchema.validate ev && bool_decide (fault env RateLimit_create = None)
         then (Ok (Next req), log_event ev w)
         else (Ok (Next req), w).
Proof.
  intros Hc Hcount.
  unfold rateLimitByApiKey, try_catch. rewrite Hc.
  unfold bind, Date_now, RateLimit.countDocuments, reach, bind, ask, get, ret.
  rewrite Hcount. cbn zeta.
  change (60 * 60 * 1000) with hour.
  fold (in_window (client_clientId client) (now env)).
  fold (window_count (client_clientId client) (now env) (rateLimits w)).
  destruct (number_of _ <=? _); [reflexivity|].
  unfold RateLimit.create, reach, bind, ask, get, put, ret, throw.
  destruct (RateLimitSchema.validate _); simpl; [|reflexivity].
  destruct (fault env RateLimit_create); reflexivity.
Qed.

(** Without an identity on the request, or without a count, the step
    hands the request on and leaves the ledger as it was. *)
Lemma rateLimitByApiKey_uncounted req env w e :
  fault env RateLimit_countDocuments = Some e →
  rateLimitByApiKey req env w = (Ok (Next req), w).
Proof.
  intros Hf. unfold rateLimitByApiKey, try_catch.
  destruct (apiClient req) as [client|]; [|reflexivity].
  unfold bind, Date_now, RateLimit.countDocuments, reach, bind, ask, get, ret, throw.
  now rewrite Hf.
Qed.

Lemma rateLimitByApiKey_anonymous req env w :
  apiClient req = None →
  rateLimitByApiKey req env w = (Ok (Next req), w).
Proof. intros Hc. unfold rateLimitByApiKey, try_catch. now rewrite Hc. Qed.

(** C1: for a request that carries the identity of client [c] with
    limit [limit], and a ledger that serves its operations, the quota
    step counts the usage events of [c] whose timestamp is at least
    [now - 1h]; if the count reaches the limit the answer is 429
    RATE_LIMIT_EXCEEDED with that limit and [retryAfter = 3600], and the
    ledger is unchanged; otherwise exactly one event
    [{clientId, endpoint = path, timestamp = now}] is appended and the
    request goes on.  With limit 2 and no event in the window, two
    requests within the hour go on and the third is answered 429 with
    [limit = 2] and [retryAfter = 3600]. *)
Theorem quota_admission
    (req : Request) (client : ApiClient) (c : string) (limit : Z)
    (env : Env) (w : World) :
  apiClient req = Some client →
  client_clientId client = Some c → c ≠ "" →
  client_rateLimit client = Some limit →
  path req ≠ "" →
  ledger_up env →
  let count := window_count (Some c) (now env) (rateLimits w) in
  (limit ≤ count →
     rateLimitByApiKey req env w =
       (Ok (Send (mkResponse 429 (VObj [
          ("success", VBool false);
          ("error", VStr "Rate limit exceeded");
          ("code", VStr "RATE_LIMIT_EXCEEDED");
          ("limit", VNum limit);
          ("retryAfter", VNum 3600)]))), w))
  ∧ (count < limit →
     rateLimitByApiKey req env w =
       (Ok (Next req), log_event (usage_event c (path req) (now env)) w))
  ∧ (limit = 2 → count = 0 →
     ∀ (req2 req3 : Request) (env2 env3 : Env),
       apiClient req2 = Some client → path req2 ≠ "" → ledger_up env2 →
       apiClient req3 = Some client → ledger_up env3 →
       now env ≤ now env2 → now env2 ≤ now env3 → now env3 - hour ≤ now env →
       ∃ w1 w2,
         rateLimitByApiKey req env w = (Ok (Next req), w1) ∧
         rateLimitByApiKey req2 env2 w1 = (Ok (Next req2), w2) ∧
         rateLimitByApiKey req3 env3 w2 =
           (Ok (Send (mkResponse 429 (VObj [
              ("success", VBool false);
              ("error", VStr "Rate limit exceeded");
              ("code", VStr "RATE_LIMIT_EXCEEDED");
              ("limit", VNum 2);
              ("retryAfter", VNum 3600)]))), w2) ∧
         rateLimits w2 =
           (rateLimits w ++ [usage_event c (path req) (now env);
                             usage_event c (path req2) (now env2)])%list).
Proof.
  intros Hclient Hc Hne Hlimit Hpath [Hcount Hcreate] count.
  assert (Hstep : ∀ (r : Request) (e : Env) (v : World),
            apiClient r = Some client → ledger_up e →
            rateLimitByApiKey r e v =
              if limit <=? window_count (Some c) (now e) (rateLimits v)
              then (Ok (Send (rate_limit_exceeded (Some limit))), v)
              else if negb (String.eqb (path r) "")
                   then (Ok (Next r), log_event (usage_event c (path r) (now e)) v)
                   else (Ok (Next r), v)).
  { intros r e v Hr [He1 He2].
    rewrite (rateLimitByApiKey_counted r client e v Hr He1).
    cbn zeta. rewrite Hc, Hlimit. unfold number_of; simpl default.
    destruct (limit <=? _); [reflexivity|].
    unfold RateLimitSchema.validate; simpl.
    rewrite He2, bool_decide_eq_true_2 by reflexivity.
    apply String.eqb_neq in Hne. rewrite Hne. simpl.
    now destruct (String.eqb (path r) ""). }
  assert (Hgo : ∀ r : Request, path r ≠ "" → negb (String.eqb (path r) "") = true).
  { intros r Hr. apply String.eqb_neq in Hr. now rewrite Hr. }
  split; [|split].
  - intros Hle. rewrite Hstep by first [assumption | split; assumption].
    apply Z.leb_le in Hle. fold count. now rewrite Hle.
  - intros Hlt. rewrite Hstep by first [assumption | split; assumption].
    apply Z.leb_gt in Hlt. fold count. now rewrite Hlt, Hgo.
  - intros -> Hzero req2 req3 env2 env3 Hr2 Hp2 Hup2 Hr3 Hup3 H12 H23 H31.
    set (ev1 := usage_event c (path req) (now env)).
    set (ev2 := usage_event c (path req2) (now env2)).
    exists (log_event ev1 w), (log_event ev2 (log_event ev1 w)).
    assert (Hz2 : window_count (Some c) (now env2) (rateLimits w) = 0).
    { pose proof (window_count_mono (Some c) _ _ (rateLimits w) H12).
      pose proof (window_count_nonneg (Some c) (now env2) (rateLimits w)).
      fold count in H. lia. }
    assert (Hz3 : window_count (Some c) (now env3) (rateLimits w) = 0).
    { pose proof (window_count_mono (Some c) _ _ (rateLimits w) H23).
      pose proof (window_count_nonneg (Some c) (now env3) (rateLimits w)).
      lia. }
    repeat split.
    + rewrite Hstep by first [assumption | split; assumption]. fold count. rewrite Hzero.
      now rewrite Hgo.
    + rewrite Hstep by assumption. simpl rateLimits.
      rewrite window_count_app, Hz2. unfold ev1.
      rewrite window_count_event.
      destruct (Z.leb_spec (now env2 - hour) (now env)); [|lia].
      simpl. now rewrite Hgo.
    + rewrite Hstep by assumption. simpl rateLimits.
      rewrite !window_count_app, Hz3. unfold ev1, ev2.
      rewrite !window_count_event.
      destruct (Z.leb_spec (now env3 - hour) (now env)); [|lia].
      destruct (Z.leb_spec (now env3 - hour) (now env2)); [|lia].
      reflexivity.
    + simpl. now rewrite <- app_assoc.
Qed.

Lemma quota_admission_witness :
  ∃ w1 w2,
    rateLimitByApiKey profiles_request (at_time 0) no_records
      = (Ok (Next profiles_request), w1) ∧
    rateLimitByApiKey profiles_request (at_time 1000) w1
      = (Ok (Next profiles_request), w2) ∧
    rateLimitByApiKey profiles_request (at_time 2000) w2
      = (Ok (Send (rate_limit_exceeded (Some 2))), w2).
Proof.
  destruct (quota_admission profiles_request acme "acme_1" 2 (at_time 0) no_records)
    as (_ & _ & H);
    [reflexivity | reflexivity | discriminate | reflexivity | discriminate
    | split; reflexivity | ].
  destruct (H eq_refl eq_refl profiles_request profiles_request
              (at_time 1000) (at_time 2000))
    as (w1 & w2 & H1 & H2 & H3 & _);
    [reflexivity | discriminate | split; reflexivity | reflexivity
    | split; reflexivity | simpl; lia | simpl; lia | simpl; unfold hour; lia | ].
  exists w1, w2. repeat split; assumption.
Defined.

(** C4: the quota step is fail-open.  When the count of the window
    throws, and when the count is served but appending the event
    throws, the request goes on and the ledger is left as it was; and
    whatever happens the step never throws, and its only answer of its
    own is the 429 of a served count that has reached the limit. *)
Theorem quota_fail_open (req : Request) (env : Env) (w : World) (e : Error) :
  (fault env RateLimit_countDocuments = Some e →
     rateLimitByApiKey req env w = (Ok (Next req), w))
  ∧ (∀ client,
       apiClient req = Some client →
       fault env RateLimit_countDocuments = None →
       fault env RateLimit_create = Some e →
       window_count (client_clientId client) (now env) (rateLimits w)
         < number_of (client_rateLimit client) →
       rateLimitByApiKey req env w = (Ok (Next req), w))
  ∧ (∃ flow w', rateLimitByApiKey req env w = (Ok flow, w') ∧
       ∀ res, flow = Send res →
         w' = w ∧
         fault env RateLimit_countDocuments = None ∧
         ∃ client, apiClient req = Some client ∧
           res = rate_limit_exceeded (client_rateLimit client) ∧
           number_of (client_rateLimit client)
             ≤ window_count (client_clientId client) (now env) (rateLimits w)).
Proof.
  split; [|split].
  - apply rateLimitByApiKey_uncounted.
  - intros client Hc Hcount Hcreate Hlt.
    rewrite (rateLimitByApiKey_counted req client env w Hc Hcount). cbn zeta.
    apply Z.leb_gt in Hlt. rewrite Hlt, Hcreate.
    rewrite bool_decide_eq_false_2 by discriminate.
    now rewrite andb_false_r.
  - destruct (apiClient req) as [client|] eqn:Hc.
    2:{ exists (Next req), w. split; [now apply rateLimitByApiKey_anonymous|].
        discriminate. }
    destruct (fault env RateLimit_countDocuments) as [e'|] eqn:Hcount.
    { exists (Next req), w.
      split; [now apply (rateLimitByApiKey_uncounted req env w e')|discriminate]. }
    rewrite (rateLimitByApiKey_counted req client env w Hc Hcount). cbn zeta.
    destruct (Z.leb_spec (number_of (client_rateLimit client))
                (window_count (client_clientId client) (now env) (rateLimits w))).
    + eexists _, _. split; [reflexivity|].
      intros res [= <-]. split; [reflexivity|]. split; [reflexivity|].
      exists client. now repeat split.
    + destruct (_ && _); eexists _, _; (split; [reflexivity|discriminate]).
Qed.

Lemma quota_fail_open_witness :
  rateLimitByApiKey profiles_request (failing RateLimit_countDocuments 0) no_records =
    (Ok (Next profiles_request), no_records) ∧
  rateLimitByApiKey profiles_request (failing RateLimit_create 0) no_records =
    (Ok (Next profiles_request), no_records).
Proof.
  split.
  - apply (quota_fail_open profiles_request (failing RateLimit_countDocuments 0)
             no_records (mkError "connection lost")).
    reflexivity.
  - apply (proj1 (proj2 (quota_fail_open profiles_request
                           (failing RateLimit_create 0) no_records
                           (mkError "connection lost"))) acme);
      [reflexivity | reflexivity | reflexivity | vm_compute; reflexivity].
Defined.

(** The pass of the TTL index removes only events that no later count
    would see. *)
Lemma ttl_pass_invisible c t t' w :
  t ≤ t' →
  window_count c t' (rateLimits (RateLimit.ttl_pass t w)) =
    window_count c t' (rateLimits w).
Proof.
  intros Ht. unfold window_count, RateLimit.ttl_pass. simpl rateLimits.
  f_equal. f_equal.
  change (RateLimitSchema.expires * 1000) with hour.
  induction (rateLimits w) as [|d events IH]; [reflexivity|]. simpl.
  destruct (Z.leb_spec (t - hour) (RateLimitSchema.timestamp d)) as [Hkeep|Hdrop].
  - simpl. now rewrite IH.
  - rewrite IH. unfold in_window at 2.
    destruct (Z.leb_spec (t' - hour) (RateLimitSchema.timestamp d)); [lia|].
    now rewrite andb_false_r.
Qed.

(** The window slides: after two admitted requests at times 0 and
    1000 a third one at 2000 is refused, and a request made once the
    first event is more than an hour old is admitted again. *)
Example quota_window_slides :
  let run t w := rateLimitByApiKey profiles_request (at_time t) w in
  let w1 := snd (run 0 no_records) in
  let w2 := snd (run 1000 w1) in
  fst (run 0 no_records) = Ok (Next profiles_request) ∧
  fst (run 1000 w1) = Ok (Next profiles_request) ∧
  run 2000 w2 = (Ok (Send (rate_limit_exceeded (Some 2))), w2) ∧
  run 3600000 w2 = (Ok (Send (rate_limit_exceeded (Some 2))), w2) ∧
  fst (run 3600001 w2) = Ok (Next profiles_request).
Proof. repeat split; vm_compute; reflexivity. Qed.

End Quota.

(** ** Secrets *)

Section Secrets.

Lemma byte_of_hex_to_hex (b : byte) :
  byte_of_hex (hex_digit (N.div (Byte.to_N b) 16))
              (hex_digit (N.modulo (Byte.to_N b) 16)) = Some b.
Proof. destruct b; reflexivity. Qed.

(** Hex rendering loses nothing: the bytes are read back from it. *)
Lemma from_hex_to_hex (bs : list byte) : from_hex (to_hex bs) = Some bs.
Proof.
  induction bs as [|b bs IH]; [reflexivity|].
  cbn [to_hex from_hex]. rewrite byte_of_hex_to_hex, IH. reflexivity.
Qed.

Lemma to_hex_inj (bs bs' : list byte) : to_hex bs = to_hex bs' → bs = bs'.
Proof.
  intros H. apply (f_equal from_hex) in H.
  rewrite !from_hex_to_hex in H. now injection H.
Qed.

Lemma to_hex_length (bs : list byte) :
  String.length (to_hex bs) = (2 * length bs)%nat.
Proof. induction bs as [|b bs IH]; simpl; [reflexivity|]. rewrite IH. lia. Qed.

(** Two draws of the random source that differ give different
    secrets. *)
Lemma generated_inj prefix env env' :
  generated prefix env = generated prefix env' →
  randomBytes env 32 = randomBytes env' 32.
Proof.
  unfold generated. intros H. apply to_hex_inj.
  induction prefix as [|c prefix IH]; simpl in H.
  - now injection H.
  - injection H as H. now apply IH.
Qed.

Lemma replace_unfold pat rep s :
  replace pat rep s =
    if String.prefix pat s then
      rep +:+ String.substring (String.length pat)
                               (String.length s - String.length pat)%nat s
    else
      match s with
      | EmptyString => EmptyString
      | String c s' => String c (replace pat rep s')
      end.
Proof. now destruct s. Qed.

Lemma substring_whole s : String.substring 0 (String.length s) s = s.
Proof. induction s as [|c s IH]; simpl; [reflexivity|now rewrite IH]. Qed.

(** [replace] removes a pattern that the string starts with. *)
Lemma replace_prefix pat s : replace pat "" (pat +:+ s) = s.
Proof.
  rewrite replace_unfold.
  assert (Hp : String.prefix pat (pat +:+ s) = true).
  { induction pat as [|c pat IH]; simpl; [now destruct s|].
    destruct (ascii_dec c c); [exact IH|contradiction]. }
  rewrite Hp. simpl String.append at 1.
  assert (Hn : (String.length (pat +:+ s) - String.length pat)%nat
               = String.length s).
  { clear Hp. induction pat as [|c pat IH]; [apply Nat.sub_0_r|exact IH]. }
  rewrite Hn. clear Hp Hn.
  induction pat as [|c pat IH]; simpl; [apply substring_whole|exact IH].
Qed.

(** A bearer token is read as the secret it carries, when no
    [X-API-Key] header comes with it. *)
Lemma presented_bearer req k :
  headers req !! "x-api-key" = None →
  headers req !! "authorization" = Some ("Bearer " +:+ k) →
  presented req = Some k.
Proof.
  intros Hx Ha. unfold presented. rewrite Hx, Ha.
  change (Some (replace "Bearer " "" ("Bearer " +:+ k)) = Some k).
  now rewrite replace_prefix.
Qed.

(** The pattern is removed wherever it stands first in the header. *)
Example replace_inner : replace "Bearer " "" "Token Bearer abc" = "Token abc".
Proof. reflexivity. Qed.

End Secrets.

(** ** The authentication gate *)

Section Gate.
Import ApiKeySchema.

(** The secret is missing exactly when the first check fails. *)
Lemma first_failure_missing req t w :
  truthy_str (presented req) = false →
  first_failure req t w = Some MissingKey.
Proof. intros Hp. unfold first_failure, standing_checks. simpl. now rewrite Hp. Qed.

(** Past the first check, the failure is decided by the record found. *)
Lemma first_failure_found req t w :
  truthy_str (presented req) = true →
  first_failure req t w =
    match lookup_key (presented req) w with
    | None => Some InvalidKey
    | Some d =>
        if is_disabled d then Some DisabledKey
        else if is_expired t d then Some ExpiredKey
        else if ip_refused req d then Some IPNotAllowed
        else None
    end.
Proof.
  intros Hp. unfold first_failure, standing_checks. simpl. rewrite Hp. simpl.
  destruct (lookup_key (presented req) w) as [d|]; simpl; [|reflexivity].
  destruct (is_disabled d); [reflexivity|].
  destruct (is_expired t d); [reflexivity|].
  now destruct (ip_refused req d).
Qed.

Lemma is_disabled_spec d : is_disabled d = negb (default false (isActive d)).
Proof. unfold is_disabled. now destruct (isActive d) as [[]|]. Qed.

Lemma ip_refused_spec req d :
  ip_refused req d =
    match allowedIPs d with
    | Some allowedIPs =>
        (0 <? Z.of_nat (length allowedIPs)) &&
        negb (includes allowedIPs (or_else (ip req) (remoteAddress req)))
    | None => false
    end.
Proof. unfold ip_refused. now destruct (allowedIPs d) as [[|a l]|]. Qed.

Lemma save_run d env w :
  ApiKey.save d env w =
    if persists env w d then (Ok tt, stored d w)
    else (Throw (if negb (validate d)
                 then ValidationError "ApiKey validation failed"
                 else match fault env ApiKey_save with
                      | Some e => e
                      | None => DuplicateKeyError
                      end), w).
Proof.
  unfold ApiKey.save, persists.
  destruct (validate d); simpl; [|reflexivity].
  unfold reach, bind, ask, get, ret, throw.
  destruct (fault env ApiKey_save); simpl; [reflexivity|].
  now destruct (ApiKey.clashes d (apiKeys w)).
Qed.

(** The gate as one equation, when the store serves the lookup. *)
Lemma authenticateApiKey_run req env w :
  fault env ApiKey_findOne = None →
  authenticateApiKey req env w =
    match first_failure req (now env) w, lookup_key (presented req) w with
    | Some f, _ => (Ok (Send (auth_response f)), w)
    | None, Some d =>
        if persists env w (touched (now env) d)
        then (Ok (Next (set_apiClient (identity_of d) req)),
              stored (touched (now env) d) w)
        else (Ok (Send (failure 500 "Authentication failed" "AUTH_ERROR")), w)
    | None, None => (Ok (Send (auth_response InvalidKey)), w)
    end.
Proof.
  intros Hfind. unfold authenticateApiKey, try_catch.
  fold (presented req).
  destruct (truthy_str (presented req)) eqn:Hp;
    [change (negb true) with false | change (negb false) with true]; cbv iota.
  2:{ now rewrite first_failure_missing. }
  rewrite first_failure_found by assumption.
  unfold bind at 1.  unfold ApiKey.findOne, reach, bind, ask, get, ret. 
  rewrite Hfind. cbv iota beta.
  fold (lookup_key (presented req) w).
  destruct (lookup_key (presented req) w) as [d|]; [|reflexivity].
  rewrite is_disabled_spec.
  destruct (default false (isActive d));
    [change (negb true) with false | change (negb false) with true]; cbv iota;
    [|reflexivity].
  unfold Date_now, bind, ask, ret. cbv iota beta.
  fold (is_expired (now env) d).
  destruct (is_expired (now env) d); [reflexivity|].
  rewrite ip_refused_spec.
  destruct (match allowedIPs d with Some _ => _ | None => _ end); [reflexivity|].
  fold (touched (now env) d).
  rewrite save_run.
  destruct (persists env w (touched (now env) d)); reflexivity.
Qed.

(** When the store does not serve the lookup of a presented secret, the
    gate answers 500. *)
Lemma authenticateApiKey_unreachable req env w e :
  truthy_str (presented req) = true →
  fault env ApiKey_findOne = Some e →
  authenticateApiKey req env w =
    (Ok (Send (failure 500 "Authentication failed" "AUTH_ERROR")), w).
Proof.
  intros Hp Hfind. unfold authenticateApiKey, try_catch.
  fold (presented req). rewrite Hp. change (negb true) with false. cbv iota.
  unfold bind at 1. unfold ApiKey.findOne, reach, bind, ask, get, ret, throw.
  now rewrite Hfind.
Qed.

(** C2: the gate applies its checks in the order secret present,
    lookup, isActive, expiry, IP, and answers with the first one that
    fails.  So a record with [isActive = false] is answered 403
    DISABLED_API_KEY whatever its expiry and whatever the address of the
    requester, and an active record whose [expiresAt] has passed is
    answered 403 EXPIRED_API_KEY whatever the address. *)
Theorem auth_check_order (req : Request) (env : Env) (w : World) :
  fault env ApiKey_findOne = None →
  (∀ f, first_failure req (now env) w = Some f →
        authenticateApiKey req env w = (Ok (Send (auth_response f)), w))
  ∧ (∀ d, truthy_str (presented req) = true →
          lookup_key (presented req) w = Some d →
          isActive d = Some false →
          authenticateApiKey req env w =
            (Ok (Send (mkResponse 403 (VObj [
               ("success", VBool false);
               ("error", VStr "API key is disabled");
               ("code", VStr "DISABLED_API_KEY")]))), w))
  ∧ (∀ d e, truthy_str (presented req) = true →
            lookup_key (presented req) w = Some d →
            isActive d = Some true →
            expiresAt d = Some e → e < now env →
            authenticateApiKey req env w =
              (Ok (Send (mkResponse 403 (VObj [
                 ("success", VBool false);
                 ("error", VStr "API key has expired");
                 ("code", VStr "EXPIRED_API_KEY")]))), w)).
Proof.
  intros Hfind. split; [|split].
  - intros f Hf. rewrite authenticateApiKey_run by assumption. now rewrite Hf.
  - intros d Hp Hd Hoff.
    rewrite authenticateApiKey_run, first_failure_found by assumption.
    rewrite Hd. unfold is_disabled. rewrite Hoff. reflexivity.
  - intros d e Hp Hd Hon He Hlt.
    rewrite authenticateApiKey_run, first_failure_found by assumption.
    rewrite Hd. unfold is_disabled, is_expired. rewrite Hon, He.
    apply Z.ltb_lt in Hlt. rewrite Hlt. reflexivity.
Qed.

Lemma auth_check_order_witness :
  authenticateApiKey (keyed_request acme_key) (at_time 10) lapsed_world =
    (Ok (Send (auth_response DisabledKey)), lapsed_world).
Proof.
  destruct (auth_check_order (keyed_request acme_key) (at_time 10) lapsed_world)
    as (_ & H & _); [reflexivity|].
  apply (H lapsed_record); reflexivity.
Defined.

(** C3, as the code has it: for a request that passes every standing
    check, the usage counter is written before the request goes on.
    When the write fails the gate answers 500 AUTH_ERROR, the store is
    left as it was and the request does not go on; when it succeeds the
    request goes on with the identity [{clientId, name, rateLimit}] of
    the record, which is stored with [usageCount + 1] and
    [lastUsed = now].  The write fails when the store rejects it, and
    in every other way in which [save] can reject: the validators or a
    unique index refusing the record. *)
Theorem auth_persist_fail_closed
    (req : Request) (env : Env) (w : World) (d : doc) :
  fault env ApiKey_findOne = None →
  first_failure req (now env) w = None →
  lookup_key (presented req) w = Some d →
  (∀ e, fault env ApiKey_save = Some e →
        authenticateApiKey req env w =
          (Ok (Send (mkResponse 500 (VObj [
             ("success", VBool false);
             ("error", VStr "Authentication failed");
             ("code", VStr "AUTH_ERROR")]))), w))
  ∧ (persists env w (touched (now env) d) = true →
        authenticateApiKey req env w =
          (Ok (Next (set_apiClient (identity_of d) req)),
           stored (touched (now env) d) w))
  ∧ (persists env w (touched (now env) d) = false →
        authenticateApiKey req env w =
          (Ok (Send (mkResponse 500 (VObj [
             ("success", VBool false);
             ("error", VStr "Authentication failed");
             ("code", VStr "AUTH_ERROR")]))), w)).
Proof.
  intros Hfind Hpass Hd. split; [|split].
  - intros e He. rewrite authenticateApiKey_run by assumption.
    rewrite Hpass, Hd. unfold persists. rewrite He.
    rewrite bool_decide_eq_false_2 by discriminate.
    now rewrite andb_false_r.
  - intros Hok. rewrite authenticateApiKey_run by assumption.
    now rewrite Hpass, Hd, Hok.
  - intros Hno. rewrite authenticateApiKey_run by assumption.
    now rewrite Hpass, Hd, Hno.
Qed.

Lemma auth_persist_fail_closed_witness :
  authenticateApiKey (keyed_request acme_key) (failing ApiKey_save 10) one_record =
    (Ok (Send (failure 500 "Authentication failed" "AUTH_ERROR")), one_record).
Proof.
  destruct (auth_persist_fail_closed (keyed_request acme_key)
              (failing ApiKey_save 10) one_record acme_record)
    as (H & _); [reflexivity | reflexivity | reflexivity |].
  apply (H (mkError "connection lost")). reflexivity.
Defined.

(** C3, as the specification states it, fails: the request below passes
    every standing check, the write of the usage counter fails, and the
    gate answers 500 instead of letting the request go on. *)
Lemma auth_persist_failure_not_tolerated :
  first_failure (keyed_request acme_key) 10 one_record = None ∧
  fault (failing ApiKey_save 10) ApiKey_save = Some (mkError "connection lost") ∧
  authenticateApiKey (keyed_request acme_key) (failing ApiKey_save 10) one_record =
    (Ok (Send (failure 500 "Authentication failed" "AUTH_ERROR")), one_record) ∧
  ¬ ∃ req' w',
      authenticateApiKey (keyed_request acme_key) (failing ApiKey_save 10) one_record =
        (Ok (Next req'), w').
Proof.
  assert (H : authenticateApiKey (keyed_request acme_key)
                (failing ApiKey_save 10) one_record =
              (Ok (Send (failure 500 "Authentication failed" "AUTH_ERROR")),
               one_record)) by (vm_compute; reflexivity).
  repeat split; try (vm_compute; reflexivity).
  intros (req' & w' & H'). rewrite H in H'. discriminate.
Qed.

End Gate.

(** ** What the unique indexes give *)

Section Indexes.
Import ApiKeySchema.

Lemma clashes_false_inv d docs d' :
  ApiKey.clashes d docs = false → d' ∈ docs → _id d' ≠ _id d →
  key d' ≠ key d ∧ clientId d' ≠ clientId d.
Proof.
  unfold ApiKey.clashes. intros Hc Hin Hid.
  induction docs as [|d0 docs IH]; [now apply not_elem_of_nil in Hin|].
  simpl in Hc. apply orb_false_iff in Hc as [H0 Hrest].
  apply elem_of_cons in Hin as [->|Hin]; [|now apply IH].
  apply N.eqb_neq in Hid. rewrite Hid in H0. simpl in H0.
  apply orb_false_iff in H0 as [Hk Hc].
  split; [now apply bool_decide_eq_false in Hk | now apply bool_decide_eq_false in Hc].
Qed.

Lemma clashes_cons_false d d0 docs :
  ApiKey.clashes d (d0 :: docs) = false → ApiKey.clashes d docs = false.
Proof. unfold ApiKey.clashes. simpl. now intros [_ H]%orb_false_iff. Qed.

Lemma indexes_hold_distinct docs : indexes_hold docs = true → distinct docs.
Proof.
  unfold indexes_hold. intros [Hids Hcl]%andb_prop.
  apply bool_decide_eq_true in Hids.
  assert (Hall : Forall (fun d => ApiKey.clashes d docs = false) docs).
  { rewrite forallb_forall in Hcl. apply Forall_forall. intros d Hd.
    apply list_elem_of_In in Hd. specialize (Hcl d Hd).
    now apply negb_true_iff in Hcl. }
  clear Hcl.
  induction docs as [|d docs IH]; [exact I|].
  rewrite fmap_cons in Hids. apply NoDup_cons in Hids as [Hd Hids].
  apply Forall_cons in Hall as [Hcd Hall].
  split.
  - apply Forall_forall. intros d' Hd'.
    assert (Hne : _id d' ≠ _id d).
    { intros Heq. apply Hd. rewrite <- Heq. now apply list_elem_of_fmap_2. }
    split; [exact Hne|].
    apply (clashes_false_inv d (d :: docs) d' Hcd); [now right | exact Hne].
  - apply IH; [exact Hids|].
    eapply Forall_impl; [exact Hall|]. intros d'. apply clashes_cons_false.
Qed.

Lemma find_none_Forall {A} (f : A → bool) (l : list A) :
  Forall (fun x => f x = false) l → List.find f l = None.
Proof.
  induction 1 as [|x l Hx _ IH]; simpl; [reflexivity|]. now rewrite Hx.
Qed.

Lemma find_Some_elem {A} (f : A → bool) (l : list A) x :
  List.find f l = Some x → x ∈ l ∧ f x = true.
Proof.
  induction l as [|y l IH]; simpl; [discriminate|].
  destruct (f y) eqn:E.
  - intros [= <-]. split; [left|exact E].
  - intros H. destruct (IH H). split; [now right|assumption].
Qed.

(** Among distinct documents a filter on [clientId] selects at most
    one, so that removing the first match removes every match. *)
Lemma find_after_remove_first (f : doc → bool) docs :
  (∀ d d', f d = true → f d' = true → key d' = key d ∨ clientId d' = clientId d) →
  distinct docs →
  List.find f (ApiKey.remove_first f docs) = None.
Proof.
  intros Hf. induction docs as [|d docs IH]; intros Hdist; [reflexivity|].
  destruct Hdist as [Hd Hrest]. simpl.
  destruct (f d) eqn:E.
  - apply find_none_Forall.
    eapply Forall_impl; [exact Hd|]. intros d' (_ & Hk & Hc).
    destruct (f d') eqn:E'; [|reflexivity]. exfalso.
    destruct (Hf d d' E E'); contradiction.
  - simpl. rewrite E. now apply IH.
Qed.

(** The first match of a filter differs from everything that is left
    once it is removed. *)
Lemma remove_first_leaves_others (f : doc → bool) docs d :
  distinct docs → List.find f docs = Some d →
  Forall (fun d' => _id d' ≠ _id d ∧ key d' ≠ key d ∧ clientId d' ≠ clientId d)
         (ApiKey.remove_first f docs).
Proof.
  induction docs as [|d0 docs IH]; [discriminate|].
  intros [Hd0 Hrest]. simpl. destruct (f d0) eqn:E.
  - now intros [= <-].
  - intros Hfind. constructor; [|now apply IH].
    apply find_Some_elem in Hfind as [Hin _].
    rewrite Forall_forall in Hd0. destruct (Hd0 d Hin) as (Hi & Hk & Hc).
    repeat split; congruence.
Qed.

(** A change that the filter does not see changes the match in place. *)
Lemma find_update_first (f : doc → bool) change docs :
  (∀ d, f (change d) = f d) →
  List.find f (ApiKey.update_first f change docs) = change <$> List.find f docs.
Proof.
  intros Hf. induction docs as [|d docs IH]; [reflexivity|].
  simpl. destruct (f d) eqn:E; simpl.
  - now rewrite Hf, E.
  - now rewrite E, IH.
Qed.

(** Writing [d'] over the document that has its [_id]. *)
Lemma stored_forgets_key docs d d' :
  distinct docs → d ∈ docs → _id d' = _id d → key d' ≠ key d →
  Forall (fun x => key x ≠ key d)
         (ApiKey.update_first (ApiKey.has_id_of d') (fun _ => d') docs).
Proof.
  intros Hdist Hin Hid Hkey.
  induction docs as [|d0 docs IH]; [constructor|].
  destruct Hdist as [Hd0 Hrest]. simpl. unfold ApiKey.has_id_of at 1.
  rewrite Forall_forall in Hd0.
  apply elem_of_cons in Hin as [->|Hin].
  - rewrite Hid, N.eqb_refl. constructor; [exact Hkey|].
    apply Forall_forall. intros x Hx. now destruct (Hd0 x Hx) as (_ & Hk & _).
  - destruct (Hd0 d Hin) as (Hi & Hk & _).
    rewrite Hid. apply not_eq_sym, N.eqb_neq in Hi. rewrite Hi.
    constructor; [congruence | now apply IH].
Qed.

Lemma find_stored (f : doc → bool) docs d d' :
  distinct docs → List.find f docs = Some d → _id d' = _id d → f d' = true →
  List.find f (ApiKey.update_first (ApiKey.has_id_of d') (fun _ => d') docs) = Some d'.
Proof.
  intros Hdist Hfind Hid Hf.
  induction docs as [|d0 docs IH]; [discriminate|].
  destruct Hdist as [Hd0 Hrest]. simpl in *. unfold ApiKey.has_id_of at 1.
  destruct (f d0) eqn:E.
  - injection Hfind as ->. rewrite Hid, N.eqb_refl. simpl. now rewrite Hf.
  - pose proof (find_Some_elem _ _ _ Hfind) as [Hin _].
    rewrite Forall_forall in Hd0. destruct (Hd0 d Hin) as (Hi & _).
    rewrite Hid. apply not_eq_sym, N.eqb_neq in Hi. rewrite Hi.
    simpl. rewrite E. now apply IH.
Qed.

(** A stored document does not clash with the documents it is distinct
    from. *)
Lemma clashes_others d docs :
  Forall (fun d' => key d' ≠ key d ∧ clientId d' ≠ clientId d) docs →
  ApiKey.clashes d docs = false.
Proof.
  unfold ApiKey.clashes.
  induction 1 as [|d' docs [Hk Hc] _ IH]; simpl; [reflexivity|].
  rewrite IH, bool_decide_eq_false_2, bool_decide_eq_false_2 by assumption.
  now rewrite andb_false_r.
Qed.

Lemma clashes_stored d docs :
  distinct docs → d ∈ docs → ApiKey.clashes d docs = false.
Proof.
  induction docs as [|d0 docs IH]; [now intros _ ?%not_elem_of_nil|].
  intros [Hd0 Hrest] Hin.
  change (ApiKey.clashes d (d0 :: docs))
    with (negb (_id d0 =? _id d)%N &&
          (bool_decide (key d0 = key d) || bool_decide (clientId d0 = clientId d))
          || ApiKey.clashes d docs).
  apply elem_of_cons in Hin as [->|Hin].
  - rewrite N.eqb_refl. simpl. apply clashes_others.
    eapply Forall_impl; [exact Hd0|]. now intros d' (_ & Hk & Hc).
  - rewrite IH by assumption. rewrite Forall_forall in Hd0.
    destruct (Hd0 d Hin) as (_ & Hk & Hc).
    rewrite !bool_decide_eq_false_2 by congruence.
    now rewrite andb_false_r.
Qed.

(** Only [_id], [key] and [clientId] matter to the indexes. *)
Lemma clashes_ext d d' docs :
  _id d' = _id d → key d' = key d → clientId d' = clientId d →
  ApiKey.clashes d' docs = ApiKey.clashes d docs.
Proof. unfold ApiKey.clashes. now intros -> -> ->. Qed.

(** Conversely, distinct documents pass the check of the indexes. *)
Lemma distinct_indexes_hold docs : distinct docs → indexes_hold docs = true.
Proof.
  intros Hdist. unfold indexes_hold. apply andb_true_intro. split.
  - apply bool_decide_eq_true.
    induction docs as [|d docs IH]; [constructor|].
    destruct Hdist as [Hd Hrest]. rewrite fmap_cons.
    apply NoDup_cons. split; [|now apply IH].
    intros (d' & Hid & Hin)%list_elem_of_fmap.
    rewrite Forall_forall in Hd. destruct (Hd d' Hin) as (Hne & _).
    congruence.
  - apply forallb_forall. intros d Hd%list_elem_of_In.
    apply negb_true_iff. now apply clashes_stored.
Qed.

End Indexes.

(** ** The model methods, as equations *)

Section Store.
Import ApiKeySchema.
Context {platform : Platform}.

Lemma findOne_run filter env w :
  ApiKey.findOne filter env w =
    match fault env ApiKey_findOne with
    | Some e => (Throw e, w)
    | None => (Ok (List.find filter (apiKeys w)), w)
    end.
Proof.
  unfold ApiKey.findOne, reach, bind, ask, get, ret, throw.
  now destruct (fault env ApiKey_findOne).
Qed.

Lemma remove_first_none filter docs :
  List.find filter docs = None → ApiKey.remove_first filter docs = docs.
Proof.
  induction docs as [|d docs IH]; simpl; [reflexivity|].
  destruct (filter d); [discriminate|]. intros Hn. now rewrite IH.
Qed.

Lemma update_first_none filter change docs :
  List.find filter docs = None → ApiKey.update_first filter change docs = docs.
Proof.
  induction docs as [|d docs IH]; simpl; [reflexivity|].
  destruct (filter d); [discriminate|]. intros Hn. now rewrite IH.
Qed.

Lemma findOneAndDelete_run filter env w :
  ApiKey.findOneAndDelete filter env w =
    match fault env ApiKey_findOneAndDelete with
    | Some e => (Throw e, w)
    | None => (Ok (List.find filter (apiKeys w)),
               mkWorld (ApiKey.remove_first filter (apiKeys w))
                       (rateLimits w) (nextId w))
    end.
Proof.
  unfold ApiKey.findOneAndDelete, ApiKey.put_docs, reach, bind, ask, get, put, ret, throw.
  now destruct (fault env ApiKey_findOneAndDelete).
Qed.

Lemma set_path_run {A} p (cast : value → Cast A) check set rv update k env w :
  ApiKey.set_path p cast check set rv update k env w =
    (path_change p cast check set rv update k, w).
Proof.
  unfold ApiKey.set_path, path_change.
  destruct (update !! p) as [v|]; [|reflexivity].
  unfold of_cast, bind, ret, throw.
  destruct (cast v) as [x|]; [|reflexivity].
  now destruct (rv && negb (check x)).
Qed.

(** Casting an update object neither reads nor writes the store. *)
Lemma cast_update_pure rv update env w :
  snd (ApiKey.cast_update rv update env w) = w.
Proof.
  unfold ApiKey.cast_update.
  unfold bind at 1. unfold ret at 1.
  repeat (unfold bind at 1; rewrite set_path_run;
          match goal with |- context [path_change ?p ?c ?ch ?s rv update ?k] =>
            destruct (path_change p c ch s rv update k); [|reflexivity] end).
  now rewrite set_path_run.
Qed.

Lemma findOneAndUpdate_run filter update new rv env w :
  ApiKey.findOneAndUpdate filter update new rv env w =
    match fst (ApiKey.cast_update rv update env w) with
    | Throw e => (Throw e, w)
    | Ok change =>
        match fault env ApiKey_findOneAndUpdate with
        | Some e => (Throw e, w)
        | None =>
            match List.find filter (apiKeys w) with
            | None => (Ok None, w)
            | Some d =>
                if ApiKey.clashes (change d) (apiKeys w)
                then (Throw DuplicateKeyError, w)
                else (Ok (Some (if new then change d else d)),
                      mkWorld (ApiKey.update_first filter change (apiKeys w))
                              (rateLimits w) (nextId w))
            end
        end
    end.
Proof.
  unfold ApiKey.findOneAndUpdate. unfold bind at 1.
  pose proof (cast_update_pure rv update env w) as Hpure.
  destruct (ApiKey.cast_update rv update env w) as [[change|e] w0];
    simpl in Hpure; subst w0; simpl fst; [|reflexivity].
  unfold ApiKey.put_docs, reach, bind, ask, get, put, ret, throw.
  destruct (fault env ApiKey_findOneAndUpdate); [reflexivity|].
  destruct (List.find filter (apiKeys w)) as [d|]; [|reflexivity].
  now destruct (ApiKey.clashes (change d) (apiKeys w)).
Qed.

(** The update object of a soft revocation. *)
Lemma cast_update_deactivate env w :
  ApiKey.cast_update false {[ "isActive" := VBool false ]} env w =
    (Ok (set_isActive (Some false)), w).
Proof.
  unfold ApiKey.cast_update.
  unfold bind, ret.
  repeat (rewrite set_path_run; unfold path_change at 1;
          first [ rewrite lookup_singleton_ne by discriminate
                | rewrite lookup_singleton_eq, castBoolean_bool ];
          cbn [andb]; cbv iota beta).
  reflexivity.
Qed.

End Store.

(** ** Revocation and listing *)

Section Revocation.
Import ApiKeySchema adminController.
Context {platform : Platform}.

Lemma deleteApiKey_run req env w :
  deleteApiKey req env w =
    let c := params_clientId req in
    if bool_decide (query req !! "hardDelete" = Some "true") then
      match fault env ApiKey_findOneAndDelete with
      | Some _ =>
          (Ok (mkResponse 500 (VObj [
             ("success", VBool false);
             ("error", VStr "Failed to delete API key")])), w)
      | None =>
          (Ok (revoked true),
           mkWorld (ApiKey.remove_first (clientId_is (Some c)) (apiKeys w))
                   (rateLimits w) (nextId w))
      end
    else
      match fault env ApiKey_findOneAndUpdate,
            List.find (clientId_is (Some c)) (apiKeys w) with
      | Some _, _ =>
          (Ok (mkResponse 500 (VObj [
             ("success", VBool false);
             ("error", VStr "Failed to delete API key")])), w)
      | None, None => (Ok (revoked false), w)
      | None, Some d =>
          if ApiKey.clashes (set_isActive (Some false) d) (apiKeys w)
          then (Ok (mkResponse 500 (VObj [
                  ("success", VBool false);
                  ("error", VStr "Failed to delete API key")])), w)
          else (Ok (revoked false),
                mkWorld (ApiKey.update_first (clientId_is (Some c))
                           (set_isActive (Some false)) (apiKeys w))
                        (rateLimits w) (nextId w))
      end.
Proof.
  unfold deleteApiKey, try_catch, revoked. cbv zeta.
  destruct (bool_decide (query req !! "hardDelete" = Some "true")).
  - unfold bind. rewrite findOneAndDelete_run.
    now destruct (fault env ApiKey_findOneAndDelete).
  - unfold bind. rewrite findOneAndUpdate_run, cast_update_deactivate. simpl fst.
    destruct (fault env ApiKey_findOneAndUpdate); [reflexivity|].
    destruct (List.find _ (apiKeys w)) as [d|]; [|reflexivity].
    now destruct (ApiKey.clashes _ (apiKeys w)).
Qed.

(** C10: revoking a [clientId] that has no record answers with success
    in both modes, "deleted permanently" or "deactivated", and leaves
    the store as it was. *)
Theorem revoke_unknown_client_succeeds (req : Request) (env : Env) (w : World) :
  lookup_clientId (params_clientId req) w = None →
  (query req !! "hardDelete" = Some "true" →
   fault env ApiKey_findOneAndDelete = None →
   deleteApiKey req env w =
     (Ok (mkResponse 200 (VObj [
        ("success", VBool true);
        ("message", VStr "API key deleted permanently")])), w))
  ∧ (query req !! "hardDelete" ≠ Some "true" →
     fault env ApiKey_findOneAndUpdate = None →
     deleteApiKey req env w =
       (Ok (mkResponse 200 (VObj [
          ("success", VBool true);
          ("message", VStr "API key deactivated")])), w)).
Proof.
  intros Hnone. unfold lookup_clientId in Hnone. split.
  - intros Hhard Hup. rewrite deleteApiKey_run. cbv zeta.
    rewrite bool_decide_eq_true_2 by assumption. rewrite Hup.
    unfold clientId_is. rewrite remove_first_none by exact Hnone.
    now rewrite world_eta.
  - intros Hsoft Hup. rewrite deleteApiKey_run. cbv zeta.
    rewrite bool_decide_eq_false_2 by assumption. rewrite Hup.
    unfold clientId_is. now rewrite Hnone.
Qed.

End Revocation.

Lemma revoke_unknown_client_succeeds_witness :
  adminController.deleteApiKey (platform := strict_platform)
      (revoke_request "ghost" true) (at_time 10) one_record =
    (Ok (revoked true), one_record) ∧
  adminController.deleteApiKey (platform := strict_platform)
      (revoke_request "ghost" false) (at_time 10) one_record =
    (Ok (revoked false), one_record).
Proof.
  split.
  - apply (proj1 (revoke_unknown_client_succeeds (platform := strict_platform)
                    (revoke_request "ghost" true) (at_time 10) one_record eq_refl));
      reflexivity.
  - apply (proj2 (revoke_unknown_client_succeeds (platform := strict_platform)
                    (revoke_request "ghost" false) (at_time 10) one_record eq_refl));
      [discriminate | reflexivity].
Defined.

(** ** The listing *)

Section Listing.
Import ApiKeySchema adminController.
Context {platform : Platform}.

Lemma insert_sorted_Forall (P : doc → Prop) d docs :
  P d → Forall P docs → Forall P (ApiKey.insert_sorted d docs).
Proof.
  intros Hd. induction 1 as [|d' docs Hd' Hdocs IH]; simpl.
  - now constructor.
  - destruct (ApiKey.newer_or_equal d d'); repeat constructor; assumption.
Qed.

Lemma sort_Forall (P : doc → Prop) docs :
  Forall P docs → Forall P (ApiKey.sort_createdAt_desc docs).
Proof.
  induction 1 as [|d docs Hd Hdocs IH]; simpl; [constructor|].
  now apply insert_sorted_Forall.
Qed.

Lemma insert_sorted_length d docs :
  length (ApiKey.insert_sorted d docs) = S (length docs).
Proof.
  induction docs as [|d' docs IH]; simpl; [reflexivity|].
  destruct (ApiKey.newer_or_equal d d'); simpl; [reflexivity|now rewrite IH].
Qed.

Lemma sort_length docs : length (ApiKey.sort_createdAt_desc docs) = length docs.
Proof.
  induction docs as [|d docs IH]; simpl; [reflexivity|].
  now rewrite insert_sorted_length, IH.
Qed.

(** The projection [select('-key')] leaves no key to preview: mapping
    the preview over a non-empty result throws. *)
Lemma mapM_preview_throws {B} (h : doc → value → M B) keys env w :
  keys ≠ [] → Forall (fun k => key k = None) keys →
  mapM (fun k => preview <- keyPreview k ;; h k preview) keys env w =
    (Throw (TypeError "Cannot read properties of undefined (reading 'slice')"), w).
Proof.
  intros Hne Hall. destruct Hall as [|k keys Hk _]; [contradiction|].
  simpl. unfold bind, keyPreview. now rewrite Hk.
Qed.

Lemma projected_keys found :
  Forall (fun k => key k = None)
         (ApiKey.sort_createdAt_desc (ApiKey.select_minus_key <$> found)).
Proof.
  apply sort_Forall, Forall_fmap, Forall_forall. intros d _. reflexivity.
Qed.

Lemma find_run filter env w :
  ApiKey.find filter env w =
    match fault env ApiKey_find with
    | Some e => (Throw e, w)
    | None => (Ok (List.filter filter (apiKeys w)), w)
    end.
Proof.
  unfold ApiKey.find, reach, bind, ask, get, ret, throw.
  now destruct (fault env ApiKey_find).
Qed.

(** What the listing does once its query has selected [found]. *)
Lemma listing_of_found (by_filter : doc → bool) env w
    (rest : list doc → M Response) :
  (∀ found, found ≠ [] → ∃ e, rest found env w = (Throw e, w)) →
  rest [] env w = (Ok empty_listing, w) →
  try_catch (found <- ApiKey.find by_filter ;; rest found)
            (fun _ => ret listing_failed) env w =
    if bool_decide (fault env ApiKey_find = None ∧
                    List.filter by_filter (apiKeys w) = [])
    then (Ok empty_listing, w) else (Ok listing_failed, w).
Proof.
  intros Hthrow Hnil. unfold try_catch, bind. rewrite find_run.
  destruct (fault env ApiKey_find) as [e|].
  { rewrite bool_decide_eq_false_2; [reflexivity|]. now intros [? _]. }
  destruct (List.filter by_filter (apiKeys w)) as [|d found] eqn:E.
  - rewrite Hnil. now rewrite bool_decide_eq_true_2.
  - destruct (Hthrow (d :: found)) as [e ->]; [discriminate|].
    rewrite bool_decide_eq_false_2; [reflexivity|]. now intros [_ ?].
Qed.

(** [listApiKeys] never shows a record: it answers with the empty
    listing or with 500, and leaves the store as it was. *)
Lemma listApiKeys_shows_no_record req env w :
  ∃ b : bool,
    listApiKeys req env w =
      (Ok (if b then empty_listing else listing_failed), w).
Proof.
  unfold listApiKeys.
  match goal with
  | |- context [try_catch (bind ?m ?k) ?h] =>
      assert (Hm : (∃ g, m env w = (Ok g, w)) ∨ (∃ e, m env w = (Throw e, w)))
  end.
  { destruct (truthy_str (query req !! "search")); [|left; eexists; reflexivity].
    destruct (regexI _); [left|right]; eexists; reflexivity. }
  unfold try_catch at 1. unfold bind at 1.
  destruct Hm as [[g ->]|[e ->]]; [|exists false; reflexivity].
  match goal with
  | |- context [bind (ApiKey.find ?f) ?k] =>
      pose proof (listing_of_found f env w k) as Hl
  end.
  unfold try_catch, listing_failed in Hl.
  rewrite Hl.
  - destruct (bool_decide _); [exists true|exists false]; reflexivity.
  - intros found Hne. eexists. unfold bind at 1.
    rewrite mapM_preview_throws; [reflexivity| |apply projected_keys].
    intros Hnil. apply (f_equal length) in Hnil.
    rewrite sort_length, length_fmap in Hnil. now destruct found.
  - reflexivity.
Qed.

(** Without filters, the listing of a store that holds a record is the
    500 answer. *)
Lemma listApiKeys_fails_on_records req env w :
  query req !! "active" = None → query req !! "search" = None →
  apiKeys w ≠ [] →
  listApiKeys req env w = (Ok listing_failed, w).
Proof.
  intros Ha Hs Hne. unfold listApiKeys. rewrite Ha, Hs. simpl truthy_str. cbv iota.
  unfold bind at 1. unfold ret at 1.
  match goal with
  | |- context [bind (ApiKey.find ?f) ?k] =>
      pose proof (listing_of_found f env w k) as Hl
  end.
  unfold try_catch, listing_failed in *.
  rewrite Hl.
  - rewrite bool_decide_eq_false_2; [reflexivity|].
    intros [_ Hnil]. apply Hne.
    destruct (apiKeys w); [reflexivity|discriminate].
  - intros found Hne'. eexists. unfold bind at 1.
    rewrite mapM_preview_throws; [reflexivity| |apply projected_keys].
    intros Hnil. apply (f_equal length) in Hnil.
    rewrite sort_length, length_fmap in Hnil. now destruct found.
  - reflexivity.
Qed.

(** The same projection stands in [getApiKey]: it answers 404 when no
    record has the [clientId] and 500 otherwise, never with the
    record. *)
Lemma getApiKey_shows_no_record req env w :
  getApiKey req env w =
    match fault env ApiKey_findOne, lookup_clientId (params_clientId req) w with
    | None, None =>
        (Ok (mkResponse 404 (VObj [
           ("success", VBool false);
           ("error", VStr "API key not found")])), w)
    | _, _ =>
        (Ok (mkResponse 500 (VObj [
           ("success", VBool false);
           ("error", VStr "Failed to fetch API key")])), w)
    end.
Proof.
  unfold getApiKey, try_catch. unfold bind at 1. rewrite findOne_run.
  destruct (fault env ApiKey_findOne); [reflexivity|].
  fold (lookup_clientId (params_clientId req) w). unfold clientId_is.
  fold (lookup_clientId (params_clientId req) w).
  now destruct (lookup_clientId (params_clientId req) w).
Qed.

(** A soft revocation keeps the record stored, with [isActive = false]
    and nothing else changed. *)
Lemma soft_revoke_keeps_record req env w d :
  indexes_hold (apiKeys w) = true →
  lookup_clientId (params_clientId req) w = Some d →
  query req !! "hardDelete" ≠ Some "true" →
  fault env ApiKey_findOneAndUpdate = None →
  ∃ w', deleteApiKey req env w = (Ok (revoked false), w') ∧
        lookup_clientId (params_clientId req) w' = Some (set_isActive (Some false) d) ∧
        length (apiKeys w') = length (apiKeys w).
Proof.
  intros Hidx Hd Hsoft Hup. apply indexes_hold_distinct in Hidx.
  rewrite deleteApiKey_run. cbv zeta.
  rewrite bool_decide_eq_false_2 by assumption. rewrite Hup.
  unfold lookup_clientId in *. unfold clientId_is. rewrite Hd.
  rewrite (clashes_ext d) by reflexivity.
  rewrite clashes_stored; [|assumption|now apply find_Some_elem in Hd].
  eexists. split; [reflexivity|]. simpl apiKeys. split.
  - now rewrite find_update_first, Hd.
  - clear. induction (apiKeys w) as [|d0 docs IH]; simpl; [reflexivity|].
    destruct (bool_decide _); simpl; [reflexivity|now rewrite IH].
Qed.

(** A hard revocation removes the record: no lookup by its [clientId]
    or by its [key] finds anything afterwards. *)
Lemma hard_revoke_removes_record req env w d :
  indexes_hold (apiKeys w) = true →
  lookup_clientId (params_clientId req) w = Some d →
  query req !! "hardDelete" = Some "true" →
  fault env ApiKey_findOneAndDelete = None →
  ∃ w', deleteApiKey req env w = (Ok (revoked true), w') ∧
        lookup_clientId (params_clientId req) w' = None ∧
        lookup_key (key d) w' = None.
Proof.
  intros Hidx Hd Hhard Hup. apply indexes_hold_distinct in Hidx.
  rewrite deleteApiKey_run. cbv zeta.
  rewrite bool_decide_eq_true_2 by assumption. rewrite Hup.
  eexists. split; [reflexivity|].
  unfold lookup_clientId, lookup_key in *. simpl apiKeys.
  pose proof (remove_first_leaves_others _ _ _ Hidx Hd) as Hothers.
  pose proof (find_Some_elem _ _ _ Hd) as [_ Hc%bool_decide_eq_true].
  split; apply find_none_Forall; (eapply Forall_impl; [exact Hothers|]);
    intros d' (_ & Hk & Hc'); apply bool_decide_eq_false; congruence.
Qed.

End Listing.

(** C5, where the code departs from it: the record of [acme_1] is
    softly revoked and stays stored with [isActive = false], but the
    admin listing that should show it answers 500, because the listing
    projects [key] out of every record and then reads it for the
    preview. *)
Theorem soft_revoked_record_not_listed :
  let revoke := adminController.deleteApiKey (platform := strict_platform)
                  (revoke_request "acme_1" false) (at_time 10) one_record in
  fst revoke = Ok (revoked false) ∧
  apiKeys (snd revoke) = [ApiKeySchema.set_isActive (Some false) acme_record] ∧
  adminController.listApiKeys (platform := strict_platform)
      list_request (at_time 11) (snd revoke) =
    (Ok (mkResponse 500 (VObj [
       ("success", VBool false);
       ("error", VStr "Failed to list API keys")])), snd revoke).
Proof. repeat split; vm_compute; reflexivity. Qed.

(** ** Rotation *)

Section Rotation.
Import ApiKeySchema adminController.

Lemma generateApiKey_run prefix env w :
  generateApiKey prefix env w = (Ok (generated prefix env), w).
Proof. reflexivity. Qed.

Lemma regenerateApiKey_run req env w :
  fault env ApiKey_findOne = None →
  regenerateApiKey req env w =
    match lookup_clientId (params_clientId req) w with
    | None =>
        (Ok (mkResponse 404 (VObj [
           ("success", VBool false);
           ("error", VStr "API key not found")])), w)
    | Some d =>
        let newKey := generated "sk" env in
        if persists env w (rotated newKey d)
        then (Ok (mkResponse 200 (VObj [
                ("success", VBool true);
                ("message", VStr "API key regenerated successfully");
                ("data", VObj [
                   ("apiKey", VStr newKey);
                   ("clientId", nullable VStr (clientId d));
                   ("name", nullable VStr (name d))]);
                ("warning",
                 VStr "Save this API key securely. The old key is now invalid.")])),
              stored (rotated newKey d) w)
        else (Ok (mkResponse 500 (VObj [
                ("success", VBool false);
                ("error", VStr "Failed to regenerate API key")])), w)
    end.
Proof.
  intros Hfind. unfold regenerateApiKey, try_catch.
  unfold bind at 1. rewrite findOne_run, Hfind.
  fold (lookup_clientId (params_clientId req) w).
  destruct (lookup_clientId (params_clientId req) w) as [d|]; [|reflexivity].
  unfold bind at 1. rewrite generateApiKey_run.
  fold (rotated (generated "sk" env) d).
  unfold bind. rewrite save_run. cbv zeta.
  destruct (persists env w (rotated (generated "sk" env) d)); reflexivity.
Qed.

(** A valid record takes a fresh secret: the write of the rotation goes
    through when the store serves it and no stored record holds the new
    secret. *)
Lemma rotation_persists env w d newKey :
  distinct (apiKeys w) → d ∈ apiKeys w →
  validate d = true → newKey ≠ "" →
  fault env ApiKey_save = None →
  lookup_key (Some newKey) w = None →
  persists env w (rotated newKey d) = true.
Proof.
  intros Hdist Hin Hvalid Hne Hsave Hfresh.
  unfold persists. rewrite Hsave, bool_decide_eq_true_2 by reflexivity.
  assert (Hv : validate (rotated newKey d) = true).
  { unfold validate in *.
    apply andb_prop in Hvalid as [[_ Hn]%andb_prop Hc].
    change (name (rotated newKey d)) with (name d).
    change (clientId (rotated newKey d)) with (clientId d).
    change (key (rotated newKey d)) with (Some newKey).
    rewrite Hn, Hc. unfold required_ok, truthy_str.
    apply String.eqb_neq in Hne. now rewrite Hne. }
  rewrite Hv. simpl. apply negb_true_iff.
  unfold ApiKey.clashes. apply not_true_is_false. intros Hex.
  apply existsb_exists in Hex as (d' & Hd' & Hc).
  apply list_elem_of_In in Hd'.
  apply andb_prop in Hc as [Hid Hkc]. apply negb_true_iff, N.eqb_neq in Hid.
  simpl in Hid, Hkc. apply orb_prop in Hkc as [Hk|Hc].
  - apply bool_decide_eq_true in Hk.
    unfold lookup_key in Hfresh.
    assert (Hall : Forall (fun x => bool_decide (key x = Some newKey) = false)
                          (apiKeys w)).
    { clear -Hfresh. induction (apiKeys w) as [|x l IH]; [constructor|].
      simpl in Hfresh. destruct (bool_decide (key x = Some newKey)) eqn:E;
        [discriminate|]. constructor; [exact E|now apply IH]. }
    rewrite Forall_forall in Hall. specialize (Hall d' Hd').
    apply bool_decide_eq_false in Hall. contradiction.
  - apply bool_decide_eq_true in Hc.
    pose proof (clashes_stored d _ Hdist Hin) as Hno.
    destruct (clashes_false_inv d _ d' Hno Hd' Hid) as [_ Hcc]. contradiction.
Qed.

(** C7: regenerating the key of an existing record, with a freshly
    drawn secret, replaces [key] by that secret and resets [usageCount]
    to 0 and [lastUsed] to null; from then on a request that presents
    the previous key is answered 401 INVALID_API_KEY. *)
Theorem regenerate_invalidates_old_key
    (req : Request) (env : Env) (w : World) (d : doc) (oldKey : string) :
  indexes_hold (apiKeys w) = true →
  lookup_clientId (params_clientId req) w = Some d →
  key d = Some oldKey → oldKey ≠ "" →
  validate d = true →
  fault env ApiKey_findOne = None →
  fault env ApiKey_save = None →
  lookup_key (Some (generated "sk" env)) w = None →
  let newKey := generated "sk" env in
  let w' := stored (rotated newKey d) w in
  regenerateApiKey req env w =
    (Ok (mkResponse 200 (VObj [
       ("success", VBool true);
       ("message", VStr "API key regenerated successfully");
       ("data", VObj [
          ("apiKey", VStr newKey);
          ("clientId", nullable VStr (clientId d));
          ("name", nullable VStr (name d))]);
       ("warning",
        VStr "Save this API key securely. The old key is now invalid.")])), w')
  ∧ lookup_clientId (params_clientId req) w' = Some (rotated newKey d)
  ∧ key (rotated newKey d) = Some newKey
  ∧ usageCount (rotated newKey d) = Some 0
  ∧ lastUsed (rotated newKey d) = None
  ∧ newKey ≠ oldKey
  ∧ ∀ (auth : Request) (env' : Env),
      presented auth = Some oldKey →
      fault env' ApiKey_findOne = None →
      authenticateApiKey auth env' w' =
        (Ok (Send (mkResponse 401 (VObj [
           ("success", VBool false);
           ("error", VStr "Invalid API key");
           ("code", VStr "INVALID_API_KEY")]))), w').
Proof.
  intros Hidx Hd Hkey Hold Hvalid Hfind Hsave Hfresh newKey w'.
  apply indexes_hold_distinct in Hidx.
  pose proof (find_Some_elem _ _ _ Hd) as [Hin Hcid].
  assert (Hnew : newKey ≠ oldKey).
  { intros Heq. unfold lookup_key in Hfresh.
    assert (Hall : ∀ l, d ∈ l →
              List.find (fun x => bool_decide (key x = Some newKey)) l ≠ None).
    { induction l as [|x l IH]; [now intros ?%not_elem_of_nil|].
      intros [->|Hl]%elem_of_cons; simpl.
      - now rewrite bool_decide_eq_true_2 by congruence.
      - destruct (bool_decide (key x = Some newKey)); [discriminate|now apply IH]. }
    now apply (Hall _ Hin). }
  assert (Hok : persists env w (rotated newKey d) = true).
  { apply rotation_persists; try assumption.
    unfold newKey, generated. simpl. discriminate. }
  repeat split; try reflexivity; try assumption.
  - rewrite regenerateApiKey_run by assumption. rewrite Hd. cbv zeta.
    fold newKey. now rewrite Hok.
  - unfold lookup_clientId, w', stored. simpl apiKeys.
    apply (find_stored _ _ d); try assumption; reflexivity.
  - intros auth env' Hp Hfind'.
    assert (Hgone : lookup_key (Some oldKey) w' = None).
    { unfold lookup_key, w', stored. simpl apiKeys.
      apply find_none_Forall.
      eapply Forall_impl;
        [apply (stored_forgets_key _ d); try assumption; try reflexivity|].
      - simpl. congruence.
      - intros x Hx. apply bool_decide_eq_false. congruence. }
    rewrite authenticateApiKey_run by assumption.
    rewrite first_failure_found.
    + rewrite Hp, Hgone. reflexivity.
    + rewrite Hp. simpl. apply String.eqb_neq in Hold. now rewrite Hold.
Qed.

Lemma regenerate_invalidates_old_key_witness :
  let w' := stored (rotated (generated "sk" (rolling 20)) acme_record) one_record in
  authenticateApiKey (keyed_request acme_key) (at_time 30) w' =
    (Ok (Send (auth_response InvalidKey)), w').
Proof.
  destruct (regenerate_invalidates_old_key (regenerate_request "acme_1")
              (rolling 20) one_record acme_record acme_key)
    as (_ & _ & _ & _ & _ & _ & H);
    [reflexivity | reflexivity | reflexivity | discriminate | reflexivity
    | reflexivity | reflexivity | reflexivity | ].
  apply (H (keyed_request acme_key) (at_time 30)); reflexivity.
Defined.

End Rotation.

(** ** Creation *)

Section Creation.
Import ApiKeySchema adminController.
Context {platform : Platform}.

Lemma path_of_run {A} p (cast : value → Cast A) default raw env w :
  ApiKey.path_of p cast default raw env w = (path_value p cast default raw, w).
Proof.
  unfold ApiKey.path_of, path_value.
  destruct (raw !! p) as [v|]; [|reflexivity].
  unfold of_cast. now destruct (cast v).
Qed.

(** A document that [build] returns holds, path by path, what the casts
    of the raw object yield; and [build] leaves the store alone. *)
Lemma build_inv id raw env w d w' :
  ApiKey.build id raw env w = (Ok d, w') →
  w' = w ∧ _id d = id ∧
  path_value "clientId" castString None raw = Ok (clientId d) ∧
  path_value "rateLimit" castNumber (Some 100) raw = Ok (rateLimit d) ∧
  path_value "isActive" castBoolean (Some true) raw = Ok (isActive d) ∧
  path_value "usageCount" castNumber (Some 0) raw = Ok (usageCount d) ∧
  path_value "key" castString None raw = Ok (key d).
Proof.
  unfold ApiKey.build.
  unfold bind at 1. unfold Date_now, bind at 1, ask, ret at 1.
  repeat (unfold bind at 1; rewrite path_of_run;
          match goal with
          | |- context [path_value ?p ?c ?dflt raw] =>
              destruct (path_value p c dflt raw) eqn:?;
                [|cbv beta iota; intros [=]]
          end).
  unfold ret. intros [= <- <-]. simpl. repeat split; reflexivity.
Qed.

Lemma build_pure id raw env w : snd (ApiKey.build id raw env w) = w.
Proof.
  unfold ApiKey.build.
  unfold bind at 1. unfold Date_now, bind at 1, ask, ret at 1.
  repeat (unfold bind at 1; rewrite path_of_run;
          match goal with
          | |- context [path_value ?p ?c ?dflt raw] =>
              destruct (path_value p c dflt raw) eqn:?; [|reflexivity]
          end).
  reflexivity.
Qed.

Lemma create_inv raw env w d w' :
  ApiKey.create raw env w = (Ok d, w') →
  ApiKey.build (nextId w) raw env w = (Ok d, w) ∧
  validate d = true ∧
  fault env ApiKey_create = None ∧
  ApiKey.clashes d (apiKeys w) = false ∧
  w' = mkWorld (apiKeys w ++ [d]) (rateLimits w) (N.succ (nextId w)).
Proof.
  unfold ApiKey.create. unfold bind at 1, get at 1. unfold bind at 1.
  pose proof (build_pure (nextId w) raw env w) as Hpure.
  destruct (ApiKey.build (nextId w) raw env w) as [[d0|e] w0];
    simpl in Hpure; subst w0; [|intros [=]].
  destruct (validate d0) eqn:Hv;
    [change (negb true) with false | change (negb false) with true];
    cbv iota; [|intros [=]].
  unfold reach, bind, ask, get, put, ret, throw.
  destruct (fault env ApiKey_create); [intros [=]|].
  destruct (ApiKey.clashes d0 (apiKeys w)) eqn:Hc; [intros [=]|].
  intros [= <- <-]. repeat split; assumption.
Qed.

Lemma find_app_last {A} (f : A → bool) (l : list A) (x : A) :
  f x = true → ∃ y, List.find f (l ++ [x]) = Some y.
Proof.
  intros Hx. induction l as [|a l IH]; simpl.
  - rewrite Hx. now eexists.
  - destruct (f a); [now eexists|exact IH].
Qed.

(** A creation that answers 201 has passed the check of the client
    identifier and appended exactly one record, which carries it. *)
Lemma createApiKey_created req env w res w' c :
  body req !! "clientId" = Some (VStr c) →
  createApiKey req env w = (Ok res, w') →
  status res = 201 →
  lookup_clientId c w = None ∧
  ∃ d, clientId d = Some c ∧ validate d = true ∧
       ApiKey.clashes d (apiKeys w) = false ∧ _id d = nextId w ∧
       w' = mkWorld (apiKeys w ++ [d]) (rateLimits w) (N.succ (nextId w)).
Proof.
  intros Hc. unfold createApiKey, try_catch. rewrite Hc.
  destruct (negb (truthy (body req !! "name")) || negb (truthy (Some (VStr c))))
    eqn:Hguard.
  { unfold ret. now intros [= <- <-]. }
  unfold bind at 1. change (default VNull (Some (VStr c))) with (VStr c).
  rewrite castString_str.
  unfold of_cast, ret at 1. cbv beta iota.
  unfold bind at 1. rewrite findOne_run.
  destruct (fault env ApiKey_findOne); [unfold ret; now intros [= <- <-]|].
  fold (lookup_clientId c w). unfold clientId_is.
  fold (lookup_clientId c w).
  destruct (lookup_clientId c w) as [existing|]; [unfold ret; now intros [= <- <-]|].
  unfold bind at 1. rewrite generateApiKey_run.
  unfold bind at 1. unfold Date_now, bind at 1, ask, ret at 1.
  unfold bind at 1.
  match goal with
  | |- context [ApiKey.create ?raw env w] =>
      destruct (ApiKey.create raw env w) as [[d|e] w1] eqn:Hcreate;
      [|unfold ret; now intros [= <- <-]];
      assert (Hraw : raw !! "clientId" = Some (VStr c))
  end.
  { destruct (body req !! "name") as [vn|]; [|discriminate Hguard].
    simpl. rewrite lookup_insert_ne, lookup_insert_ne by discriminate.
    apply lookup_insert_eq. }
  apply create_inv in Hcreate as (Hbuild & Hvalid & _ & Hclash & ->).
  apply build_inv in Hbuild as (_ & Hid & Hcid & _).
  unfold path_value in Hcid. rewrite Hraw, castString_str in Hcid.
  injection Hcid as Hcid.
  unfold ret. intros [= <- <-] _. split; [reflexivity|].
  exists d. repeat split; auto.
Qed.

(** C6: when a creation for client [c] has answered 201, a second
    creation for the same [clientId] is answered 400 "Client ID already
    exists" and leaves the store as the first call left it, which is
    the store before the first call with exactly one record, that of
    [c], appended. *)
Theorem duplicate_client_rejected
    (req1 req2 : Request) (env1 env2 : Env) (w w1 : World)
    (res1 : Response) (c : string) :
  body req1 !! "clientId" = Some (VStr c) →
  createApiKey req1 env1 w = (Ok res1, w1) →
  status res1 = 201 →
  body req2 !! "clientId" = Some (VStr c) →
  truthy (body req2 !! "name") = true →
  fault env2 ApiKey_findOne = None →
  createApiKey req2 env2 w1 =
    (Ok (mkResponse 400 (VObj [
       ("success", VBool false);
       ("error", VStr "Client ID already exists")])), w1)
  ∧ ∃ d, apiKeys w1 = (apiKeys w ++ [d])%list ∧
         clientId d = Some c ∧
         lookup_clientId c w = None ∧
         rateLimits w1 = rateLimits w.
Proof.
  intros Hc1 Hrun Hcreated Hc2 Hname Hfind.
  assert (Htruthy : truthy (Some (VStr c)) = true).
  { revert Hrun. unfold createApiKey, try_catch. rewrite Hc1.
    destruct (truthy (Some (VStr c))); [reflexivity|].
    rewrite orb_true_r. unfold ret. intros [= <- <-]. discriminate. }
  destruct (createApiKey_created _ _ _ _ _ _ Hc1 Hrun Hcreated)
    as (Hnone & d & Hcid & _ & _ & _ & ->).
  split.
  - unfold createApiKey, try_catch. rewrite Hc2, Hname, Htruthy.
    change (negb true || negb true) with false. cbv iota.
    unfold bind at 1. change (default VNull (Some (VStr c))) with (VStr c).
  rewrite castString_str.
    unfold of_cast, ret at 1. cbv beta iota.
    unfold bind at 1. rewrite findOne_run, Hfind. cbn [apiKeys].
    destruct (find_app_last (clientId_is (Some c)) (apiKeys w) d) as [y ->].
    + unfold clientId_is. now rewrite Hcid, bool_decide_eq_true_2.
    + reflexivity.
  - exists d. repeat split; auto.
Qed.

End Creation.

Lemma duplicate_client_rejected_witness :
  adminController.createApiKey (platform := strict_platform)
      (create_request 50) (at_time 7) one_record =
    (Ok (mkResponse 400 (VObj [
       ("success", VBool false);
       ("error", VStr "Client ID already exists")])), one_record).
Proof.
  apply (proj1 (duplicate_client_rejected (platform := strict_platform)
                  (create_request 2) (create_request 50)
                  (at_time 0) (at_time 7) no_records one_record
                  acme_created "acme_1"
                  eq_refl eq_refl eq_refl eq_refl eq_refl eq_refl)).
Defined.

(** ** Creation, run forward *)

Section CreationRun.
Import ApiKeySchema adminController.
Context {platform : Platform}.

Lemma length_append (s s' : string) :
  String.length (s +:+ s') = (String.length s + String.length s')%nat.
Proof. induction s as [|c s IH]; simpl; [reflexivity|now rewrite IH]. Qed.

Lemma build_run id raw env w k n c a r u l ca e ips ce no :
  path_value "key" castString None raw = Ok k →
  path_value "name" castString None raw = Ok n →
  path_value "clientId" castString None raw = Ok c →
  path_value "isActive" castBoolean (Some true) raw = Ok a →
  path_value "rateLimit" castNumber (Some 100) raw = Ok r →
  path_value "usageCount" castNumber (Some 0) raw = Ok u →
  path_value "lastUsed" castDate None raw = Ok l →
  path_value "createdAt" castDate (Some (now env)) raw = Ok ca →
  path_value "expiresAt" castDate None raw = Ok e →
  path_value "allowedIPs" castStringArray (Some []) raw = Ok ips →
  path_value "contactEmail" castString None raw = Ok ce →
  path_value "notes" castString None raw = Ok no →
  ApiKey.build id raw env w =
    (Ok (mkDoc id k (trim <$> n) c a r u l ca e ips ce no), w).
Proof.
  intros. unfold ApiKey.build.
  unfold bind at 1. unfold Date_now, bind at 1, ask, ret at 1.
  repeat (unfold bind at 1; rewrite path_of_run;
          match goal with H : _ = Ok _ |- _ => rewrite H; clear H end).
  reflexivity.
Qed.

Lemma create_run raw env w d :
  ApiKey.build (nextId w) raw env w = (Ok d, w) →
  validate d = true →
  fault env ApiKey_create = None →
  ApiKey.clashes d (apiKeys w) = false →
  ApiKey.create raw env w = (Ok d, appended d w).
Proof.
  intros Hbuild Hvalid Hup Hclash.
  unfold ApiKey.create. unfold bind at 1, get at 1. unfold bind at 1.
  rewrite Hbuild, Hvalid. change (negb true) with false. cbv iota.
  unfold reach, bind, ask, get, put, ret, throw. now rewrite Hup, Hclash.
Qed.

Lemma clashes_fresh d docs :
  List.find (fun x => bool_decide (key x = key d)) docs = None →
  List.find (fun x => bool_decide (clientId x = clientId d)) docs = None →
  ApiKey.clashes d docs = false.
Proof.
  intros Hk Hc. unfold ApiKey.clashes.
  induction docs as [|d0 docs IH]; [reflexivity|]. simpl in *.
  destruct (bool_decide (key d0 = key d)); [discriminate|].
  destruct (bool_decide (clientId d0 = clientId d)); [discriminate|].
  rewrite andb_false_r. now apply IH.
Qed.

Lemma generated_nonempty prefix env : generated prefix env ≠ "".
Proof.
  unfold generated. intros H. apply (f_equal String.length) in H.
  rewrite !length_append in H. simpl in H. lia.
Qed.

Lemma truthy_str_spec s : truthy_str (Some s) = true ↔ s ≠ "".
Proof.
  simpl. rewrite negb_true_iff. apply String.eqb_neq.
Qed.

(** What [createApiKey] does with a body that gives [name] and
    [clientId], and possibly [rateLimit] and [expiresInDays] as
    numbers, the expiry staying within the range of dates, for a
    client that the store does not know. *)
Lemma createApiKey_run req env w n c limit days :
  body req !! "name" = Some (VStr n) → n ≠ "" → trim n ≠ "" →
  body req !! "clientId" = Some (VStr c) → c ≠ "" →
  body req !! "rateLimit" = VNum <$> limit →
  body req !! "expiresInDays" = VNum <$> days →
  body req !! "allowedIPs" = None →
  body req !! "contactEmail" = None →
  body req !! "notes" = None →
  (∀ m, days = Some m → m ≠ 0 →
        - maxTime ≤ now env + m * 24 * 60 * 60 * 1000 ≤ maxTime) →
  lookup_clientId c w = None →
  lookup_key (Some (generated "sk" env)) w = None →
  fault env ApiKey_findOne = None →
  fault env ApiKey_create = None →
  let d := issued (nextId w) (generated "sk" env) n c limit days (now env) in
  createApiKey req env w = (Ok (created (generated "sk" env) d), appended d w).
Proof.
  intros Hn Hn0 Hnt Hc Hc0 Hlimit Hdays Hips Hmail Hnotes Hrange Hfree Hkey
         Hfind Hup d.
  apply String.eqb_neq in Hn0 as Hn1. apply String.eqb_neq in Hc0 as Hc1.
  unfold createApiKey, try_catch.
  rewrite Hn, Hc, Hlimit, Hdays, Hips, Hmail, Hnotes.
  cbn [truthy]. rewrite Hn1, Hc1. cbn [negb orb].
  unfold bind at 1. change (default VNull (Some (VStr c))) with (VStr c).
  rewrite castString_str. unfold of_cast, ret at 1. cbv beta iota.
  unfold bind at 1. rewrite findOne_run, Hfind.
  unfold clientId_is. fold (lookup_clientId c w). rewrite Hfree.
  unfold bind at 1. rewrite generateApiKey_run.
  unfold bind at 1. unfold Date_now, bind at 1, ask, ret at 1.
  unfold bind at 1.
  set (expiry := if truthy (VNum <$> days) then _ else VNull).
  assert (Hexpiry : castDate expiry = Some (expiresAt d)).
  { unfold expiry, d, issued. destruct days as [m|]; simpl.
    - destruct (m =? 0) eqn:E; simpl; [apply castDate_null|].
      rewrite toNumber_num. unfold new_Date. cbn [fmap option_fmap option_map].
      apply Z.eqb_neq in E. destruct (Hrange m eq_refl E) as [Hlo Hhi].
      apply Z.leb_le in Hlo, Hhi. rewrite Hlo, Hhi. apply castDate_date.
    - apply castDate_null. }
  clearbody expiry.
  rewrite (create_run _ env w d); [reflexivity| | | assumption |].
  - cbn [prop app list_to_map foldr uncurry curry fst snd].
    unfold d, issued.
    change (Some (trim n)) with (trim <$> Some n).
    apply build_run; unfold path_value;
      repeat first [ rewrite lookup_insert_eq
                   | rewrite lookup_insert_ne by discriminate ];
      rewrite ?lookup_empty;
      rewrite ?castString_str; try reflexivity.
    + destruct limit; simpl; now rewrite castNumber_num.
    + now rewrite Hexpiry.
    + change (default (VArr []) None) with (VStrs []).
      now rewrite castStringArray_strs.
  - unfold validate, required_ok, d, issued. cbn [key name clientId].
    rewrite !(proj2 (truthy_str_spec _)); auto using generated_nonempty.
  - apply clashes_fresh; assumption.
Qed.

End CreationRun.

(** ** Updates *)

Section Updates.
Import ApiKeySchema adminController.
Context {platform : Platform}.

(** The loop over the allow-list copies the listed fields of the body
    and nothing else. *)
Lemma collect_fold_lookup (body : gmap string value) (fields : list string)
    (acc : gmap string value) (p : string) :
  fold_left (fun updates field =>
               match body !! field with
               | Some v => <[field := v]> updates
               | None => updates
               end) fields acc !! p =
    if bool_decide (p ∈ fields)
    then match body !! p with Some v => Some v | None => acc !! p end
    else acc !! p.
Proof.
  revert acc. induction fields as [|a fields IH]; intros acc; cbn [fold_left].
  - now rewrite bool_decide_eq_false_2 by apply not_elem_of_nil.
  - rewrite IH. destruct (decide (p = a)) as [->|Hne].
    + rewrite (bool_decide_eq_true_2 (a ∈ a :: fields)) by left.
      destruct (body !! a) as [v|] eqn:Ha.
      * rewrite lookup_insert_eq. now destruct (bool_decide (a ∈ fields)).
      * now destruct (bool_decide (a ∈ fields)).
    + assert (Hstep : (match body !! a with
                       | Some v => <[a := v]> acc
                       | None => acc
                       end) !! p = acc !! p).
      { destruct (body !! a); [now apply lookup_insert_ne|reflexivity]. }
      rewrite Hstep.
      destruct (bool_decide (p ∈ fields)) eqn:E.
      * apply bool_decide_eq_true in E.
        now rewrite (bool_decide_eq_true_2 (p ∈ a :: fields)) by now right.
      * apply bool_decide_eq_false in E.
        rewrite (bool_decide_eq_false_2 (p ∈ a :: fields)); [reflexivity|].
        now intros [?|?]%elem_of_cons.
Qed.

Lemma collect_updates_lookup body p :
  collect_updates body !! p =
    if bool_decide (p ∈ allowedUpdates) then body !! p else None.
Proof.
  unfold collect_updates. rewrite collect_fold_lookup, lookup_empty.
  destruct (bool_decide (p ∈ allowedUpdates)); [|reflexivity].
  now destruct (body !! p).
Qed.

Lemma collect_updates_ext body body' :
  (∀ f, f ∈ allowedUpdates → body' !! f = body !! f) →
  collect_updates body' = collect_updates body.
Proof.
  intros Hsame. apply map_eq. intros p. rewrite !collect_updates_lookup.
  destruct (bool_decide (p ∈ allowedUpdates)) eqn:E; [|reflexivity].
  apply bool_decide_eq_true in E. now apply Hsame.
Qed.

(** An update object without the protected paths yields a change that
    keeps them. *)
Lemma cast_update_keeps rv update env w change w' :
  ApiKey.cast_update rv update env w = (Ok change, w') →
  update !! "key" = None → update !! "clientId" = None →
  update !! "usageCount" = None → update !! "lastUsed" = None →
  update !! "createdAt" = None →
  ∀ d, same_protected_fields d (change d).
Proof.
  intros Hrun Hkey Hcid Huse Hlast Hcreated. revert Hrun.
  unfold ApiKey.cast_update. unfold bind at 1. unfold ret at 1.
  repeat (unfold bind at 1; rewrite set_path_run; unfold path_change at 1;
          rewrite ?Hkey, ?Hcid, ?Huse, ?Hlast, ?Hcreated;
          repeat match goal with
          | |- context [match ?m !! ?p with _ => _ end] =>
              destruct (m !! p)
          | |- context [match ?c ?v with Some _ => _ | None => _ end] =>
              destruct (c v)
          | |- context [if ?r && negb ?b then _ else _] =>
              destruct (r && negb b)
          end; cbv beta iota; try solve [intros [=]]).
  all: rewrite set_path_run; unfold path_change.
  all: repeat match goal with
          | |- context [match ?m !! ?p with _ => _ end] =>
              destruct (m !! p)
          | |- context [match ?c ?v with Some _ => _ | None => _ end] =>
              destruct (c v)
          | |- context [if ?r && negb ?b then _ else _] =>
              destruct (r && negb b)
          end.
  all: try solve [intros [=]].
  all: intros [= <- <-].
  all: intros d; repeat split; reflexivity.
Qed.

Lemma update_first_Forall2 (R : doc → doc → Prop) f change docs :
  (∀ d, R d d) → (∀ d, R d (change d)) →
  Forall2 R docs (ApiKey.update_first f change docs).
Proof.
  intros Hrefl Hchange. induction docs as [|d docs IH]; simpl; [constructor|].
  destruct (f d); constructor; auto.
  clear IH. induction docs; constructor; auto.
Qed.

Lemma same_protected_fields_refl d : same_protected_fields d d.
Proof. now repeat split. Qed.

Lemma protected_not_allowed body :
  collect_updates body !! "key" = None ∧
  collect_updates body !! "clientId" = None ∧
  collect_updates body !! "usageCount" = None ∧
  collect_updates body !! "lastUsed" = None ∧
  collect_updates body !! "createdAt" = None.
Proof. rewrite !collect_updates_lookup. repeat split; reflexivity. Qed.

(** The store after an update: as it was, or with the first record of
    the client changed in place by a change that keeps the protected
    fields and does not clash. *)
Lemma updateApiKey_world req env w :
  ∃ o : option (doc → doc),
    snd (updateApiKey req env w) =
      match o with
      | None => w
      | Some change =>
          mkWorld (ApiKey.update_first
                     (clientId_is (Some (params_clientId req))) change (apiKeys w))
                  (rateLimits w) (nextId w)
      end
    ∧ ∀ change, o = Some change →
        (∀ d, same_protected_fields d (change d)) ∧
        (∀ d, List.find (clientId_is (Some (params_clientId req))) (apiKeys w)
                = Some d →
              ApiKey.clashes (change d) (apiKeys w) = false).
Proof.
  unfold updateApiKey, try_catch. unfold bind at 1.
  rewrite findOneAndUpdate_run.
  destruct (ApiKey.cast_update true (collect_updates (body req)) env w)
    as [[change|e] w0] eqn:Hcast; simpl fst.
  2:{ exists None. split; [reflexivity|discriminate]. }
  destruct (fault env ApiKey_findOneAndUpdate).
  { exists None. split; [reflexivity|discriminate]. }
  destruct (List.find _ (apiKeys w)) as [d|] eqn:Hfound.
  2:{ exists None. split; [reflexivity|discriminate]. }
  destruct (ApiKey.clashes (change d) (apiKeys w)) eqn:Hclash.
  { exists None. split; [reflexivity|discriminate]. }
  exists (Some change). split; [reflexivity|].
  intros ? [= <-]. split.
  - destruct (protected_not_allowed (body req)) as (H1 & H2 & H3 & H4 & H5).
    now apply (cast_update_keeps _ _ _ _ _ _ Hcast).
  - now intros d' [= <-].
Qed.

(** C8: an update changes nothing but the fields of the allow-list.
    The answer and the resulting store depend on the body only through
    the seven listed fields, so that any other supplied field, such as
    [key], [clientId], [usageCount] or [createdAt], is ignored without
    an error; and whatever the body, every stored record keeps its
    [_id], [key], [clientId], [usageCount], [lastUsed] and
    [createdAt], and the ledger is untouched. *)
Theorem update_only_allowed_fields (req : Request) (env : Env) (w : World) :
  (∀ req', params_clientId req' = params_clientId req →
           (∀ f, f ∈ allowedUpdates → body req' !! f = body req !! f) →
           updateApiKey req' env w = updateApiKey req env w)
  ∧ (∀ f v, f ∉ allowedUpdates →
            updateApiKey (with_body (<[f := v]> (body req)) req) env w =
              updateApiKey req env w)
  ∧ Forall2 same_protected_fields
            (apiKeys w) (apiKeys (snd (updateApiKey req env w)))
  ∧ rateLimits (snd (updateApiKey req env w)) = rateLimits w.
Proof.
  assert (Hext : ∀ req', params_clientId req' = params_clientId req →
            (∀ f, f ∈ allowedUpdates → body req' !! f = body req !! f) →
            updateApiKey req' env w = updateApiKey req env w).
  { intros req' Hp Hb. unfold updateApiKey.
    now rewrite Hp, (collect_updates_ext (body req) (body req') Hb). }
  split; [exact Hext|]. split.
  { intros f v Hf. apply Hext; [reflexivity|].
    intros g Hg. simpl. apply lookup_insert_ne. congruence. }
  destruct (updateApiKey_world req env w) as (o & -> & Ho).
  destruct o as [change|]; simpl.
  - split; [|reflexivity].
    apply update_first_Forall2; [apply same_protected_fields_refl|].
    now apply (Ho change).
  - split; [|reflexivity].
    apply Forall_Forall2_diag, Forall_forall. intros d _.
    apply same_protected_fields_refl.
Qed.

End Updates.

Lemma update_only_allowed_fields_witness :
  let req := update_request "acme_1" {[ "rateLimit" := VNum 5 ]} in
  adminController.updateApiKey (platform := strict_platform)
      (with_body (<[ "key" := VStr "sk_chosen" ]> (body req)) req)
      (at_time 9) one_record =
    adminController.updateApiKey (platform := strict_platform)
      req (at_time 9) one_record.
Proof.
  intros req.
  apply (proj1 (proj2 (update_only_allowed_fields (platform := strict_platform)
                         req (at_time 9) one_record))).
  intros Hin. repeat (apply elem_of_cons in Hin as [Hin|Hin]; [discriminate|]).
  now apply not_elem_of_nil in Hin.
Defined.

(** The allow-list is what protects the key: the same update object
    handed to the model without the filter would replace it, while the
    handler stores the new limit and keeps the key. *)
Example unfiltered_update_replaces_key :
  apiKeys (snd (ApiKey.findOneAndUpdate (platform := strict_platform)
                  (adminController.clientId_is (Some "acme_1"))
                  {[ "key" := VStr "sk_chosen"; "rateLimit" := VNum 5 ]}
                  true true (at_time 9) one_record)) =
    [ApiKeySchema.set_rateLimit (Some 5)
       (ApiKeySchema.set_key (Some "sk_chosen") acme_record)]
  ∧ apiKeys (snd (adminController.updateApiKey (platform := strict_platform)
                    (update_request "acme_1"
                       {[ "key" := VStr "sk_chosen"; "rateLimit" := VNum 5 ]})
                    (at_time 9) one_record)) =
    [ApiKeySchema.set_rateLimit (Some 5) acme_record].
Proof. split; vm_compute; reflexivity. Qed.

(** ** Limits that are not positive *)

Section Limits.
Import ApiKeySchema adminController.
Context {platform : Platform}.

(** Creation stores the limit it is given. *)
Lemma create_keeps_rateLimit raw env w d w' limit :
  raw !! "rateLimit" = Some (VNum limit) →
  ApiKey.create raw env w = (Ok d, w') →
  rateLimit d = Some limit.
Proof.
  intros Hraw Hcreate.
  apply create_inv in Hcreate as (Hbuild & _).
  apply build_inv in Hbuild as (_ & _ & _ & Hlimit & _).
  unfold path_value in Hlimit. rewrite Hraw, castNumber_num in Hlimit.
  now injection Hlimit.
Qed.

(** C9, as the code has it: no check stands between a limit of zero
    or less and the quota step, and the quota step refuses such a
    client whenever it can count.  A creation that gives such a limit
    answers 201 and stores the limit as given; the quota step answers
    a request of such a client with 429 RATE_LIMIT_EXCEEDED exactly
    when the count of the window is served, since the count is never
    negative, and hands the request on, unlogged, exactly when the
    count is not served; so a request that presents the key of such a
    client is answered by the gateway whenever the ledger counts, and
    gets through it only when the ledger does not. *)
Theorem nonpositive_limit_refused_when_counted (limit : Z) :
  limit ≤ 0 →
  (∀ req env w n c,
     body req !! "name" = Some (VStr n) → n ≠ "" → trim n ≠ "" →
     body req !! "clientId" = Some (VStr c) → c ≠ "" →
     body req !! "rateLimit" = Some (VNum limit) →
     body req !! "expiresInDays" = None →
     body req !! "allowedIPs" = None →
     body req !! "contactEmail" = None →
     body req !! "notes" = None →
     lookup_clientId c w = None →
     lookup_key (Some (generated "sk" env)) w = None →
     fault env ApiKey_findOne = None →
     fault env ApiKey_create = None →
     ∃ res d,
       createApiKey req env w =
         (Ok res, mkWorld (apiKeys w ++ [d]) (rateLimits w) (N.succ (nextId w)))
       ∧ status res = 201
       ∧ clientId d = Some c
       ∧ rateLimit d = Some limit)
  ∧ (∀ req client env w,
       apiClient req = Some client →
       client_rateLimit client = Some limit →
       rateLimitByApiKey req env w =
         match fault env RateLimit_countDocuments with
         | None =>
             (Ok (Send (mkResponse 429 (VObj [
                ("success", VBool false);
                ("error", VStr "Rate limit exceeded");
                ("code", VStr "RATE_LIMIT_EXCEEDED");
                ("limit", VNum limit);
                ("retryAfter", VNum 3600)]))), w)
         | Some _ => (Ok (Next req), w)
         end)
  ∧ (∀ req env w d,
       lookup_key (presented req) w = Some d →
       rateLimit d = Some limit →
       (fault env RateLimit_countDocuments = None →
        ∃ res w', serviceGateway req env w = (Ok (Send res), w'))
       ∧ (∀ req' w',
            serviceGateway req env w = (Ok (Next req'), w') →
            fault env RateLimit_countDocuments ≠ None ∧
            rateLimits w' = rateLimits w)).
Proof.
  intros Hlimit.
  assert (Hquota : ∀ req client env w,
            apiClient req = Some client →
            client_rateLimit client = Some limit →
            rateLimitByApiKey req env w =
              match fault env RateLimit_countDocuments with
              | None => (Ok (Send (rate_limit_exceeded (Some limit))), w)
              | Some _ => (Ok (Next req), w)
              end).
  { intros req client env w Hc Hl.
    destruct (fault env RateLimit_countDocuments) as [e|] eqn:Hcount;
      [now apply (rateLimitByApiKey_uncounted req env w e)|].
    rewrite (rateLimitByApiKey_counted req client env w Hc Hcount). cbv zeta.
    rewrite Hl. unfold number_of. simpl default.
    pose proof (window_count_nonneg (client_clientId client) (now env)
                  (rateLimits w)) as Hpos.
    destruct (Z.leb_spec limit
                (window_count (client_clientId client) (now env) (rateLimits w)));
      [reflexivity|lia]. }
  split; [|split].
  - intros req env w n c Hn Hn0 Hnt Hc Hc0 Hl Hdays Hips Hmail Hnotes
           Hfree Hkey Hfind Hup.
    eexists _, _. split; [|split; [|split]].
    + apply (createApiKey_run req env w n c (Some limit) None);
        try assumption. intros m [=].
    + reflexivity.
    + reflexivity.
    + reflexivity.
  - exact Hquota.
  - intros req env w d Hd Hl.
    assert (Hgate : ∃ flow w1,
              authenticateApiKey req env w = (Ok flow, w1) ∧
              rateLimits w1 = rateLimits w ∧
              ∀ req1, flow = Next req1 →
                      apiClient req1 = Some (identity_of d)).
    { destruct (truthy_str (presented req)) eqn:Hp.
      2:{ assert (Hmissing : authenticateApiKey req env w =
                               (Ok (Send (auth_response MissingKey)), w)).
          { unfold authenticateApiKey, try_catch. fold (presented req).
            now rewrite Hp. }
          rewrite Hmissing. eexists _, _. split; [reflexivity|]. split; [reflexivity|].
          intros ? [=]. }
      destruct (fault env ApiKey_findOne) as [e|] eqn:Hfind.
      { rewrite (authenticateApiKey_unreachable req env w e) by assumption.
        eexists _, _. split; [reflexivity|]. split; [reflexivity|].
        intros ? [=]. }
      rewrite authenticateApiKey_run by assumption. rewrite Hd.
      destruct (first_failure req (now env) w).
      { eexists _, _. split; [reflexivity|]. split; [reflexivity|].
        intros ? [=]. }
      destruct (persists env w (touched (now env) d)).
      - eexists _, _. split; [reflexivity|]. split; [reflexivity|].
        now intros ? [= <-].
      - eexists _, _. split; [reflexivity|]. split; [reflexivity|].
        intros ? [=]. }
    destruct Hgate as (flow & w1 & Hrun & Hledger & Hid).
    unfold serviceGateway, bind. rewrite Hrun.
    destruct flow as [res|req1].
    { split; [eauto|]. intros ? ? [=]. }
    rewrite (Hquota req1 (identity_of d) env w1 (Hid req1 eq_refl) Hl).
    destruct (fault env RateLimit_countDocuments) as [e|].
    + split; [discriminate|]. intros ? ? [= <- <-]. now split.
    + split; [eauto|]. intros ? ? [=].
Qed.

End Limits.

Lemma nonpositive_limit_refused_when_counted_witness :
  ∃ res w',
    serviceGateway (keyed_request acme_key) (at_time 10) muted_world =
      (Ok (Send res), w').
Proof.
  destruct (nonpositive_limit_refused_when_counted (platform := strict_platform) 0)
    as (_ & _ & H); [lia|].
  apply (H (keyed_request acme_key) (at_time 10) muted_world muted_record);
    reflexivity.
Defined.

(** C9, as it was stated, fails: the client below has a limit of zero,
    the ledger cannot count, and the request that presents its key
    passes the quota step and the whole gateway, with its use counted
    on the record and no event logged. *)
Lemma nonpositive_limit_admitted_when_uncounted :
  ApiKeySchema.rateLimit muted_record = Some 0 ∧
  lookup_key (presented (keyed_request acme_key)) muted_world
    = Some muted_record ∧
  rateLimitByApiKey
      (set_apiClient (identity_of muted_record) (keyed_request acme_key))
      (failing RateLimit_countDocuments 10) muted_world
    = (Ok (Next (set_apiClient (identity_of muted_record)
                   (keyed_request acme_key))), muted_world) ∧
  serviceGateway (keyed_request acme_key)
      (failing RateLimit_countDocuments 10) muted_world
    = (Ok (Next (set_apiClient (identity_of muted_record)
                   (keyed_request acme_key))),
       stored (touched 10 muted_record) muted_world).
Proof. repeat split; vm_compute; reflexivity. Qed.

(** A creation with a limit of zero is accepted, and the key it issues
    is answered 429 on its first request. *)
Example zero_limit_is_created_and_muted :
  let created := adminController.createApiKey (platform := strict_platform)
                   (create_request 0) (at_time 0) no_records in
  status <$> (match fst created with Ok res => Some res | Throw _ => None end)
    = Some 201 ∧
  snd created = muted_world ∧
  fst (serviceGateway (keyed_request acme_key) (at_time 10) muted_world) =
    Ok (Send (rate_limit_exceeded (Some 0))).
Proof. repeat split; vm_compute; reflexivity. Qed.

(** ** The unique indexes are an invariant *)

Section Invariant.
Import ApiKeySchema adminController.
Context {platform : Platform}.

Lemma differs_sym d d' : differs d d' → differs d' d.
Proof. intros (Hi & Hk & Hc). repeat split; congruence. Qed.

Lemma update_first_Forall (P : doc → Prop) f change docs :
  Forall P docs →
  (∀ d, List.find f docs = Some d → P (change d)) →
  Forall P (ApiKey.update_first f change docs).
Proof.
  induction 1 as [|d docs Hd Hdocs IH]; simpl; [constructor|].
  intros Hc. destruct (f d) eqn:E.
  - constructor; [now apply Hc|assumption].
  - constructor; [assumption|now apply IH].
Qed.

Lemma remove_first_Forall (P : doc → Prop) f docs :
  Forall P docs → Forall P (ApiKey.remove_first f docs).
Proof.
  induction 1 as [|d docs Hd Hdocs IH]; simpl; [constructor|].
  destruct (f d); [assumption|now constructor].
Qed.

(** A change in place that keeps the [_id] and does not clash keeps the
    documents distinct. *)
Lemma distinct_update_first f change docs :
  distinct docs →
  (∀ d, List.find f docs = Some d →
        _id (change d) = _id d ∧ ApiKey.clashes (change d) docs = false) →
  distinct (ApiKey.update_first f change docs).
Proof.
  induction docs as [|d0 docs IH]; [easy|].
  intros [Hd0 Hrest] Hchange. simpl in *. destruct (f d0) eqn:E.
  - destruct (Hchange d0 eq_refl) as [Hid Hclash]. split; [|assumption].
    apply Forall_forall. intros x Hx.
    rewrite Forall_forall in Hd0. destruct (Hd0 x Hx) as (Hi & _).
    assert (Hne : _id x ≠ _id (change d0)) by congruence.
    split; [exact Hne|].
    apply (clashes_false_inv _ (d0 :: docs)); [assumption|now right|exact Hne].
  - split.
    + apply update_first_Forall; [assumption|].
      intros d Hd. destruct (Hchange d Hd) as [Hid Hclash].
      pose proof (find_Some_elem _ _ _ Hd) as [Hin _].
      rewrite Forall_forall in Hd0. destruct (Hd0 d Hin) as (Hi & _).
      assert (Hne : _id d0 ≠ _id (change d)) by congruence.
      destruct (clashes_false_inv _ (d0 :: docs) d0 Hclash) as [Hk Hc];
        [now left|exact Hne|].
      repeat split; congruence.
    + apply IH; [assumption|].
      intros d Hd. destruct (Hchange d Hd) as [Hid Hclash].
      split; [assumption|now apply clashes_cons_false in Hclash].
Qed.

Lemma distinct_remove_first f docs :
  distinct docs → distinct (ApiKey.remove_first f docs).
Proof.
  induction docs as [|d0 docs IH]; [easy|].
  intros [Hd0 Hrest]. simpl. destruct (f d0); [assumption|].
  split; [now apply remove_first_Forall|now apply IH].
Qed.

Lemma distinct_app_last docs d :
  distinct docs → Forall (fun d' => differs d' d) docs → distinct (docs ++ [d]).
Proof.
  induction docs as [|d0 docs IH]; simpl; [now repeat constructor|].
  intros [Hd0 Hrest] [Hd Hothers]%Forall_cons. split.
  - apply Forall_app. split; [assumption|].
    constructor; [exact Hd|constructor].
  - now apply IH.
Qed.

(** The three ways in which a handler leaves the collection. *)
Lemma well_formed_changed f change w :
  well_formed w →
  (∀ d, List.find f (apiKeys w) = Some d →
        _id (change d) = _id d ∧ ApiKey.clashes (change d) (apiKeys w) = false) →
  well_formed (mkWorld (ApiKey.update_first f change (apiKeys w))
                       (rateLimits w) (nextId w)).
Proof.
  intros [Hdist Hids] Hchange. split; simpl.
  - now apply distinct_update_first.
  - apply update_first_Forall; [assumption|].
    intros d Hd. destruct (Hchange d Hd) as [-> _].
    apply find_Some_elem in Hd as [Hin _].
    rewrite Forall_forall in Hids. now apply Hids.
Qed.

Lemma well_formed_removed f w :
  well_formed w →
  well_formed (mkWorld (ApiKey.remove_first f (apiKeys w))
                       (rateLimits w) (nextId w)).
Proof.
  intros [Hdist Hids]. split; simpl.
  - now apply distinct_remove_first.
  - now apply remove_first_Forall.
Qed.

Lemma well_formed_appended d w :
  well_formed w → _id d = nextId w →
  ApiKey.clashes d (apiKeys w) = false →
  well_formed (mkWorld (apiKeys w ++ [d]) (rateLimits w) (N.succ (nextId w))).
Proof.
  intros [Hdist Hids] Hid Hclash. split; simpl.
  - apply distinct_app_last; [assumption|].
    apply Forall_forall. intros x Hx.
    rewrite Forall_forall in Hids. specialize (Hids x Hx).
    assert (Hne : _id x ≠ _id d) by (rewrite Hid; lia).
    destruct (clashes_false_inv _ _ x Hclash Hx Hne) as [Hk Hc].
    repeat split; congruence.
  - apply Forall_app. split.
    + eapply Forall_impl; [exact Hids|]. simpl. intros; lia.
    + repeat constructor. rewrite Hid. lia.
Qed.

Lemma well_formed_logged ev w : well_formed w → well_formed (log_event ev w).
Proof. now intros [Hdist Hids]. Qed.

Lemma well_formed_stored d w :
  well_formed w → ApiKey.clashes d (apiKeys w) = false →
  well_formed (stored d w).
Proof.
  intros Hwf Hclash. unfold stored.
  apply well_formed_changed; [assumption|].
  intros x [_ Hx]%find_Some_elem. unfold ApiKey.has_id_of in Hx.
  apply N.eqb_eq in Hx. now split.
Qed.

Lemma authenticateApiKey_missing req env w :
  truthy_str (presented req) = false →
  authenticateApiKey req env w = (Ok (Send (auth_response MissingKey)), w).
Proof.
  intros Hp. unfold authenticateApiKey, try_catch. fold (presented req).
  now rewrite Hp.
Qed.

Lemma authenticateApiKey_keeps req env w :
  well_formed w → well_formed (snd (authenticateApiKey req env w)).
Proof.
  intros Hwf.
  destruct (truthy_str (presented req)) eqn:Hp;
    [|now rewrite authenticateApiKey_missing].
  destruct (fault env ApiKey_findOne) as [e|] eqn:Hfind;
    [now rewrite (authenticateApiKey_unreachable req env w e)|].
  rewrite authenticateApiKey_run by assumption.
  destruct (first_failure req (now env) w); [assumption|].
  destruct (lookup_key (presented req) w) as [d|]; [|assumption].
  destruct (persists env w (touched (now env) d)) eqn:Hok; [|assumption].
  simpl. apply well_formed_stored; [assumption|].
  unfold persists in Hok. apply andb_prop in Hok as [_ Hok].
  now apply negb_true_iff in Hok.
Qed.

Lemma rateLimitByApiKey_keeps req env w :
  well_formed w → well_formed (snd (rateLimitByApiKey req env w)).
Proof.
  intros Hwf.
  destruct (apiClient req) as [client|] eqn:Hc;
    [|now rewrite rateLimitByApiKey_anonymous].
  destruct (fault env RateLimit_countDocuments) as [e|] eqn:Hcount;
    [now rewrite (rateLimitByApiKey_uncounted req env w e)|].
  rewrite (rateLimitByApiKey_counted req client env w Hc Hcount). cbv zeta.
  destruct (_ <=? _); [assumption|].
  destruct (_ && _); [now apply well_formed_logged|assumption].
Qed.

Lemma create_throws raw env w e w' :
  ApiKey.create raw env w = (Throw e, w') → w' = w.
Proof.
  unfold ApiKey.create. unfold bind at 1, get at 1. unfold bind at 1.
  pose proof (build_pure (nextId w) raw env w) as Hpure.
  destruct (ApiKey.build (nextId w) raw env w) as [[d0|e0] w0];
    simpl in Hpure; subst w0; [|now intros [= _ <-]].
  destruct (validate d0); simpl; [|now intros [= _ <-]].
  unfold reach, bind, ask, get, put, ret, throw.
  destruct (fault env ApiKey_create); [now intros [= _ <-]|].
  destruct (ApiKey.clashes d0 (apiKeys w)); [now intros [= _ <-]|].
  intros [=].
Qed.

Lemma createApiKey_keeps req env w :
  well_formed w → well_formed (snd (createApiKey req env w)).
Proof.
  intros Hwf. unfold createApiKey, try_catch.
  destruct (negb (truthy (body req !! "name")) ||
            negb (truthy (body req !! "clientId"))); [assumption|].
  unfold bind at 1.
  destruct (castString (default VNull (body req !! "clientId"))) as [wanted|];
    [|assumption].
  unfold of_cast, ret at 1. cbv beta iota.
  unfold bind at 1. rewrite findOne_run.
  destruct (fault env ApiKey_findOne); [assumption|].
  destruct (List.find _ (apiKeys w)); [assumption|].
  unfold bind at 1. rewrite generateApiKey_run.
  unfold bind at 1. unfold Date_now, bind at 1, ask, ret at 1.
  unfold bind at 1.
  match goal with
  | |- context [ApiKey.create ?raw env w] =>
      destruct (ApiKey.create raw env w) as [[d|e] w1] eqn:Hcreate
  end.
  - apply create_inv in Hcreate as (Hbuild & _ & _ & Hclash & ->).
    apply build_inv in Hbuild as (_ & Hid & _).
    simpl. now apply well_formed_appended.
  - apply create_throws in Hcreate as ->. assumption.
Qed.

Lemma updateApiKey_keeps req env w :
  well_formed w → well_formed (snd (updateApiKey req env w)).
Proof.
  intros Hwf. destruct (updateApiKey_world req env w) as (o & -> & Ho).
  destruct o as [change|]; [|assumption].
  destruct (Ho change eq_refl) as [Hkeep Hclash].
  apply well_formed_changed; [assumption|].
  intros d Hd. split; [apply (Hkeep d)|now apply Hclash].
Qed.

Lemma deleteApiKey_keeps req env w :
  well_formed w → well_formed (snd (deleteApiKey req env w)).
Proof.
  intros Hwf. rewrite deleteApiKey_run. cbv zeta.
  destruct (bool_decide _).
  - destruct (fault env ApiKey_findOneAndDelete); [assumption|].
    now apply well_formed_removed.
  - destruct (fault env ApiKey_findOneAndUpdate); [assumption|].
    destruct (List.find _ (apiKeys w)) as [d|] eqn:Hd; [|assumption].
    destruct (ApiKey.clashes _ (apiKeys w)) eqn:Hclash; [assumption|].
    apply well_formed_changed; [assumption|].
    intros d' Hd'. rewrite Hd in Hd'. injection Hd' as <-. now split.
Qed.

Lemma regenerateApiKey_keeps req env w :
  well_formed w → well_formed (snd (regenerateApiKey req env w)).
Proof.
  intros Hwf.
  destruct (fault env ApiKey_findOne) as [e|] eqn:Hfind.
  { unfold regenerateApiKey, try_catch. unfold bind at 1.
    now rewrite findOne_run, Hfind. }
  rewrite regenerateApiKey_run by assumption.
  destruct (lookup_clientId (params_clientId req) w) as [d|]; [|assumption].
  cbv zeta.
  destruct (persists env w (rotated (generated "sk" env) d)) eqn:Hok;
    [|assumption].
  simpl. apply well_formed_stored; [assumption|].
  unfold persists in Hok. apply andb_prop in Hok as [_ Hok].
  now apply negb_true_iff in Hok.
Qed.

(** Every handler keeps the store well formed. *)
Theorem handlers_keep_store_well_formed (req : Request) (env : Env) (w : World) :
  well_formed w →
  well_formed (snd (authenticateApiKey req env w)) ∧
  well_formed (snd (rateLimitByApiKey req env w)) ∧
  well_formed (snd (serviceGateway req env w)) ∧
  well_formed (snd (createApiKey req env w)) ∧
  well_formed (snd (listApiKeys req env w)) ∧
  well_formed (snd (updateApiKey req env w)) ∧
  well_formed (snd (deleteApiKey req env w)) ∧
  well_formed (snd (regenerateApiKey req env w)).
Proof.
  intros Hwf.
  split; [now apply authenticateApiKey_keeps|].
  split; [now apply rateLimitByApiKey_keeps|].
  split.
  { unfold serviceGateway, bind.
    pose proof (authenticateApiKey_keeps req env w Hwf) as Hauth.
    destruct (authenticateApiKey req env w) as [[[res|req']|e] w1];
      simpl in Hauth; try assumption.
    now apply rateLimitByApiKey_keeps. }
  split; [now apply createApiKey_keeps|].
  split.
  { destruct (listApiKeys_shows_no_record req env w) as [b ->]. assumption. }
  split; [now apply updateApiKey_keeps|].
  split; [now apply deleteApiKey_keeps|now apply regenerateApiKey_keeps].
Qed.

End Invariant.

(** The store with no record is well formed, and so is every store that
    the handlers reach from it. *)
Lemma no_records_well_formed : well_formed no_records.
Proof. split; constructor. Qed.

(** * Further properties of the gateway *)

(** ** Issued secrets *)

Section MoreSecrets.

Lemma append_inj_l (p s s' : string) : p +:+ s = p +:+ s' → s = s'.
Proof. induction p as [|c p IH]; simpl; [easy|]. intros [= H]. now apply IH. Qed.

(** X1: [generateApiKey] returns the prefix, an underscore and two hex
    digits for each random byte, so 67 characters for ["sk"] and 32
    bytes; the bytes can be read back from the rendering, and two keys
    with the same prefix are equal only if the random bytes are. *)
Theorem generated_key_shape (prefix : string) (env env' : Env) (w w' : World) :
  generateApiKey prefix env w =
    (Ok (prefix +:+ "_" +:+ to_hex (randomBytes env 32)), w)
  ∧ String.length (generated prefix env) =
      (String.length prefix + 1 + 2 * length (randomBytes env 32))%nat
  ∧ from_hex (to_hex (randomBytes env 32)) = Some (randomBytes env 32)
  ∧ (fst (generateApiKey prefix env w) = fst (generateApiKey prefix env' w') →
     randomBytes env 32 = randomBytes env' 32).
Proof.
  split; [reflexivity|]. split; [|split].
  - unfold generated. rewrite !length_append, to_hex_length. simpl. lia.
  - apply from_hex_to_hex.
  - rewrite !generateApiKey_run. simpl. intros [= H].
    unfold generated in H. apply append_inj_l in H.
    change ("_" +:+ to_hex (randomBytes env 32)
            = "_" +:+ to_hex (randomBytes env' 32)) in H.
    apply append_inj_l in H. now apply to_hex_inj.
Qed.

End MoreSecrets.

(** ** What the gate looks at, and what it leaves behind *)

Section MoreGate.
Import ApiKeySchema.

Lemma first_failure_ext req req' t w :
  presented req = presented req' → address req = address req' →
  first_failure req t w = first_failure req' t w.
Proof.
  intros Hp Ha. unfold first_failure, standing_checks. rewrite Hp.
  assert (Hip : ∀ d, ip_refused req d = ip_refused req' d).
  { intros d. unfold ip_refused. fold (address req) (address req').
    now rewrite Ha. }
  destruct (lookup_key (presented req') w) as [d|]; simpl; [|reflexivity].
  now rewrite Hip.
Qed.

(** X2: the gate reads nothing of a request but the secret that it
    presents and the address that it comes from: two requests that
    agree on these get the same answer, or the same identity, and
    leave the same store, whether the secret came in [X-API-Key] or as
    a bearer token. *)
Theorem gate_reads_secret_and_address (req req' : Request) (env : Env) (w : World) :
  presented req = presented req' →
  address req = address req' →
  verdict (fst (authenticateApiKey req env w)) =
    verdict (fst (authenticateApiKey req' env w))
  ∧ snd (authenticateApiKey req env w) = snd (authenticateApiKey req' env w).
Proof.
  intros Hp Ha.
  destruct (truthy_str (presented req)) eqn:Htruthy.
  2:{ rewrite !authenticateApiKey_missing; [now split| |assumption].
      now rewrite <- Hp. }
  assert (Htruthy' : truthy_str (presented req') = true) by now rewrite <- Hp.
  destruct (fault env ApiKey_findOne) as [e|] eqn:Hfind.
  { rewrite (authenticateApiKey_unreachable req env w e) by assumption.
    rewrite (authenticateApiKey_unreachable req' env w e) by assumption.
    now split. }
  rewrite !authenticateApiKey_run by assumption.
  rewrite (first_failure_ext req req') by assumption. rewrite Hp.
  destruct (first_failure req' (now env) w); [now split|].
  destruct (lookup_key (presented req') w) as [d|]; [|now split].
  destruct (persists env w (touched (now env) d)); now split.
Qed.

Lemma gate_reads_secret_and_address_witness :
  verdict (fst (authenticateApiKey (bearer_request acme_key) (at_time 10) one_record))
    = verdict (fst (authenticateApiKey (keyed_request acme_key) (at_time 10) one_record)).
Proof.
  apply (gate_reads_secret_and_address (bearer_request acme_key)
           (keyed_request acme_key) (at_time 10) one_record);
    reflexivity.
Defined.

(** What a run of the gate comes to. *)
Lemma authenticateApiKey_outcome (req : Request) (env : Env) (w : World) :
  ∃ flow w',
    authenticateApiKey req env w = (Ok flow, w') ∧
    match flow with
    | Send res => w' = w
    | Next req' =>
        ∃ d, lookup_key (presented req) w = Some d ∧
             first_failure req (now env) w = None ∧
             req' = set_apiClient (identity_of d) req ∧
             w' = stored (touched (now env) d) w
    end.
Proof.
  destruct (truthy_str (presented req)) eqn:Htruthy.
  2:{ rewrite authenticateApiKey_missing by assumption. now eexists _, _. }
  destruct (fault env ApiKey_findOne) as [e|] eqn:Hfind.
  { rewrite (authenticateApiKey_unreachable req env w e) by assumption.
    now eexists _, _. }
  rewrite authenticateApiKey_run by assumption.
  destruct (first_failure req (now env) w) eqn:Hfail; [now eexists _, _|].
  destruct (lookup_key (presented req) w) as [d|] eqn:Hd; [|now eexists _, _].
  destruct (persists env w (touched (now env) d)); [|now eexists _, _].
  eexists _, _. split; [reflexivity|]. now exists d.
Qed.

(** X3: the gate never throws, and it admits only what has passed
    every check: when it answers, the answer is a 401, a 403 or a 500
    and the store is as it was, so that no refused request is counted;
    when it hands the request on, the secret resolved to a record with
    no failing check, the request carries the identity of that record
    and is otherwise unchanged, and the record has been written back
    with its counter raised. *)
Theorem gate_admits_only_checked_requests (req : Request) (env : Env) (w : World) :
  ∃ flow w',
    authenticateApiKey req env w = (Ok flow, w') ∧
    match flow with
    | Send res =>
        w' = w ∧ (status res = 401 ∨ status res = 403 ∨ status res = 500)
    | Next req' =>
        ∃ d, lookup_key (presented req) w = Some d ∧
             first_failure req (now env) w = None ∧
             req' = set_apiClient (identity_of d) req ∧
             w' = stored (touched (now env) d) w
    end.
Proof.
  destruct (truthy_str (presented req)) eqn:Htruthy.
  2:{ rewrite authenticateApiKey_missing by assumption.
      eexists _, _. split; [reflexivity|]. split; [reflexivity|now left]. }
  destruct (fault env ApiKey_findOne) as [e|] eqn:Hfind.
  { rewrite (authenticateApiKey_unreachable req env w e) by assumption.
    eexists _, _. split; [reflexivity|]. split; [reflexivity|now right; right]. }
  rewrite authenticateApiKey_run by assumption.
  destruct (first_failure req (now env) w) as [f|] eqn:Hfail.
  { eexists _, _. split; [reflexivity|]. split; [reflexivity|].
    destruct f; cbn; tauto. }
  destruct (lookup_key (presented req) w) as [d|] eqn:Hd.
  2:{ eexists _, _. split; [reflexivity|]. split; [reflexivity|now left]. }
  destruct (persists env w (touched (now env) d)).
  - eexists _, _. split; [reflexivity|]. now exists d.
  - eexists _, _. split; [reflexivity|]. split; [reflexivity|now right; right].
Qed.

(** Writing back a record that the filter does not select, over one
    that it does not select either, is not seen by the filter. *)
Lemma find_stored_other (f : doc → bool) docs d d' :
  distinct docs → d ∈ docs → _id d' = _id d →
  f d = false → f d' = false →
  List.find f (ApiKey.update_first (ApiKey.has_id_of d') (fun _ => d') docs)
    = List.find f docs.
Proof.
  intros Hdist Hin Hid Hf Hf'.
  induction docs as [|d0 docs IH]; [reflexivity|].
  destruct Hdist as [Hd0 Hrest]. simpl. unfold ApiKey.has_id_of at 1.
  rewrite Forall_forall in Hd0.
  apply elem_of_cons in Hin as [->|Hin].
  - rewrite Hid, N.eqb_refl. simpl. now rewrite Hf, Hf'.
  - destruct (Hd0 d Hin) as (Hi & _).
    rewrite Hid. apply not_eq_sym, N.eqb_neq in Hi. rewrite Hi. simpl.
    destruct (f d0); [reflexivity|now apply IH].
Qed.

Lemma length_update_first f change (docs : list doc) :
  length (ApiKey.update_first f change docs) = length docs.
Proof.
  induction docs as [|d docs IH]; simpl; [reflexivity|].
  destruct (f d); simpl; [reflexivity|now rewrite IH].
Qed.

(** X4: an admitted request is counted once, on the record of its key
    and nowhere else: in a well-formed store that record comes back
    with [usageCount] raised by one and [lastUsed] set to the clock,
    every lookup by another key finds what it found before, no record
    is added or removed, and the ledger is not touched. *)
Theorem admission_counts_once
    (req req' : Request) (env : Env) (w w' : World) :
  well_formed w →
  authenticateApiKey req env w = (Ok (Next req'), w') →
  ∃ d, lookup_key (presented req) w = Some d ∧
       lookup_key (presented req) w' = Some (touched (now env) d) ∧
       usageCount (touched (now env) d) = Some (number_of (usageCount d) + 1) ∧
       lastUsed (touched (now env) d) = Some (now env) ∧
       (∀ k, k ≠ presented req → lookup_key k w' = lookup_key k w) ∧
       length (apiKeys w') = length (apiKeys w) ∧
       rateLimits w' = rateLimits w.
Proof.
  intros [Hdist _] Hrun.
  destruct (authenticateApiKey_outcome req env w)
    as (flow & w1 & Hrun' & Hflow).
  rewrite Hrun in Hrun'. injection Hrun' as <- <-.
  destruct Hflow as (d & Hd & _ & _ & ->).
  exists d. split; [assumption|].
  pose proof (find_Some_elem _ _ _ Hd) as [Hin Hkey].
  split; [|split; [reflexivity|split; [reflexivity|split; [|split]]]].
  - unfold lookup_key, stored. simpl apiKeys.
    apply (find_stored _ _ d); try assumption; reflexivity.
  - intros k Hk. unfold lookup_key, stored. simpl apiKeys.
    apply bool_decide_eq_true in Hkey.
    apply (find_stored_other _ _ d); try assumption; try reflexivity.
    + apply bool_decide_eq_false. congruence.
    + apply bool_decide_eq_false. simpl. congruence.
  - unfold stored. simpl. apply length_update_first.
  - reflexivity.
Qed.

Lemma admission_counts_once_witness :
  ∃ d, lookup_key (Some acme_key) one_record = Some d ∧
       lookup_key (Some acme_key)
         (snd (authenticateApiKey (keyed_request acme_key) (at_time 10) one_record))
         = Some (touched 10 d).
Proof.
  destruct (admission_counts_once (keyed_request acme_key)
              (set_apiClient (identity_of acme_record) (keyed_request acme_key))
              (at_time 10) one_record
              (stored (touched 10 acme_record) one_record))
    as (d & Hd & Hd' & _).
  - split; repeat constructor; discriminate.
  - reflexivity.
  - exists d. split; [exact Hd|exact Hd'].
Defined.

End MoreGate.

(** ** The quota of one client *)

Section MoreQuota.

Lemma window_count_events_of c t events :
  window_count c t (events_of c events) = window_count c t events.
Proof.
  unfold window_count, events_of. f_equal. f_equal.
  induction events as [|d events IH]; [reflexivity|]. simpl.
  unfold in_window at 2.
  destruct (bool_decide (RateLimitSchema.clientId d = c)) eqn:E; simpl.
  - unfold in_window at 1. rewrite E. simpl.
    destruct (_ <=? _); [now rewrite IH|exact IH].
  - exact IH.
Qed.

(** X5: the quota of a client is charged with its own events only: on
    two ledgers that hold the same events of the client, in the same
    order, the quota step gives the same answer, whatever the other
    clients have logged. *)
Theorem quota_counts_own_events_only
    (req : Request) (client : ApiClient) (env : Env) (w w' : World) :
  apiClient req = Some client →
  events_of (client_clientId client) (rateLimits w) =
    events_of (client_clientId client) (rateLimits w') →
  fst (rateLimitByApiKey req env w) = fst (rateLimitByApiKey req env w').
Proof.
  intros Hc Hsame.
  destruct (fault env RateLimit_countDocuments) as [e|] eqn:Hcount.
  { now rewrite !(rateLimitByApiKey_uncounted _ env _ e). }
  rewrite !(rateLimitByApiKey_counted req client env) by assumption. cbv zeta.
  rewrite <- (window_count_events_of _ _ (rateLimits w)),
          <- (window_count_events_of _ _ (rateLimits w')), Hsame.
  destruct (_ <=? _); [reflexivity|]. now destruct (_ && _).
Qed.

Lemma quota_counts_own_events_only_witness :
  fst (rateLimitByApiKey profiles_request (at_time 10) busy_elsewhere) =
    fst (rateLimitByApiKey profiles_request (at_time 10) no_records).
Proof.
  apply (quota_counts_own_events_only profiles_request acme); reflexivity.
Defined.

(** One step keeps the count of the window within the limit. *)
Lemma quota_step_within_limit (c : string) (limit t : Z)
    (req : Request) (env : Env) (w : World) :
  (∀ client, apiClient req = Some client →
             client_clientId client = Some c →
             client_rateLimit client = Some limit) →
  t ≤ now env →
  window_count (Some c) t (rateLimits w) ≤ limit →
  window_count (Some c) (now env)
    (rateLimits (snd (rateLimitByApiKey req env w))) ≤ limit.
Proof.
  intros Hlimit Ht Hbefore.
  pose proof (window_count_mono (Some c) t (now env) (rateLimits w) Ht) as Hmono.
  destruct (apiClient req) as [client|] eqn:Hc;
    [|rewrite rateLimitByApiKey_anonymous by assumption; simpl; lia].
  destruct (fault env RateLimit_countDocuments) as [e|] eqn:Hcount;
    [rewrite (rateLimitByApiKey_uncounted req env w e) by assumption; simpl; lia|].
  rewrite (rateLimitByApiKey_counted req client env w Hc Hcount). cbv zeta.
  destruct (Z.leb_spec (number_of (client_rateLimit client))
              (window_count (client_clientId client) (now env) (rateLimits w)))
    as [Hfull|Hroom]; [simpl; lia|].
  destruct (_ && _); [|simpl; lia].
  simpl rateLimits. rewrite window_count_app.
  destruct (decide (client_clientId client = Some c)) as [Hmine|Hother].
  - rewrite Hmine in *. rewrite (Hlimit client eq_refl Hmine) in Hroom.
    unfold number_of in Hroom. simpl in Hroom.
    change (RateLimitSchema.mkDoc (Some c) (Some (path req)) (now env))
      with (usage_event c (path req) (now env)).
    rewrite window_count_event.
    destruct (_ <=? _); lia.
  - assert (Hzero : window_count (Some c) (now env)
                      [RateLimitSchema.mkDoc (client_clientId client)
                         (Some (path req)) (now env)] = 0).
    { unfold window_count. simpl. unfold in_window. simpl.
      now rewrite bool_decide_eq_false_2. }
    rewrite Hzero. lia.
Qed.

(** X6: served one after the other, the requests of a client never
    take the count of its window over its limit.  If the count is
    within the limit when a sequence of requests starts, and the clock
    does not run backwards, the count of the hour that ends with the
    last request is within the limit again, whatever the ledger does
    in between and whichever other clients are served. *)
Theorem quota_holds_along_a_trace
    (c : string) (limit : Z) (trace : list (Request * Env)) (t : Z) (w : World) :
  Forall (fun step => ∀ client, apiClient (fst step) = Some client →
                                client_clientId client = Some c →
                                client_rateLimit client = Some limit) trace →
  clock_advances t trace →
  window_count (Some c) t (rateLimits w) ≤ limit →
  window_count (Some c) (last_clock t trace) (rateLimits (serve trace w)) ≤ limit.
Proof.
  intros Hall. revert t w.
  induction Hall as [|[req env] trace Hstep _ IH]; intros t w Hclock Hbefore;
    [exact Hbefore|].
  destruct Hclock as [Ht Hclock]. simpl.
  apply IH; [exact Hclock|].
  now apply (quota_step_within_limit c limit t).
Qed.

Lemma quota_holds_along_a_trace_witness :
  window_count (Some "acme_1") 2000 (rateLimits (serve acme_trace no_records)) ≤ 2.
Proof.
  apply (quota_holds_along_a_trace "acme_1" 2 acme_trace 0 no_records).
  - repeat constructor; intros client [= <-] _; reflexivity.
  - simpl. lia.
  - vm_compute. discriminate.
Defined.

(** An expired event is outside the window of every later count. *)
Lemma expired_event_not_counted c t t' d :
  t < t' → expired_event t d = true → in_window c t' d = false.
Proof.
  unfold expired_event, in_window.
  change (RateLimitSchema.expires * 1000) with hour.
  intros Ht Hexp%Z.leb_le.
  destruct (Z.leb_spec (t' - hour) (RateLimitSchema.timestamp d)); [lia|].
  apply andb_false_r.
Qed.

(** X7: the background deletion of expired events never changes a quota
    decision.  The index deletes events that are 3600 seconds old, the
    quota step counts the events of the last [60 * 60 * 1000]
    milliseconds: whichever expired events a pass at time [t] has got
    to, every quota step at a later time answers as if none had been
    deleted. *)
Theorem ttl_sweep_is_invisible
    (reached : RateLimitSchema.doc → bool) (t : Z)
    (req : Request) (env : Env) (w : World) :
  t < now env →
  fst (rateLimitByApiKey req env (ttl_sweep reached t w)) =
    fst (rateLimitByApiKey req env w).
Proof.
  intros Ht.
  destruct (apiClient req) as [client|] eqn:Hc;
    [|now rewrite !rateLimitByApiKey_anonymous].
  destruct (fault env RateLimit_countDocuments) as [e|] eqn:Hcount.
  { now rewrite !(rateLimitByApiKey_uncounted _ env _ e). }
  rewrite !(rateLimitByApiKey_counted req client env) by assumption. cbv zeta.
  assert (Hsame : window_count (client_clientId client) (now env)
                    (rateLimits (ttl_sweep reached t w)) =
                  window_count (client_clientId client) (now env) (rateLimits w)).
  { unfold window_count, ttl_sweep. simpl rateLimits. f_equal. f_equal.
    induction (rateLimits w) as [|d events IH]; [reflexivity|]. simpl.
    destruct (reached d && expired_event t d) eqn:E; simpl.
    - apply andb_prop in E as [_ E].
      now rewrite (expired_event_not_counted _ t (now env) d Ht E).
    - destruct (in_window _ _ d); [now rewrite IH|exact IH]. }
  rewrite Hsame.
  destruct (_ <=? _); [reflexivity|]. now destruct (_ && _).
Qed.

Lemma ttl_sweep_is_invisible_witness :
  fst (rateLimitByApiKey profiles_request (at_time 3600001)
         (ttl_sweep (fun _ => true) 3600000
            (mkWorld [] [usage_event "acme_1" "/profiles" 0;
                         usage_event "acme_1" "/profiles" 1] 0)))
  = Ok (Next profiles_request).
Proof.
  rewrite (ttl_sweep_is_invisible (fun _ => true) 3600000 profiles_request
             (at_time 3600001)); [reflexivity|simpl; lia].
Defined.

End MoreQuota.

(** ** The service router *)

Section ServiceRoutes.

Lemma gate_answer_is_a_refusal req env w res w' :
  authenticateApiKey req env w = (Ok (Send res), w') → status res ≠ 200.
Proof.
  destruct (truthy_str (presented req)) eqn:Hp.
  2:{ rewrite authenticateApiKey_missing by assumption. now intros [= <- _]. }
  destruct (fault env ApiKey_findOne) as [e|] eqn:Hfind.
  { rewrite (authenticateApiKey_unreachable req env w e) by assumption.
    now intros [= <- _]. }
  rewrite authenticateApiKey_run by assumption.
  destruct (first_failure req (now env) w) as [f|];
    [intros [= <- _]; now destruct f|].
  destruct (lookup_key (presented req) w) as [d|]; [|now intros [= <- _]].
  destruct (persists env w (touched (now env) d)); [discriminate|].
  now intros [= <- _].
Qed.

Lemma quota_step_outcome req env w :
  ∃ flow w', rateLimitByApiKey req env w = (Ok flow, w') ∧
             apiKeys w' = apiKeys w ∧
             match flow with
             | Send res => status res = 429
             | Next req' => req' = req
             end.
Proof.
  destruct (apiClient req) as [client|] eqn:Hc;
    [|rewrite rateLimitByApiKey_anonymous by assumption; now eexists _, _].
  destruct (fault env RateLimit_countDocuments) as [e|] eqn:Hcount;
    [rewrite (rateLimitByApiKey_uncounted req env w e) by assumption;
     now eexists _, _|].
  rewrite (rateLimitByApiKey_counted req client env w Hc Hcount). cbv zeta.
  destruct (_ <=? _); [now eexists _, _|].
  destruct (_ && _); now eexists _, _.
Qed.

(** X8: every route of the service router stands behind the two
    middlewares, the health check included.  Without a secret the
    health route is answered 401 MISSING_API_KEY; and when it answers
    200, the secret of the request has resolved to a record that passed
    every check, and that record has been written back with its
    counter raised before the route ran. *)
Theorem health_is_behind_the_gateway (req : Request) (env : Env) (w : World) :
  (truthy_str (presented req) = false →
   serviceRoutes health req env w = (Ok (auth_response MissingKey), w))
  ∧ (∀ res w',
       serviceRoutes health req env w = (Ok res, w') →
       status res = 200 →
       ∃ d, lookup_key (presented req) w = Some d ∧
            first_failure req (now env) w = None ∧
            apiKeys w' = apiKeys (stored (touched (now env) d) w)).
Proof.
  split.
  - intros Hp. unfold serviceRoutes, bind.
    now rewrite authenticateApiKey_missing.
  - intros res w'. unfold serviceRoutes. unfold bind at 1.
    destruct (authenticateApiKey_outcome req env w)
      as (flow & w1 & Hgate & Hflow).
    rewrite Hgate. destruct flow as [res1|req1].
    { unfold ret. intros [= <- <-] Hstatus.
      now apply gate_answer_is_a_refusal in Hgate. }
    destruct Hflow as (d & Hd & Hpass & _ & ->).
    unfold bind at 1.
    destruct (quota_step_outcome req1 env (stored (touched (now env) d) w))
      as (flow2 & w2 & -> & Hkeys & Hflow2).
    destruct flow2 as [res2|req2].
    { unfold ret. intros [= <- <-] Hstatus. rewrite Hflow2 in Hstatus.
      discriminate. }
    unfold health, bind, Date_now, bind, ask, ret. intros [= <- <-] _.
    exists d. now repeat split.
Qed.

End ServiceRoutes.

(** * Further properties of the admin controller *)

(** ** Reading records *)

Section MoreReading.
Import ApiKeySchema adminController.
Context {platform : Platform}.

(** X9: [listApiKeys] never shows a record.  Whatever the filters and
    the store, it answers with the empty listing or with 500 "Failed to
    list API keys", and writes nothing; without filters it answers 500
    as soon as the store holds one record. *)
Theorem listing_is_empty_or_fails (req : Request) (env : Env) (w : World) :
  (listApiKeys req env w = (Ok empty_listing, w) ∨
   listApiKeys req env w = (Ok listing_failed, w))
  ∧ (query req !! "active" = None → query req !! "search" = None →
     apiKeys w ≠ [] →
     listApiKeys req env w = (Ok listing_failed, w))
  ∧ (query req !! "active" = None → query req !! "search" = None →
     apiKeys w = [] → fault env ApiKey_find = None →
     listApiKeys req env w = (Ok empty_listing, w)).
Proof.
  split; [|split].
  - destruct (listApiKeys_shows_no_record req env w) as [[] ->]; auto.
  - apply listApiKeys_fails_on_records.
  - intros Ha Hs Hnil Hfind. unfold listApiKeys, try_catch.
    rewrite Ha, Hs. simpl truthy_str. cbv iota.
    unfold bind at 1. unfold ret at 1. unfold bind at 1.
    rewrite find_run, Hfind, Hnil. reflexivity.
Qed.

(** X10: [getApiKey] never shows a record either.  It answers 404 when
    the store answers and holds no record of the client, and 500
    "Failed to fetch API key" in every other case, in particular
    whenever the record exists; it writes nothing. *)
Theorem fetching_finds_nothing_or_fails (req : Request) (env : Env) (w : World) :
  ∃ res, getApiKey req env w = (Ok res, w) ∧
         (status res = 404 ∨ status res = 500) ∧
         (status res = 404 ↔
            fault env ApiKey_findOne = None ∧
            lookup_clientId (params_clientId req) w = None).
Proof.
  rewrite getApiKey_shows_no_record.
  destruct (fault env ApiKey_findOne) as [e|].
  { eexists. split; [reflexivity|]. split; [now right|].
    split; [discriminate|now intros [? _]]. }
  destruct (lookup_clientId (params_clientId req) w) as [d|].
  - eexists. split; [reflexivity|]. split; [now right|].
    split; [discriminate|now intros [_ ?]].
  - eexists. split; [reflexivity|]. split; [now left|]. now split.
Qed.

End MoreReading.

(** ** Revocation, end to end *)

Section MoreRevocation.
Import ApiKeySchema adminController.
Context {platform : Platform}.

(** Among distinct documents, a filter that holds of one stored
    document and of none that differs from it finds that document. *)
Lemma find_member (f : doc → bool) docs d :
  distinct docs → d ∈ docs → f d = true →
  (∀ d', differs d d' → f d' = false) →
  List.find f docs = Some d.
Proof.
  intros Hdist Hin Hf Hothers.
  induction docs as [|d0 docs IH]; [now apply not_elem_of_nil in Hin|].
  destruct Hdist as [Hd0 Hrest]. simpl.
  apply elem_of_cons in Hin as [->|Hin]; [now rewrite Hf|].
  rewrite Forall_forall in Hd0.
  rewrite (Hothers d0); [now apply IH|].
  apply differs_sym. exact (Hd0 d Hin).
Qed.

Lemma find_by_key docs d :
  distinct docs → d ∈ docs →
  List.find (fun x => bool_decide (key x = key d)) docs = Some d.
Proof.
  intros Hdist Hin. apply find_member; try assumption.
  - now apply bool_decide_eq_true.
  - intros d' (_ & Hk & _). now apply bool_decide_eq_false.
Qed.

(** A change in place that keeps the key is found under the same key. *)
Lemma find_by_key_changed (f : doc → bool) change docs d :
  distinct docs → List.find f docs = Some d →
  key (change d) = key d →
  List.find (fun x => bool_decide (key x = key d))
            (ApiKey.update_first f change docs) = Some (change d).
Proof.
  intros Hdist Hfind Hkey.
  induction docs as [|d0 docs IH]; [discriminate|].
  destruct Hdist as [Hd0 Hrest]. simpl in *.
  destruct (f d0) eqn:E.
  - injection Hfind as ->. simpl. now rewrite bool_decide_eq_true_2.
  - pose proof (find_Some_elem _ _ _ Hfind) as [Hin _].
    rewrite Forall_forall in Hd0. destruct (Hd0 d Hin) as (_ & Hk & _).
    simpl. rewrite bool_decide_eq_false_2 by congruence. now apply IH.
Qed.

Lemma gate_on_presented_key auth env w k :
  presented auth = Some k → k ≠ "" →
  fault env ApiKey_findOne = None →
  authenticateApiKey auth env w =
    match lookup_key (Some k) w with
    | None => (Ok (Send (auth_response InvalidKey)), w)
    | Some d =>
        if is_disabled d then (Ok (Send (auth_response DisabledKey)), w)
        else if is_expired (now env) d
             then (Ok (Send (auth_response ExpiredKey)), w)
        else if ip_refused auth d
             then (Ok (Send (auth_response IPNotAllowed)), w)
        else if persists env w (touched (now env) d)
             then (Ok (Next (set_apiClient (identity_of d) auth)),
                   stored (touched (now env) d) w)
             else (Ok (Send (failure 500 "Authentication failed" "AUTH_ERROR")), w)
    end.
Proof.
  intros Hp Hk Hfind.
  rewrite authenticateApiKey_run by assumption.
  rewrite first_failure_found.
  2:{ rewrite Hp. simpl. apply String.eqb_neq in Hk. now rewrite Hk. }
  rewrite Hp. destruct (lookup_key (Some k) w) as [d|]; [|reflexivity].
  destruct (is_disabled d); [reflexivity|].
  destruct (is_expired (now env) d); [reflexivity|].
  now destruct (ip_refused auth d).
Qed.

(** X11: a hard revocation forgets the client.  In a store whose
    indexes hold, deleting an existing record with [hardDelete=true]
    answers "API key deleted permanently", removes exactly that record,
    leaves the usage events in the ledger, frees the client
    identifier, and makes the gate answer 401 INVALID_API_KEY to the
    key of the record. *)
Theorem hard_revoke_forgets_the_client
    (req : Request) (env : Env) (w : World) (d : doc) (k : string) :
  indexes_hold (apiKeys w) = true →
  lookup_clientId (params_clientId req) w = Some d →
  key d = Some k → k ≠ "" →
  query req !! "hardDelete" = Some "true" →
  fault env ApiKey_findOneAndDelete = None →
  ∃ w', deleteApiKey req env w = (Ok (revoked true), w') ∧
        S (length (apiKeys w')) = length (apiKeys w) ∧
        rateLimits w' = rateLimits w ∧
        lookup_clientId (params_clientId req) w' = None ∧
        ∀ auth env',
          presented auth = Some k → fault env' ApiKey_findOne = None →
          authenticateApiKey auth env' w' =
            (Ok (Send (mkResponse 401 (VObj [
               ("success", VBool false);
               ("error", VStr "Invalid API key");
               ("code", VStr "INVALID_API_KEY")]))), w').
Proof.
  intros Hidx Hd Hkey Hk Hhard Hup. apply indexes_hold_distinct in Hidx.
  rewrite deleteApiKey_run. cbv zeta.
  rewrite bool_decide_eq_true_2 by assumption. rewrite Hup.
  eexists. split; [reflexivity|].
  unfold lookup_clientId in Hd.
  pose proof (remove_first_leaves_others _ _ _ Hidx Hd) as Hothers.
  split; [|split; [reflexivity|split]].
  - simpl apiKeys. unfold clientId_is. clear -Hd.
    induction (apiKeys w) as [|d0 docs IH]; [discriminate|]. simpl in *.
    destruct (bool_decide _); [reflexivity|]. simpl. f_equal. now apply IH.
  - unfold lookup_clientId. simpl apiKeys.
    pose proof (find_Some_elem _ _ _ Hd) as [_ Hc%bool_decide_eq_true].
    apply find_none_Forall. eapply Forall_impl; [exact Hothers|].
    intros d' (_ & _ & Hc'). apply bool_decide_eq_false. congruence.
  - intros auth env' Hp Hfind.
    rewrite (gate_on_presented_key auth env' _ k) by assumption.
    replace (lookup_key (Some k) _) with (@None doc); [reflexivity|].
    symmetry. unfold lookup_key. simpl apiKeys.
    apply find_none_Forall. eapply Forall_impl; [exact Hothers|].
    intros d' (_ & Hk' & _). apply bool_decide_eq_false. congruence.
Qed.

(** X12: a soft revocation disables the key and keeps the client.  In
    a store whose indexes hold, deleting an existing record without
    [hardDelete] answers "API key deactivated", keeps the record under
    its client identifier with [isActive = false], and makes the gate
    answer 403 DISABLED_API_KEY to its key, whatever its expiry and
    the address of the requester. *)
Theorem soft_revoke_disables_the_key
    (req : Request) (env : Env) (w : World) (d : doc) (k : string) :
  indexes_hold (apiKeys w) = true →
  lookup_clientId (params_clientId req) w = Some d →
  key d = Some k → k ≠ "" →
  query req !! "hardDelete" ≠ Some "true" →
  fault env ApiKey_findOneAndUpdate = None →
  ∃ w', deleteApiKey req env w = (Ok (revoked false), w') ∧
        lookup_clientId (params_clientId req) w'
          = Some (set_isActive (Some false) d) ∧
        length (apiKeys w') = length (apiKeys w) ∧
        ∀ auth env',
          presented auth = Some k → fault env' ApiKey_findOne = None →
          authenticateApiKey auth env' w' =
            (Ok (Send (mkResponse 403 (VObj [
               ("success", VBool false);
               ("error", VStr "API key is disabled");
               ("code", VStr "DISABLED_API_KEY")]))), w').
Proof.
  intros Hidx Hd Hkey Hk Hsoft Hup. apply indexes_hold_distinct in Hidx.
  rewrite deleteApiKey_run. cbv zeta.
  rewrite bool_decide_eq_false_2 by assumption. rewrite Hup.
  unfold lookup_clientId in *. unfold clientId_is. rewrite Hd.
  rewrite (clashes_ext d) by reflexivity.
  rewrite clashes_stored; [|assumption|now apply find_Some_elem in Hd].
  eexists. split; [reflexivity|]. simpl apiKeys.
  split; [now rewrite find_update_first, Hd|].
  split; [apply length_update_first|].
  intros auth env' Hp Hfind.
  rewrite (gate_on_presented_key auth env' _ k) by assumption.
  unfold lookup_key. simpl apiKeys. rewrite <- Hkey.
  rewrite (find_by_key_changed _ _ _ d) by (try assumption; reflexivity).
  reflexivity.
Qed.

Lemma update_first_undo (f : doc → bool) (g h : doc → doc) docs d :
  List.find f docs = Some d → f (h d) = true → g (h d) = d →
  ApiKey.update_first f g (ApiKey.update_first f h docs) = docs.
Proof.
  intros Hfind Hf Hg.
  induction docs as [|d0 docs IH]; [reflexivity|]. simpl in *.
  destruct (f d0) eqn:E.
  - injection Hfind as ->. simpl. now rewrite Hf, Hg.
  - simpl. rewrite E. now rewrite IH.
Qed.

Lemma cast_update_activate env w :
  ApiKey.cast_update true
      (collect_updates {[ "isActive" := VBool true ]}) env w =
    (Ok (set_isActive (Some true)), w).
Proof.
  replace (collect_updates {[ "isActive" := VBool true ]})
    with ({[ "isActive" := VBool true ]} : gmap string value)
    by (vm_compute; reflexivity).
  unfold ApiKey.cast_update.
  unfold bind, ret.
  repeat (rewrite set_path_run; unfold path_change at 1;
          first [ rewrite lookup_singleton_ne by discriminate
                | rewrite lookup_singleton_eq, castBoolean_bool ];
          cbn [andb negb ApiKey.no_check]; cbv iota beta).
  reflexivity.
Qed.

(** X13: a soft revocation is undone by an update.  After the soft
    delete of an active record, [PUT] with the body [{isActive: true}]
    answers 200 and puts the store back exactly as it was before the
    delete. *)
Theorem soft_revoke_is_undone_by_update
    (req undo : Request) (env env' : Env) (w : World) (d : doc) :
  indexes_hold (apiKeys w) = true →
  lookup_clientId (params_clientId req) w = Some d →
  isActive d = Some true →
  query req !! "hardDelete" ≠ Some "true" →
  fault env ApiKey_findOneAndUpdate = None →
  params_clientId undo = params_clientId req →
  body undo = {[ "isActive" := VBool true ]} →
  fault env' ApiKey_findOneAndUpdate = None →
  updateApiKey undo env' (snd (deleteApiKey req env w)) =
    (Ok (mkResponse 200 (VObj [
       ("success", VBool true);
       ("message", VStr "API key updated successfully");
       ("data", toJSON (ApiKey.select_minus_key d))])), w).
Proof.
  intros Hidx Hd Hon Hsoft Hup Hparam Hbody Hup'.
  apply indexes_hold_distinct in Hidx.
  rewrite deleteApiKey_run. cbv zeta.
  rewrite bool_decide_eq_false_2 by assumption. rewrite Hup.
  unfold lookup_clientId in Hd. unfold clientId_is at 1. rewrite Hd.
  rewrite (clashes_ext d) by reflexivity.
  rewrite clashes_stored; [|assumption|now apply find_Some_elem in Hd].
  cbn [snd].
  set (f := clientId_is (Some (params_clientId req))).
  set (docs1 := ApiKey.update_first f (set_isActive (Some false)) (apiKeys w)).
  assert (Hfind1 : List.find f docs1 = Some (set_isActive (Some false) d)).
  { unfold docs1. rewrite find_update_first by reflexivity.
    unfold f, clientId_is. now rewrite Hd. }
  assert (Hdist1 : distinct docs1).
  { apply distinct_update_first; [assumption|].
    intros x Hx. unfold f, clientId_is in Hx. rewrite Hd in Hx.
    injection Hx as <-. split; [reflexivity|].
    rewrite (clashes_ext d) by reflexivity.
    apply clashes_stored; [assumption|now apply find_Some_elem in Hd]. }
  assert (Hback : set_isActive (Some true) (set_isActive (Some false) d) = d).
  { destruct d. simpl in Hon. now subst. }
  unfold updateApiKey, try_catch. rewrite Hparam, Hbody.
  unfold bind at 1. rewrite findOneAndUpdate_run, cast_update_activate.
  cbn [fst apiKeys rateLimits nextId]. rewrite Hup'. fold f. rewrite Hfind1.
  rewrite Hback.
  rewrite clashes_ext with (d := set_isActive (Some false) d)
    by (now destruct d).
  rewrite clashes_stored; [|assumption|now apply find_Some_elem in Hfind1].
  cbv iota beta. unfold docs1.
  rewrite (update_first_undo f _ _ _ d); [|exact Hd| |exact Hback].
  2:{ apply find_Some_elem in Hfind1 as [_ H]. exact H. }
  rewrite world_eta. reflexivity.
Qed.

End MoreRevocation.

Lemma hard_revoke_forgets_the_client_witness :
  ∃ w', adminController.deleteApiKey (platform := strict_platform)
          (revoke_request "acme_1" true) (at_time 10) one_record
          = (Ok (revoked true), w') ∧
        lookup_clientId "acme_1" w' = None ∧
        authenticateApiKey (keyed_request acme_key) (at_time 20) w' =
          (Ok (Send (auth_response InvalidKey)), w').
Proof.
  destruct (hard_revoke_forgets_the_client (platform := strict_platform)
              (revoke_request "acme_1" true) (at_time 10) one_record
              acme_record acme_key)
    as (w' & Hrun & _ & _ & Hfree & Hgate);
    [reflexivity | reflexivity | reflexivity | discriminate
    | reflexivity | reflexivity | ].
  exists w'. split; [exact Hrun|]. split; [exact Hfree|].
  apply (Hgate (keyed_request acme_key) (at_time 20)); reflexivity.
Defined.

Lemma soft_revoke_disables_the_key_witness :
  ∃ w', adminController.deleteApiKey (platform := strict_platform)
          (revoke_request "acme_1" false) (at_time 10) one_record
          = (Ok (revoked false), w') ∧
        authenticateApiKey (keyed_request acme_key) (at_time 20) w' =
          (Ok (Send (auth_response DisabledKey)), w').
Proof.
  destruct (soft_revoke_disables_the_key (platform := strict_platform)
              (revoke_request "acme_1" false) (at_time 10) one_record
              acme_record acme_key)
    as (w' & Hrun & _ & _ & Hgate);
    [reflexivity | reflexivity | reflexivity | discriminate
    | discriminate | reflexivity | ].
  exists w'. split; [exact Hrun|].
  apply (Hgate (keyed_request acme_key) (at_time 20)); reflexivity.
Defined.

Lemma soft_revoke_is_undone_by_update_witness :
  snd (adminController.updateApiKey (platform := strict_platform)
         (reactivate_request "acme_1") (at_time 20)
         (snd (adminController.deleteApiKey (platform := strict_platform)
                 (revoke_request "acme_1" false) (at_time 10) one_record)))
    = one_record.
Proof.
  rewrite (soft_revoke_is_undone_by_update (platform := strict_platform)
             (revoke_request "acme_1" false) (reactivate_request "acme_1")
             (at_time 10) (at_time 20) one_record acme_record);
    [reflexivity | reflexivity | reflexivity | reflexivity | discriminate
    | reflexivity | reflexivity | reflexivity | reflexivity].
Defined.

(** ** Creation, end to end *)

Section MoreCreation.
Import ApiKeySchema adminController.
Context {platform : Platform}.




End MoreCreation.


(** An expiry beyond the last date is an invalid date, which the cast
    of [expiresAt] refuses: the creation answers 500 and stores
    nothing. *)
Example far_expiry_is_refused :
  let run := adminController.createApiKey (platform := strict_platform)
               far_expiry_request (at_time 1700000000000) no_records in
  status <$> (match fst run with Ok res => Some res | Throw _ => None end)
    = Some 500 ∧
  snd run = no_records.
Proof. split; vm_compute; reflexivity. Qed.

(** ** The standing of a client across updates and rotations *)

Section MoreStanding.
Import ApiKeySchema adminController.
Context {platform : Platform}.

Lemma gate_verdict_of_record auth env w d k :
  distinct (apiKeys w) → d ∈ apiKeys w → key d = Some k → k ≠ "" →
  presented auth = Some k → fault env ApiKey_findOne = None →
  verdict (fst (authenticateApiKey auth env w)) = standing auth env d.
Proof.
  intros Hdist Hin Hkey Hk Hp Hfind.
  rewrite (gate_on_presented_key auth env w k) by assumption.
  unfold lookup_key. rewrite <- Hkey, (find_by_key _ d) by assumption.
  unfold standing.
  destruct (is_disabled d); [reflexivity|].
  destruct (is_expired (now env) d); [reflexivity|].
  destruct (ip_refused auth d); [reflexivity|].
  unfold persists.
  change (validate (touched (now env) d)) with (validate d).
  rewrite (clashes_ext d) by reflexivity.
  rewrite clashes_stored by assumption.
  rewrite andb_true_r.
  now destruct (validate d && bool_decide (fault env ApiKey_save = None)).
Qed.

Lemma collect_updates_limit body r :
  body !! "rateLimit" = Some (VNum r) →
  (∀ f, f ∈ allowedUpdates → f ≠ "rateLimit" → body !! f = None) →
  collect_updates body = {[ "rateLimit" := VNum r ]}.
Proof.
  intros Hr Hrest. apply map_eq. intros p. rewrite collect_updates_lookup.
  destruct (decide (p = "rateLimit")) as [->|Hne].
  - now rewrite lookup_singleton_eq.
  - rewrite lookup_singleton_ne by congruence.
    destruct (bool_decide (p ∈ allowedUpdates)) eqn:E; [|reflexivity].
    apply bool_decide_eq_true in E. now apply Hrest.
Qed.

Lemma cast_update_limit r env w :
  ApiKey.cast_update true {[ "rateLimit" := VNum r ]} env w =
    (Ok (set_rateLimit (Some r)), w).
Proof.
  unfold ApiKey.cast_update.
  unfold bind, ret.
  repeat (rewrite set_path_run; unfold path_change at 1;
          first [ rewrite lookup_singleton_ne by discriminate
                | rewrite lookup_singleton_eq, castNumber_num ];
          cbn [andb negb ApiKey.no_check]; cbv iota beta).
  reflexivity.
Qed.

(** X19: a new limit applies at once.  After an update that gives
    [rateLimit] and no other listed field, the gate decides on every
    request that presents the key of the record as it did before, with
    the same refusals, and attaches the new limit to the requests that
    it admits. *)
Theorem updated_limit_applies_at_once
    (req : Request) (env : Env) (w : World) (d : doc) (k : string) (r : Z) :
  indexes_hold (apiKeys w) = true →
  lookup_clientId (params_clientId req) w = Some d →
  key d = Some k → k ≠ "" →
  body req !! "rateLimit" = Some (VNum r) →
  (∀ f, f ∈ allowedUpdates → f ≠ "rateLimit" → body req !! f = None) →
  fault env ApiKey_findOneAndUpdate = None →
  ∃ w',
    updateApiKey req env w = (Ok (updated (set_rateLimit (Some r) d)), w') ∧
    lookup_clientId (params_clientId req) w' = Some (set_rateLimit (Some r) d) ∧
    ∀ auth env',
      presented auth = Some k → fault env' ApiKey_findOne = None →
      verdict (fst (authenticateApiKey auth env' w')) =
        match verdict (fst (authenticateApiKey auth env' w)) with
        | Ok (inr (Some id)) => Ok (inr (Some (with_limit (Some r) id)))
        | refusal => refusal
        end.
Proof.
  intros Hidx Hd Hkey Hk Hr Hrest Hup. apply indexes_hold_distinct in Hidx.
  unfold lookup_clientId in Hd.
  pose proof (find_Some_elem _ _ _ Hd) as [Hin _].
  set (f := clientId_is (Some (params_clientId req))).
  set (d' := set_rateLimit (Some r) d).
  set (docs' := ApiKey.update_first f (set_rateLimit (Some r)) (apiKeys w)).
  assert (Hclash : ApiKey.clashes d' (apiKeys w) = false).
  { unfold d'. rewrite (clashes_ext d) by reflexivity.
    now apply clashes_stored. }
  assert (Hfind' : List.find f docs' = Some d').
  { unfold docs'. rewrite find_update_first by reflexivity.
    unfold f, clientId_is. now rewrite Hd. }
  assert (Hdist' : distinct docs').
  { apply distinct_update_first; [assumption|].
    intros x Hx. unfold f, clientId_is in Hx. rewrite Hd in Hx.
    injection Hx as <-. now split. }
  exists (mkWorld docs' (rateLimits w) (nextId w)).
  split; [|split; [exact Hfind'|]].
  - unfold updateApiKey, try_catch.
    rewrite (collect_updates_limit _ r Hr Hrest).
    unfold bind at 1. rewrite findOneAndUpdate_run, cast_update_limit.
    cbn [fst]. rewrite Hup. fold f. unfold f at 1, clientId_is at 1.
    rewrite Hd. fold d'. rewrite Hclash. reflexivity.
  - intros auth env' Hp Hfind.
    rewrite (gate_verdict_of_record auth env' w d k) by assumption.
    rewrite (gate_verdict_of_record auth env' _ d' k);
      try assumption; [|now apply find_Some_elem in Hfind'].
    unfold standing.
    change (is_disabled d') with (is_disabled d).
    change (is_expired (now env') d') with (is_expired (now env') d).
    change (ip_refused auth d') with (ip_refused auth d).
    change (validate d') with (validate d).
    destruct (is_disabled d); [reflexivity|].
    destruct (is_expired (now env') d); [reflexivity|].
    destruct (ip_refused auth d); [reflexivity|].
    now destruct (validate d && bool_decide (fault env' ApiKey_save = None)).
Qed.

(** X20: a rotation changes the secret and nothing of the standing of
    the client.  After the key of a record has been regenerated, the
    gate decides on a request that presents the new key as it decided
    on a request from the same address that presented the old key: a
    disabled, expired or address-bound record stays so, and an admitted
    request carries the same identity and limit. *)
Theorem rotated_key_inherits_standing
    (req : Request) (env : Env) (w : World) (d : doc) (oldKey : string) :
  indexes_hold (apiKeys w) = true →
  lookup_clientId (params_clientId req) w = Some d →
  key d = Some oldKey → oldKey ≠ "" →
  validate d = true →
  fault env ApiKey_findOne = None →
  fault env ApiKey_save = None →
  lookup_key (Some (generated "sk" env)) w = None →
  ∀ auth auth0 env',
    presented auth = Some (generated "sk" env) →
    presented auth0 = Some oldKey →
    address auth = address auth0 →
    fault env' ApiKey_findOne = None →
    verdict (fst (authenticateApiKey auth env'
                    (snd (regenerateApiKey req env w)))) =
      verdict (fst (authenticateApiKey auth0 env' w)).
Proof.
  intros Hidx Hd Hkey Hold Hvalid Hfind Hsave Hfresh
         auth auth0 env' Hp Hp0 Haddr Hfind'.
  apply indexes_hold_distinct in Hidx. unfold lookup_clientId in Hd.
  pose proof (find_Some_elem _ _ _ Hd) as [Hin _].
  set (newKey := generated "sk" env) in *.
  set (d' := rotated newKey d).
  assert (Hnew : newKey ≠ "") by apply generated_nonempty.
  assert (Hok : persists env w d' = true)
    by now apply rotation_persists.
  rewrite regenerateApiKey_run by assumption.
  unfold lookup_clientId. rewrite Hd. cbv zeta. fold newKey d'.
  rewrite Hok. cbn [snd].
  assert (Hclash : ApiKey.clashes d' (apiKeys w) = false).
  { unfold persists in Hok. apply andb_prop in Hok as [_ Hok].
    now apply negb_true_iff in Hok. }
  assert (Hdist' : distinct (apiKeys (stored d' w))).
  { unfold stored. cbn [apiKeys]. apply distinct_update_first; [assumption|].
    intros x [_ Hx]%find_Some_elem. unfold ApiKey.has_id_of in Hx.
    apply N.eqb_eq in Hx. now split. }
  assert (Hin' : d' ∈ apiKeys (stored d' w)).
  { unfold stored. cbn [apiKeys].
    eapply find_Some_elem.
    apply (find_stored _ _ d); [assumption|exact Hd|reflexivity|].
    apply find_Some_elem in Hd as [_ Hc]. exact Hc. }
  rewrite (gate_verdict_of_record auth env' _ d' newKey)
    by (try assumption; reflexivity).
  rewrite (gate_verdict_of_record auth0 env' w d oldKey) by assumption.
  unfold standing.
  change (is_disabled d') with (is_disabled d).
  change (is_expired (now env') d') with (is_expired (now env') d).
  change (identity_of d') with (identity_of d).
  replace (ip_refused auth d') with (ip_refused auth0 d); cycle 1.
  { unfold ip_refused. change (allowedIPs d') with (allowedIPs d).
    fold (address auth) (address auth0). now rewrite Haddr. }
  replace (validate d') with (validate d); [reflexivity|].
  rewrite Hvalid. symmetry.
  unfold persists in Hok.
  now apply andb_prop in Hok as [[Hv _]%andb_prop _].
Qed.

End MoreStanding.

Lemma updated_limit_applies_at_once_witness :
  ∃ w', adminController.updateApiKey (platform := strict_platform)
          (limit_request "acme_1" 7) (at_time 5) one_record
          = (Ok (updated (ApiKeySchema.set_rateLimit (Some 7) acme_record)), w') ∧
        verdict (fst (authenticateApiKey (keyed_request acme_key) (at_time 9) w'))
          = Ok (inr (Some (with_limit (Some 7) acme))).
Proof.
  destruct (updated_limit_applies_at_once (platform := strict_platform)
              (limit_request "acme_1" 7) (at_time 5) one_record
              acme_record acme_key 7)
    as (w' & Hrun & _ & Hgate);
    [ reflexivity | reflexivity | reflexivity | discriminate | reflexivity
    | | reflexivity | ].
  - intros f Hf Hne. vm_compute in Hf.
    repeat (apply elem_of_cons in Hf as [->|Hf]; [try reflexivity; try contradiction|]).
    now apply elem_of_nil in Hf.
  - exists w'. split; [exact Hrun|].
    rewrite (Hgate (keyed_request acme_key) (at_time 9)); reflexivity.
Defined.

Lemma rotated_key_inherits_standing_witness :
  verdict (fst (authenticateApiKey
                  (bearer_request (generated "sk" (rolling 20))) (at_time 30)
                  (snd (adminController.regenerateApiKey
                          (regenerate_request "acme_1") (rolling 20) one_record))))
  = Ok (inr (Some acme)).
Proof.
  transitivity (verdict (fst (authenticateApiKey (keyed_request acme_key)
                               (at_time 30) one_record))); [|reflexivity].
  apply (rotated_key_inherits_standing (regenerate_request "acme_1")
           (rolling 20) one_record acme_record acme_key);
    [ reflexivity | reflexivity | reflexivity | discriminate | reflexivity
    | reflexivity | reflexivity | reflexivity | reflexivity | reflexivity
    | reflexivity | reflexivity ].
Defined.

(** ** Clients that the store does not know *)

Section MoreUnknown.
Import ApiKeySchema adminController.
Context {platform : Platform}.

Lemma cast_update_nothing env w :
  ApiKey.cast_update true ∅ env w = (Ok (fun d => d), w).
Proof.
  unfold ApiKey.cast_update.
  unfold bind, ret.
  repeat (rewrite set_path_run; unfold path_change at 1;
          rewrite lookup_empty; cbv iota beta).
  reflexivity.
Qed.

(** X21: for a client that the store does not know, fetching and
    regenerating answer 404, and so does an update whose body gives
    none of the listed fields; an update answers 404 or 500 whatever
    its body, the cast of the body coming before the lookup; and none
    of the three changes the store. *)
Theorem unknown_client_is_not_found (req : Request) (env : Env) (w : World) :
  lookup_clientId (params_clientId req) w = None →
  fault env ApiKey_findOne = None →
  fault env ApiKey_findOneAndUpdate = None →
  getApiKey req env w = (Ok not_found, w) ∧
  regenerateApiKey req env w = (Ok not_found, w) ∧
  (∃ cast_ok : bool,
     updateApiKey req env w =
       (Ok (if cast_ok then not_found
            else mkResponse 500 (VObj [
                   ("success", VBool false);
                   ("error", VStr "Failed to update API key")])), w)) ∧
  ((∀ f, f ∈ allowedUpdates → body req !! f = None) →
   updateApiKey req env w = (Ok not_found, w)).
Proof.
  intros Hnone Hfind Hup.
  assert (Hrun : ∀ change,
            ApiKey.cast_update true (collect_updates (body req)) env w
              = (Ok change, w) →
            updateApiKey req env w = (Ok not_found, w)).
  { intros change Hcast. unfold updateApiKey, try_catch.
    unfold bind at 1. rewrite findOneAndUpdate_run, Hcast.
    cbn [fst]. rewrite Hup. unfold clientId_is.
    unfold lookup_clientId in Hnone. now rewrite Hnone. }
  split; [|split; [|split]].
  - rewrite getApiKey_shows_no_record. now rewrite Hfind, Hnone.
  - rewrite regenerateApiKey_run by assumption. now rewrite Hnone.
  - pose proof (cast_update_pure true (collect_updates (body req)) env w)
      as Hpure.
    destruct (ApiKey.cast_update true (collect_updates (body req)) env w)
      as [[change|e] w0] eqn:Hcast; cbn [snd] in Hpure; subst w0.
    + exists true. now apply (Hrun change).
    + exists false. unfold updateApiKey, try_catch.
      unfold bind at 1. now rewrite findOneAndUpdate_run, Hcast.
  - intros Hbody. apply (Hrun (fun d => d)).
    replace (collect_updates (body req)) with (∅ : gmap string value);
      [apply cast_update_nothing|].
    symmetry. apply map_eq. intros p.
    rewrite collect_updates_lookup, lookup_empty.
    destruct (bool_decide (p ∈ allowedUpdates)) eqn:E; [|reflexivity].
    apply bool_decide_eq_true in E. now apply Hbody.
Qed.

End MoreUnknown.

Lemma unknown_client_is_not_found_witness :
  adminController.getApiKey (fetch_request "ghost") (at_time 10) one_record
    = (Ok not_found, one_record) ∧
  adminController.updateApiKey (platform := strict_platform)
      (update_request "ghost" ∅) (at_time 10) one_record
    = (Ok not_found, one_record).
Proof.
  split.
  - apply (proj1 (unknown_client_is_not_found (platform := strict_platform)
                    (fetch_request "ghost") (at_time 10) one_record
                    eq_refl eq_refl eq_refl)).
  - apply (proj2 (proj2 (proj2
             (unknown_client_is_not_found (platform := strict_platform)
                (update_request "ghost" ∅) (at_time 10) one_record
                eq_refl eq_refl eq_refl)))).
    intros f _. apply lookup_empty.
Defined.

(** ** What holds of every store that the handlers reach *)

Section MoreInvariant.
Import ApiKeySchema adminController.
Context {platform : Platform}.

Lemma stored_Forall (P : doc → Prop) d w :
  Forall P (apiKeys w) → P d → Forall P (apiKeys (stored d w)).
Proof.
  intros Hall Hd. unfold stored. cbn [apiKeys].
  apply update_first_Forall; auto.
Qed.

Lemma sound_record_touched t d : sound_record d → sound_record (touched t d).
Proof.
  intros (Hkey & Hvalid & n & Hn & Hpos). split; [exact Hkey|].
  split; [exact Hvalid|].
  exists (n + 1). unfold touched. cbn [usageCount set_lastUsed set_usageCount].
  rewrite Hn. split; [reflexivity|lia].
Qed.

Lemma sound_record_rotated env d :
  validate (rotated (generated "sk" env) d) = true →
  sound_record (rotated (generated "sk" env) d).
Proof.
  intros Hvalid. split; [now exists (randomBytes env 32)|].
  split; [exact Hvalid|]. now exists 0.
Qed.

Lemma authenticateApiKey_records req env w :
  Forall sound_record (apiKeys w) →
  Forall sound_record (apiKeys (snd (authenticateApiKey req env w))).
Proof.
  intros Hall.
  destruct (truthy_str (presented req)) eqn:Hp;
    [|now rewrite authenticateApiKey_missing].
  destruct (fault env ApiKey_findOne) as [e|] eqn:Hfind;
    [now rewrite (authenticateApiKey_unreachable req env w e)|].
  rewrite authenticateApiKey_run by assumption.
  destruct (first_failure req (now env) w); [assumption|].
  destruct (lookup_key (presented req) w) as [d|] eqn:Hd; [|assumption].
  destruct (persists env w (touched (now env) d)); [|assumption].
  cbn [snd]. apply stored_Forall; [assumption|].
  apply sound_record_touched.
  apply find_Some_elem in Hd as [Hin _].
  rewrite Forall_forall in Hall. now apply Hall.
Qed.

Lemma rateLimitByApiKey_records req env w :
  apiKeys (snd (rateLimitByApiKey req env w)) = apiKeys w.
Proof.
  destruct (apiClient req) as [client|] eqn:Hc;
    [|now rewrite rateLimitByApiKey_anonymous].
  destruct (fault env RateLimit_countDocuments) as [e|] eqn:Hcount;
    [now rewrite (rateLimitByApiKey_uncounted req env w e)|].
  rewrite (rateLimitByApiKey_counted req client env w Hc Hcount). cbv zeta.
  destruct (_ <=? _); [reflexivity|].
  now destruct (_ && _).
Qed.

Lemma createApiKey_records req env w :
  Forall sound_record (apiKeys w) →
  Forall sound_record (apiKeys (snd (createApiKey req env w))).
Proof.
  intros Hall. unfold createApiKey, try_catch.
  destruct (negb (truthy (body req !! "name")) ||
            negb (truthy (body req !! "clientId"))); [assumption|].
  unfold bind at 1.
  destruct (castString (default VNull (body req !! "clientId"))) as [wanted|];
    [|assumption].
  unfold of_cast, ret at 1. cbv beta iota.
  unfold bind at 1. rewrite findOne_run.
  destruct (fault env ApiKey_findOne); [assumption|].
  destruct (List.find _ (apiKeys w)); [assumption|].
  unfold bind at 1. rewrite generateApiKey_run.
  unfold bind at 1. unfold Date_now, bind at 1, ask, ret at 1.
  unfold bind at 1.
  match goal with
  | |- context [ApiKey.create ?raw env w] =>
      destruct (ApiKey.create raw env w) as [[d|e] w1] eqn:Hcreate;
      [ assert (Hraw : raw !! "key" = Some (VStr (generated "sk" env))
                       ∧ raw !! "usageCount" = None)
      | apply create_throws in Hcreate as ->; assumption ]
  end.
  { split; [apply lookup_insert_eq|].
    destruct (body req !! "name"), (body req !! "clientId"),
             (body req !! "contactEmail"), (body req !! "notes");
      cbn [prop app list_to_map foldr uncurry curry fst snd];
      repeat (rewrite lookup_insert_ne by discriminate);
      apply lookup_empty. }
  destruct Hraw as [Hkey Huse].
  apply create_inv in Hcreate as (Hbuild & Hvalid & _ & _ & ->).
  apply build_inv in Hbuild as (_ & _ & _ & _ & _ & Hu & Hk).
  unfold path_value in Hu, Hk.
  rewrite Huse in Hu. rewrite Hkey, castString_str in Hk.
  injection Hu as Hu. injection Hk as Hk.
  cbn [snd apiKeys]. apply Forall_app. split; [assumption|].
  repeat constructor.
  - exists (randomBytes env 32). now rewrite <- Hk.
  - exact Hvalid.
  - exists 0. now rewrite <- Hu.
Qed.

(** With validators on, an update object without the protected paths
    yields a change that keeps a record sound: [name] cannot be
    blanked. *)
Lemma cast_update_sound update env w change w' :
  ApiKey.cast_update true update env w = (Ok change, w') →
  update !! "key" = None → update !! "clientId" = None →
  update !! "usageCount" = None → update !! "lastUsed" = None →
  update !! "createdAt" = None →
  ∀ d, validate d = true → validate (change d) = true.
Proof.
  intros Hrun Hkey Hcid Huse Hlast Hcreated. revert Hrun.
  unfold ApiKey.cast_update. unfold bind at 1. unfold ret at 1.
  repeat (unfold bind at 1; rewrite set_path_run; unfold path_change at 1;
          rewrite ?Hkey, ?Hcid, ?Huse, ?Hlast, ?Hcreated;
          repeat match goal with
          | |- context [match ?m !! ?p with _ => _ end] =>
              destruct (m !! p)
          | |- context [match ?c ?v with Some _ => _ | None => _ end] =>
              destruct (c v)
          | |- context [if true && negb ?b then _ else _] =>
              destruct b eqn:?; cbn [andb negb]; cbv iota
          end; cbv beta iota; try solve [intros [=]]).
  all: rewrite set_path_run; unfold path_change.
  all: repeat match goal with
          | |- context [match ?m !! ?p with _ => _ end] =>
              destruct (m !! p)
          | |- context [match ?c ?v with Some _ => _ | None => _ end] =>
              destruct (c v)
          | |- context [if true && negb ?b then _ else _] =>
              destruct b eqn:?; cbn [andb negb]; cbv iota
          end.
  all: try solve [intros [=]].
  all: intros [= <- <-].
  all: intros d Hv; unfold validate in *.
  all: cbn [key name clientId set_key set_name set_clientId set_isActive
            set_rateLimit set_usageCount set_lastUsed set_createdAt
            set_expiresAt set_allowedIPs set_contactEmail set_notes].
  all: apply andb_true_iff in Hv as [[Hk Hn]%andb_true_iff Hc].
  all: rewrite Hk, Hc; cbn [andb]; rewrite ?andb_true_r.
  all: assumption.
Qed.

Lemma updateApiKey_records req env w :
  Forall sound_record (apiKeys w) →
  Forall sound_record (apiKeys (snd (updateApiKey req env w))).
Proof.
  intros Hall. unfold updateApiKey, try_catch. unfold bind at 1.
  rewrite findOneAndUpdate_run.
  destruct (ApiKey.cast_update true (collect_updates (body req)) env w)
    as [[change|e] w0] eqn:Hcast; simpl fst; [|assumption].
  destruct (fault env ApiKey_findOneAndUpdate); [assumption|].
  destruct (List.find _ (apiKeys w)) as [d|] eqn:Hfound; [|assumption].
  destruct (ApiKey.clashes (change d) (apiKeys w)); [assumption|].
  cbn [snd apiKeys].
  destruct (protected_not_allowed (body req)) as (H1 & H2 & H3 & H4 & H5).
  pose proof (cast_update_keeps _ _ _ _ _ _ Hcast H1 H2 H3 H4 H5) as Hkeep.
  pose proof (cast_update_sound _ _ _ _ _ Hcast H1 H2 H3 H4 H5) as Hvalid.
  apply update_first_Forall; [assumption|].
  intros x [Hin _]%find_Some_elem.
  rewrite Forall_forall in Hall.
  destruct (Hall x Hin) as (Hk & Hv & Hu).
  destruct (Hkeep x) as (_ & Hk' & _ & Hu' & _).
  split; [now rewrite Hk'|]. split; [now apply Hvalid|now rewrite Hu'].
Qed.

Lemma deleteApiKey_records req env w :
  Forall sound_record (apiKeys w) →
  Forall sound_record (apiKeys (snd (deleteApiKey req env w))).
Proof.
  intros Hall. rewrite deleteApiKey_run. cbv zeta.
  destruct (bool_decide _).
  - destruct (fault env ApiKey_findOneAndDelete); [assumption|].
    now apply remove_first_Forall.
  - destruct (fault env ApiKey_findOneAndUpdate); [assumption|].
    destruct (List.find _ (apiKeys w)) as [d|] eqn:Hd; [|assumption].
    destruct (ApiKey.clashes _ (apiKeys w)); [assumption|].
    cbn [apiKeys]. apply update_first_Forall; [assumption|].
    intros x [Hin _]%find_Some_elem.
    rewrite Forall_forall in Hall. exact (Hall x Hin).
Qed.

Lemma regenerateApiKey_records req env w :
  Forall sound_record (apiKeys w) →
  Forall sound_record (apiKeys (snd (regenerateApiKey req env w))).
Proof.
  intros Hall.
  destruct (fault env ApiKey_findOne) as [e|] eqn:Hfind.
  { unfold regenerateApiKey, try_catch. unfold bind at 1.
    now rewrite findOne_run, Hfind. }
  rewrite regenerateApiKey_run by assumption.
  destruct (lookup_clientId (params_clientId req) w) as [d|]; [|assumption].
  cbv zeta.
  destruct (persists env w (rotated (generated "sk" env) d)) eqn:Hok;
    [|assumption].
  cbn [snd]. apply stored_Forall; [assumption|].
  apply sound_record_rotated.
  unfold persists in Hok.
  now apply andb_prop in Hok as [[Hv _]%andb_prop _].
Qed.

Lemma after_sound e req env w : sound w → sound (after e req env w).
Proof.
  intros [Hwf Hall].
  destruct (handlers_keep_store_well_formed req env w Hwf)
    as (_ & _ & Hservice & Hcreate & Hlist & Hupdate & Hdelete & Hrotate).
  destruct e; cbn [after].
  - split; [assumption|]. unfold serviceGateway, bind.
    pose proof (authenticateApiKey_records req env w Hall) as Hauth.
    destruct (authenticateApiKey req env w) as [[[res|req']|e] w1];
      cbn [snd] in Hauth |- *; try assumption.
    now rewrite rateLimitByApiKey_records.
  - split; [assumption|now apply createApiKey_records].
  - destruct (listApiKeys_shows_no_record req env w) as [b ->]. now split.
  - rewrite getApiKey_shows_no_record.
    destruct (fault env ApiKey_findOne),
             (lookup_clientId (params_clientId req) w); now split.
  - split; [assumption|now apply updateApiKey_records].
  - split; [assumption|now apply deleteApiKey_records].
  - split; [assumption|now apply regenerateApiKey_records].
Qed.

Lemma history_sound calls w : sound w → sound (history calls w).
Proof.
  revert w. induction calls as [|[[e req] env] calls IH]; intros w Hw;
    [assumption|].
  cbn [history]. apply IH. now apply after_sound.
Qed.

(** X15: whatever requests reach the gateway and the admin routes, in
    whatever order and with whatever faults of the database, every
    store reached from the empty one is sound: no two records share an
    [_id], a secret or a client identifier, and every record holds a
    secret of the issued form ["sk_"] followed by hex digits, a
    non-empty name and client identifier, and a usage counter that is a
    number and not negative. *)
Theorem reachable_stores_are_sound (calls : list (Endpoint * Request * Env)) :
  let w := history calls no_records in
  indexes_hold (apiKeys w) = true ∧
  Forall (fun d =>
            (∃ bs, key d = Some ("sk_" +:+ to_hex bs)) ∧
            truthy_str (name d) = true ∧ truthy_str (clientId d) = true ∧
            ∃ n, usageCount d = Some n ∧ 0 ≤ n) (apiKeys w).
Proof.
  intros w.
  destruct (history_sound calls no_records) as [[Hdist Hids] Hall].
  { split; [split; constructor|constructor]. }
  fold w in Hdist, Hids, Hall. split.
  - now apply distinct_indexes_hold.
  - eapply Forall_impl; [exact Hall|].
    intros d (Hk & Hv & Hu). split; [exact Hk|].
    unfold validate, required_ok in Hv.
    apply andb_true_iff in Hv as [[_ Hn]%andb_true_iff Hc]. now repeat split.
Qed.

End MoreInvariant.

(** ** Merging lists of tags *)

Section MoreMerging.

Lemma Set_add_all_elem (l acc : list string) (x : string) :
  x ∈ fold_left Set_add l acc ↔ x ∈ acc ∨ x ∈ l.
Proof.
  revert acc. induction l as [|y l IH]; intros acc; cbn [fold_left].
  - rewrite elem_of_nil. tauto.
  - rewrite IH, elem_of_cons. unfold Set_add.
    destruct (bool_decide (y ∈ acc)) eqn:E.
    + apply bool_decide_eq_true in E. split; [tauto|].
      intros [?|[->|?]]; tauto.
    + rewrite elem_of_app, list_elem_of_singleton. tauto.
Qed.

Lemma Set_add_all_NoDup (l acc : list string) :
  NoDup acc → NoDup (fold_left Set_add l acc).
Proof.
  revert acc. induction l as [|y l IH]; intros acc Hacc; cbn [fold_left];
    [assumption|].
  apply IH. unfold Set_add.
  destruct (bool_decide (y ∈ acc)) eqn:E; [assumption|].
  apply bool_decide_eq_false in E.
  apply NoDup_app. split; [assumption|]. split.
  - intros x Hx ->%list_elem_of_singleton. contradiction.
  - apply NoDup_singleton.
Qed.

(** Values that are new and distinct are appended as they come. *)
Lemma Set_add_all_fresh (l acc : list string) :
  NoDup (acc ++ l) → fold_left Set_add l acc = (acc ++ l)%list.
Proof.
  revert acc. induction l as [|y l IH]; intros acc Hnd; cbn [fold_left].
  - now rewrite app_nil_r.
  - assert (Hy : y ∉ acc).
    { apply NoDup_app in Hnd as (_ & Hdisj & _).
      intros Hin. apply (Hdisj y Hin). left. }
    unfold Set_add. rewrite bool_decide_eq_false_2 by assumption.
    rewrite IH; [now rewrite <- app_assoc|].
    now rewrite <- app_assoc.
Qed.

(** The first occurrences keep their order: what is in the set stays
    in front. *)
Lemma Set_add_all_prefix (l acc : list string) :
  ∃ more, fold_left Set_add l acc = (acc ++ more)%list.
Proof.
  revert acc. induction l as [|y l IH]; intros acc; cbn [fold_left].
  - exists []. now rewrite app_nil_r.
  - destruct (IH (Set_add acc y)) as [more ->]. unfold Set_add.
    destruct (bool_decide (y ∈ acc)); [now exists more|].
    exists (y :: more). now rewrite <- app_assoc.
Qed.

(** The strings that [flat] and [filter(Boolean)] leave. *)
Lemma merged_app (a b : list (option (list string))) :
  omap id (List.filter truthy_str (flat (a ++ b))) =
    (omap id (List.filter truthy_str (flat a)) ++
     omap id (List.filter truthy_str (flat b)))%list.
Proof.
  unfold flat. rewrite fmap_app, concat_app, List.filter_app.
  apply omap_app.
Qed.

Lemma merged_one (a : list string) :
  omap id (List.filter truthy_str (flat [Some a])) =
    List.filter (fun s => truthy_str (Some s)) a.
Proof.
  unfold flat. cbn [fmap list_fmap concat]. rewrite app_nil_r.
  induction a as [|s a IH]; [reflexivity|].
  cbn [fmap list_fmap List.filter] in *.
  destruct (truthy_str (Some s)); cbn [omap list_omap id]; now rewrite IH.
Qed.

Lemma merged_elem (arrays : list (option (list string))) (x : string) :
  x ∈ omap id (List.filter truthy_str (flat arrays)) ↔
  x ≠ "" ∧ ∃ a, Some a ∈ arrays ∧ x ∈ a.
Proof.
  induction arrays as [|a arrays IH].
  - cbn. rewrite elem_of_nil. split; [tauto|].
    intros (_ & a & Ha & _). now apply elem_of_nil in Ha.
  - change (a :: arrays) with ([a] ++ arrays)%list at 1.
    rewrite merged_app, elem_of_app, IH. clear IH.
    assert (Hone : x ∈ omap id (List.filter truthy_str (flat [a])) ↔
                   x ≠ "" ∧ ∃ l, a = Some l ∧ x ∈ l).
    { destruct a as [l|].
      - rewrite merged_one, list_elem_of_In, filter_In, <- list_elem_of_In.
        cbn [truthy_str]. rewrite negb_true_iff, String.eqb_neq.
        split.
        + intros [Hin Hne]. split; [assumption|]. now exists l.
        + intros (Hne & l' & [= <-] & Hin). now split.
      - cbn. rewrite elem_of_nil. split; [tauto|].
        now intros (_ & l & [=] & _). }
    rewrite Hone. split.
    + intros [(Hne & l & -> & Hin)|(Hne & l & Hl & Hin)].
      * split; [assumption|]. exists l. split; [left|assumption].
      * split; [assumption|]. exists l. split; [now right|assumption].
    + intros (Hne & l & [<-|Hl]%elem_of_cons & Hin).
      * left. split; [assumption|]. now exists l.
      * right. split; [assumption|]. now exists l.
Qed.

Lemma merged_nonempty (arrays : list (option (list string))) :
  List.filter (fun s => truthy_str (Some s)) (mergeArrays arrays)
    = mergeArrays arrays.
Proof.
  apply forallb_filter_id, forallb_forall. intros x Hx%list_elem_of_In.
  unfold mergeArrays, Set_of in Hx. cbv zeta in Hx.
  rewrite Set_add_all_elem, elem_of_nil, merged_elem in Hx.
  destruct Hx as [[]|[Hne _]].
  cbn [truthy_str]. now rewrite negb_true_iff, String.eqb_neq.
Qed.

Lemma mergeArrays_app (arrays more : list (option (list string))) :
  mergeArrays (arrays ++ more) =
    fold_left Set_add (omap id (List.filter truthy_str (flat more)))
              (mergeArrays arrays).
Proof.
  unfold mergeArrays, Set_of. cbv zeta.
  now rewrite merged_app, fold_left_app.
Qed.

(** X16: [mergeArrays] yields a set: its result has no duplicates and
    no empty string, and holds exactly the non-empty strings of the
    arrays that were given, arguments that are [undefined] counting
    for nothing. *)
Theorem mergeArrays_is_the_union (arrays : list (option (list string))) :
  NoDup (mergeArrays arrays) ∧
  ∀ x, x ∈ mergeArrays arrays ↔ x ≠ "" ∧ ∃ a, Some a ∈ arrays ∧ x ∈ a.
Proof.
  unfold mergeArrays, Set_of. cbv zeta. split.
  - apply Set_add_all_NoDup, NoDup_nil_2.
  - intros x. rewrite Set_add_all_elem, elem_of_nil, merged_elem. tauto.
Qed.

(** X17: merging step by step gives what merging at once gives, in the
    same order: [mergeArrays(mergeArrays(a, b), c)], as [createProfile]
    computes the interests, equals [mergeArrays(a, b, c)]; so merging
    a second time changes nothing, and the values of the first arrays
    stay in front of those that later arrays add. *)
Theorem mergeArrays_step_by_step
    (arrays more : list (option (list string))) :
  mergeArrays (Some (mergeArrays arrays) :: more) = mergeArrays (arrays ++ more)
  ∧ mergeArrays [Some (mergeArrays arrays)] = mergeArrays arrays
  ∧ ∃ added, mergeArrays (arrays ++ more) = (mergeArrays arrays ++ added)%list.
Proof.
  assert (Hone : mergeArrays [Some (mergeArrays arrays)] = mergeArrays arrays).
  { unfold mergeArrays at 1. cbv zeta.
    rewrite merged_one, merged_nonempty. unfold Set_of.
    apply (Set_add_all_fresh _ []).
    unfold mergeArrays, Set_of. cbv zeta.
    apply Set_add_all_NoDup, NoDup_nil_2. }
  split; [|split; [exact Hone|]].
  - change (Some (mergeArrays arrays) :: more)
      with ([Some (mergeArrays arrays)] ++ more)%list.
    now rewrite !mergeArrays_app, Hone.
  - rewrite mergeArrays_app. apply Set_add_all_prefix.
Qed.

End MoreMerging.

(** ** Statistics *)

Section MoreStats.
Import ApiKeySchema.

Lemma more_used_total a b : more_used a b = false → more_used b a = true.
Proof.
  unfold more_used. destruct (usageCount a), (usageCount b); try easy.
  intros H%Z.leb_gt. apply Z.leb_le. lia.
Qed.

Lemma more_used_trans a b c :
  more_used a b = true → more_used b c = true → more_used a c = true.
Proof.
  unfold more_used.
  destruct (usageCount a), (usageCount b), (usageCount c); try easy.
  intros H1%Z.leb_le H2%Z.leb_le. apply Z.leb_le. lia.
Qed.

Lemma insert_ranked_perm d docs : insert_ranked d docs ≡ₚ d :: docs.
Proof.
  induction docs as [|d' docs IH]; simpl; [reflexivity|].
  destruct (more_used d d'); [reflexivity|].
  rewrite IH. apply Permutation_swap.
Qed.

Lemma sort_usageCount_desc_perm docs : sort_usageCount_desc docs ≡ₚ docs.
Proof.
  induction docs as [|d docs IH]; simpl; [reflexivity|].
  now rewrite insert_ranked_perm, IH.
Qed.

Lemma insert_ranked_ranked d docs : ranked docs → ranked (insert_ranked d docs).
Proof.
  induction docs as [|d' docs IH]; simpl; [now repeat constructor|].
  intros [Hd' Hrest]. destruct (more_used d d') eqn:E; simpl.
  - split; [|now split]. constructor; [assumption|].
    eapply Forall_impl; [exact Hd'|].
    intros x Hx. now apply (more_used_trans d d' x).
  - split; [|now apply IH].
    rewrite insert_ranked_perm. constructor; [|assumption].
    now apply more_used_total.
Qed.

Lemma sort_usageCount_desc_ranked docs : ranked (sort_usageCount_desc docs).
Proof.
  induction docs as [|d docs IH]; simpl; [exact I|].
  now apply insert_ranked_ranked.
Qed.

Lemma ranked_app l k :
  ranked (l ++ k) →
  ranked l ∧ ∀ d d', d ∈ l → d' ∈ k → more_used d d' = true.
Proof.
  induction l as [|x l IH]; simpl.
  - intros _. split; [exact I|]. intros d d' Hd. now apply elem_of_nil in Hd.
  - intros [Hx Hrest]. apply Forall_app in Hx as [Hxl Hxk].
    destruct (IH Hrest) as [Hl Hlk]. split; [now split|].
    intros d d' [->|Hd]%elem_of_cons Hd'.
    + rewrite Forall_forall in Hxk. now apply Hxk.
    + now apply Hlk.
Qed.

Lemma countApiKeys_run src f env w :
  ApiKey_countDocuments src = None →
  countApiKeys src f env w = (Ok (Z.of_nat (length (List.filter f (apiKeys w)))), w).
Proof. intros H. unfold countApiKeys. now rewrite H. Qed.

Lemma filter_split_length {A} (f : A → bool) (l : list A) :
  (length (List.filter f l) + length (List.filter (fun x => negb (f x)) l)
   = length l)%nat.
Proof.
  induction l as [|x l IH]; simpl; [reflexivity|].
  destruct (f x); simpl; lia.
Qed.

(** X18: the statistics.  When the counts and the query are served,
    [getStats] answers 200 and leaves the store alone; the three key
    counts add up, [inactive] being the number of records whose
    [isActive] is not [true]; and [topClients] lists the ten most used
    active records, or all of them if there are fewer: in falling order
    of [usageCount], every listed record having been used at least as
    much as every active record that is left out, and without the
    secret of any of them. *)
Theorem stats_count_and_rank
    (src : StatsSource) (req : Request) (env : Env) (w : World)
    (profiles recent : Z) :
  ApiKey_countDocuments src = None →
  User_countDocuments src = Ok profiles →
  User_countDocuments_since src (now env - 30 * 24 * 60 * 60 * 1000)
    = Ok recent →
  fault env ApiKey_find = None →
  let listed := take 10 (ranking w) in
  let left_out := drop 10 (ranking w) in
  getStats src req env w =
    (Ok (statistics
           (Z.of_nat (length (apiKeys w)))
           (Z.of_nat (length (List.filter active (apiKeys w))))
           (Z.of_nat (length (List.filter (fun d => negb (active d)) (apiKeys w))))
           profiles recent
           (client_entry <$> listed)), w)
  ∧ (listed ++ left_out)%list ≡ₚ List.filter active (apiKeys w)
  ∧ length listed = Nat.min 10 (length (List.filter active (apiKeys w)))
  ∧ ranked listed
  ∧ ∀ d d', d ∈ listed → d' ∈ left_out → more_used d d' = true.
Proof.
  intros Hcount Hprofiles Hrecent Hfind listed left_out.
  assert (Hperm : ranking w ≡ₚ List.filter active (apiKeys w))
    by apply sort_usageCount_desc_perm.
  pose proof (sort_usageCount_desc_ranked (List.filter active (apiKeys w)))
    as Hranked.
  fold (ranking w) in Hranked.
  rewrite <- (take_drop 10 (ranking w)) in Hranked.
  apply ranked_app in Hranked as [Hlisted Hbelow].
  split; [|split; [|split; [|split]]].
  - unfold getStats, try_catch.
    unfold bind at 1. unfold Date_now, bind at 1, ask, ret at 1.
    unfold bind at 1. rewrite countApiKeys_run by assumption.
    unfold bind at 1. rewrite countApiKeys_run by assumption.
    unfold bind at 1, await at 1. rewrite Hprofiles.
    unfold bind at 1, await at 1. rewrite Hrecent.
    unfold bind at 1. rewrite find_run, Hfind. unfold ret.
    rewrite forallb_filter_id by (apply forallb_forall; reflexivity).
    fold active. rewrite <- list_fmap_compose.
    replace (Z.of_nat (length (apiKeys w)) -
             Z.of_nat (length (List.filter active (apiKeys w))))
      with (Z.of_nat (length (List.filter (fun d => negb (active d)) (apiKeys w))))
      by (pose proof (filter_split_length active (apiKeys w)); lia).
    reflexivity.
  - unfold listed, left_out. now rewrite take_drop.
  - unfold listed. rewrite length_take. now rewrite Hperm.
  - exact Hlisted.
  - exact Hbelow.
Qed.

End MoreStats.

Lemma stats_count_and_rank_witness :
  getStats (counting 3 1) list_request (at_time 10) one_record =
    (Ok (statistics 1 1 0 3 1 [client_entry acme_record]), one_record).
Proof.
  apply (proj1 (stats_count_and_rank (counting 3 1) list_request (at_time 10)
                  one_record 3 1 eq_refl eq_refl eq_refl eq_refl)).
Defined.
